(** * Static equilibrium of a body in frictional contact: the engine of
      [static_equilibrium.cpp] and the helpers of [util.cpp]

    The C++ code computes with [double]; this development reads every
    [double] as a real number (exact arithmetic), so that [+], [*], [/],
    [sqrt], [sin] and [cos] are the operations of [R].  Eigen's fixed-size
    vectors and matrices are records, its dynamic ones are lists, and the
    objects the engine only calls (the LP solver behind [m_solver], cddlib)
    are interfaces whose implementations are arbitrary.

    A member function is a function from the object and its arguments to a
    [Result]: the value returned, the value left in the output argument,
    the object afterwards, and the list of what the call did besides
    (messages, calls of the solver and of cddlib).  What Eigen leaves
    unwritten when it sizes a matrix is an argument of the call, [Uninit]. *)

From Stdlib Require Import Reals Lra Lia String RNsatz.
From stdpp Require Import list.

Local Open Scope R_scope.

(** The comparison [x < y] of two [double]s, as a truth value. *)
Definition Rltb (x y : R) : bool := if Rlt_dec x y then true else false.

(** ** Fixed-size Eigen types *)

(** [Vector3]: coefficients [v(0)], [v(1)], [v(2)]. *)
Record Vector3 : Type := vec3 { v0 : R; v1 : R; v2 : R }.

(** [Matrix3] / [Rotation]: three rows. *)
Record Matrix3 : Type := mat3 { row0 : Vector3; row1 : Vector3; row2 : Vector3 }.

(** [Vector6]: [head<3>()] and [tail<3>()]. *)
Record Vector6 : Type := vec6 { head3 : Vector3; tail3 : Vector3 }.

(** [Matrix63]: [topRows<3>()] and [bottomRows<3>()]; the bottom rows are
    also [block<3,3>(3,0)]. *)
Record Matrix63 : Type := mat63 { topRows3 : Matrix3; bottomRows3 : Matrix3 }.

(** Dynamic types: [VectorX] is a list of coefficients, [MatrixXX] a list of
    rows, [MatrixX3] a list of 3d rows, [Matrix3X] and [Matrix6X] lists of
    columns. *)
Abbreviation VectorX := (list R) (only parsing).
Abbreviation MatrixXX := (list (list R)) (only parsing).
Abbreviation MatrixX3 := (list Vector3) (only parsing).
Abbreviation Matrix3X := (list Vector3) (only parsing).
Abbreviation Matrix6X := (list Vector6) (only parsing).

Module V3.

Definition Zero : Vector3 := vec3 0 0 0.
Definition UnitX : Vector3 := vec3 1 0 0.
Definition UnitY : Vector3 := vec3 0 1 0.

Definition add (a b : Vector3) : Vector3 :=
  vec3 (v0 a + v0 b) (v1 a + v1 b) (v2 a + v2 b).

Definition scale (k : R) (a : Vector3) : Vector3 :=
  vec3 (k * v0 a) (k * v1 a) (k * v2 a).

Definition neg (a : Vector3) : Vector3 := vec3 (- v0 a) (- v1 a) (- v2 a).

Definition dot (a b : Vector3) : R := v0 a * v0 b + v1 a * v1 b + v2 a * v2 b.

Definition cross (a b : Vector3) : Vector3 :=
  vec3 (v1 a * v2 b - v2 a * v1 b)
       (v2 a * v0 b - v0 a * v2 b)
       (v0 a * v1 b - v1 a * v0 b).

Definition norm (a : Vector3) : R := sqrt (dot a a).

(** [v.normalize()]: every coefficient divided by the norm. *)
Definition normalize (a : Vector3) : Vector3 :=
  vec3 (v0 a / norm a) (v1 a / norm a) (v2 a / norm a).

End V3.

Module M3.

Definition Zero : Matrix3 := mat3 V3.Zero V3.Zero V3.Zero.
Definition Identity : Matrix3 := mat3 (vec3 1 0 0) (vec3 0 1 0) (vec3 0 0 1).

Definition neg (m : Matrix3) : Matrix3 :=
  mat3 (V3.neg (row0 m)) (V3.neg (row1 m)) (V3.neg (row2 m)).

Definition mulv (m : Matrix3) (x : Vector3) : Vector3 :=
  vec3 (V3.dot (row0 m) x) (V3.dot (row1 m) x) (V3.dot (row2 m) x).

Definition transpose (m : Matrix3) : Matrix3 :=
  mat3 (vec3 (v0 (row0 m)) (v0 (row1 m)) (v0 (row2 m)))
       (vec3 (v1 (row0 m)) (v1 (row1 m)) (v1 (row2 m)))
       (vec3 (v2 (row0 m)) (v2 (row1 m)) (v2 (row2 m))).

(** [a * b]: row [i] of the product is row [i] of [a] times the columns
    of [b]. *)
Definition mul (a b : Matrix3) : Matrix3 :=
  mat3 (mulv (transpose b) (row0 a)) (mulv (transpose b) (row1 a))
       (mulv (transpose b) (row2 a)).

Definition det (m : Matrix3) : R := V3.dot (row0 m) (V3.cross (row1 m) (row2 m)).

End M3.

Module V6.

Definition Zero : Vector6 := vec6 V3.Zero V3.Zero.

Definition add (a b : Vector6) : Vector6 :=
  vec6 (V3.add (head3 a) (head3 b)) (V3.add (tail3 a) (tail3 b)).

Definition sub (a b : Vector6) : Vector6 :=
  vec6 (V3.add (head3 a) (V3.neg (head3 b))) (V3.add (tail3 a) (V3.neg (tail3 b))).

Definition scale (k : R) (a : Vector6) : Vector6 :=
  vec6 (V3.scale k (head3 a)) (V3.scale k (tail3 a)).

Definition neg (a : Vector6) : Vector6 := vec6 (V3.neg (head3 a)) (V3.neg (tail3 a)).

(** The six coefficients, top to bottom. *)
Definition to_list (a : Vector6) : VectorX :=
  [v0 (head3 a); v1 (head3 a); v2 (head3 a); v0 (tail3 a); v1 (tail3 a); v2 (tail3 a)].

End V6.

Module M63.

Definition Zero : Matrix63 := mat63 M3.Zero M3.Zero.

Definition neg (m : Matrix63) : Matrix63 :=
  mat63 (M3.neg (topRows3 m)) (M3.neg (bottomRows3 m)).

(** [A * x] for a 6x3 matrix and a 3d vector. *)
Definition mulv (m : Matrix63) (x : Vector3) : Vector6 :=
  vec6 (M3.mulv (topRows3 m) x) (M3.mulv (bottomRows3 m) x).

(** The six rows, top to bottom. *)
Definition rows (m : Matrix63) : list Vector3 :=
  [row0 (topRows3 m); row1 (topRows3 m); row2 (topRows3 m);
   row0 (bottomRows3 m); row1 (bottomRows3 m); row2 (bottomRows3 m)].

End M63.

(** ** util.cpp *)

(** [crossMatrix(x)]: the matrix of [y |-> x cross y]; the coefficients the
    function does not write stay at zero. *)
Definition crossMatrix (x : Vector3) : Matrix3 :=
  mat3 (vec3 0 (- v2 x) (v1 x))
       (vec3 (v2 x) 0 (- v0 x))
       (vec3 (- v1 x) (v0 x) 0).

(** ** Dynamic vectors and matrices *)

Module VX.

Definition Zero (n : nat) : VectorX := replicate n 0.
Definition Ones (n : nat) : VectorX := replicate n 1.
Definition scale (k : R) (a : VectorX) : VectorX := map (fun x => x * k) a.
Definition neg (a : VectorX) : VectorX := map Ropp a.
Definition add (a b : VectorX) : VectorX := zip_with Rplus a b.
Definition dot (a b : VectorX) : R := foldr Rplus 0 (zip_with Rmult a b).
(** [a(i)], read inside the vector. *)
Definition coeff (a : VectorX) (i : nat) : R := nth i a 0.
(** [a.head<k>() = x] for [x] of [k] coefficients. *)
Definition set_head (x a : VectorX) : VectorX := x ++ drop (length x) a.

End VX.

Module M6X.

(** [G * VectorX::Ones(m)]: the sum of the columns. *)
Definition mul_ones (G : Matrix6X) : Vector6 := foldr V6.add V6.Zero G.

(** Row [k] of the matrix whose columns are [G]. *)
Definition rows (G : Matrix6X) : MatrixXX :=
  [map (fun c => v0 (head3 c)) G; map (fun c => v1 (head3 c)) G;
   map (fun c => v2 (head3 c)) G; map (fun c => v0 (tail3 c)) G;
   map (fun c => v1 (tail3 c)) G; map (fun c => v2 (tail3 c)) G].

(** [G.transpose()]: one row per column of [G]. *)
Definition transpose (G : Matrix6X) : MatrixXX := map V6.to_list G.

End M6X.

Module MXX.

(** Matrices written side by side, row by row. *)
Definition hcat (a b : MatrixXX) : MatrixXX := zip_with (@app R) a b.

(** A column vector as a one-column matrix. *)
Definition col (a : VectorX) : MatrixXX := map (fun x => [x]) a.

(** [MatrixXX::Identity(m,m)]. *)
Definition Identity (m : nat) : MatrixXX :=
  map (fun i => <[i := 1]> (VX.Zero m)) (seq 0 m).

(** [H * x] for a dynamic matrix and a dynamic vector. *)
Definition mulv (H : MatrixXX) (x : VectorX) : VectorX :=
  map (fun r => VX.dot r x) H.

(** [H * D] for a dynamic matrix with six columns and a 6x3 matrix:
    coefficient [(i,k)] is row [i] of [H] times column [k] of [D]. *)
Definition mul63 (H : MatrixXX) (D : Matrix63) : MatrixX3 :=
  map (fun r => vec3 (VX.dot r (map v0 (M63.rows D)))
                     (VX.dot r (map v1 (M63.rows D)))
                     (VX.dot r (map v2 (M63.rows D)))) H.

(** [H * d] for a dynamic matrix with six columns and a 6d vector. *)
Definition mul6 (H : MatrixXX) (d : Vector6) : VectorX := mulv H (V6.to_list d).

(** [H(i,j)], read inside the matrix. *)
Definition coeff (H : MatrixXX) (i j : nat) : R := nth j (nth i H []) 0.

(** [H(i,j) = x], written inside the matrix. *)
Definition set (H : MatrixXX) (i j : nat) (x : R) : MatrixXX :=
  alter (fun r => <[j := x]> r) i H.

(** Position of the coefficient that the one-index access [H(k)] denotes in
    a matrix of [nr] rows and [nc] columns: Eigen walks the storage, row
    after row when the type is [RowMajor], column after column otherwise. *)
Definition linear (RowMajor : bool) (nr nc k : nat) : nat * nat :=
  if RowMajor then (k / nc, k mod nc)%nat else (k mod nr, k / nr)%nat.

Definition coeff_linear (RowMajor : bool) (H : MatrixXX) (nr nc k : nat) : R :=
  coeff H (fst (linear RowMajor nr nc k)) (snd (linear RowMajor nr nc k)).

Definition set_linear (RowMajor : bool) (H : MatrixXX) (nr nc k : nat) (x : R) : MatrixXX :=
  set H (fst (linear RowMajor nr nc k)) (snd (linear RowMajor nr nc k)) x.

End MXX.

Module MX3.

(** [HD * com] for a matrix with three columns. *)
Definition mulv (M : MatrixX3) (x : Vector3) : VectorX := map (fun r => V3.dot r x) M.

End MX3.

(** ** util.cpp, the other helpers *)

(** [euler_matrix(roll, pitch, yaw, R)]: the nine coefficients written to
    [R], with the intermediate products of the source. *)
Definition euler_matrix (roll pitch yaw : R) : Matrix3 :=
  let si := sin roll in
  let sj := sin pitch in
  let sk := sin yaw in
  let ci := cos roll in
  let cj := cos pitch in
  let ck := cos yaw in
  let cc := ci * ck in
  let cs := ci * sk in
  let sc := si * ck in
  let ss := si * sk in
  mat3 (vec3 (cj * ck) (sj * sc - cs) (sj * cc + ss))
       (vec3 (cj * sk) (sj * ss + cc) (sj * cs - sc))
       (vec3 (- sj) (cj * si) (cj * ci)).

(** [generate_rectangle_contacts(lx, ly, pos, rpy, p, N)]: the value
    returned, the four contact points left in [p] and the four normals left
    in [N], row by row. *)
Definition generate_rectangle_contacts (lx ly : R) (pos rpy : Vector3)
    : bool * MatrixX3 * MatrixX3 :=
  let Rot := euler_matrix (v0 rpy) (v1 rpy) (v2 rpy) in
  let p0 := vec3 lx ly 0 in
  let p1 := vec3 lx (- ly) 0 in
  let p2 := vec3 (- lx) (- ly) 0 in
  let p3 := vec3 (- lx) ly 0 in
  let p0 := V3.add pos (M3.mulv Rot p0) in
  let p1 := V3.add pos (M3.mulv Rot p1) in
  let p2 := V3.add pos (M3.mulv Rot p2) in
  let p3 := V3.add pos (M3.mulv Rot p3) in
  let n := vec3 0 0 1 in
  let n := M3.mulv Rot n in
  (true, [p0; p1; p2; p3], [n; n; n; n]).

(** [uniform(lower_bounds, upper_bounds, out)].  The C library's [rand()]
    is read as a sequence: [rand k] is what call number [k] returns, a
    number between 0 and [RAND_MAX].  The inner loop over [j], with [n]
    iterations left, [k] counting the calls so far. *)
Fixpoint uniform_row (RAND_MAX : Z) (rand : nat -> Z) (lower upper : MatrixXX)
    (i : nat) (n j k : nat) (out : MatrixXX) : MatrixXX * nat :=
  match n with
  | O => (out, k)
  | S n' =>
      uniform_row RAND_MAX rand lower upper i n' (j + 1) (k + 1)
        (MXX.set out i j
           ((IZR (rand k) / IZR RAND_MAX)
              * (MXX.coeff upper i j - MXX.coeff lower i j)
            + MXX.coeff lower i j))
  end.

(** The outer loop over [i], with [n] iterations left, for an [out] of
    [nc] columns. *)
Fixpoint uniform_rows (RAND_MAX : Z) (rand : nat -> Z) (lower upper : MatrixXX)
    (nc : nat) (n i k : nat) (out : MatrixXX) : MatrixXX * nat :=
  match n with
  | O => (out, k)
  | S n' =>
      let '(out', k') := uniform_row RAND_MAX rand lower upper i nc 0 k out in
      uniform_rows RAND_MAX rand lower upper nc n' (i + 1) k' out'
  end.

(** The value that [uniform] writes at [(i,j)] when [rand()] returns [r]. *)
Definition uniform_value (RAND_MAX r : Z) (lower upper : MatrixXX) (i j : nat) : R :=
  (IZR r / IZR RAND_MAX) * (MXX.coeff upper i j - MXX.coeff lower i j)
  + MXX.coeff lower i j.

(** The matrix left in [out] and the number of calls of [rand()]. *)
Definition uniform (RAND_MAX : Z) (rand : nat -> Z) (lower upper out : MatrixXX)
    : MatrixXX * nat :=
  uniform_rows RAND_MAX rand lower upper (length (nth 0 out [])) (length out) 0 0 out.

(** ** Enumerations *)

(** Status of an LP, as the solver reports it. *)
Inductive LP_status : Type :=
| LP_STATUS_OPTIMAL
| LP_STATUS_INFEASIBLE
| LP_STATUS_UNBOUNDED
| LP_STATUS_ERROR.

(** The solver behind [m_solver].  The enumeration is declared in a header;
    the engine names only [SOLVER_LP_QPOASES]. *)
Inductive SolverLP : Type :=
| SOLVER_LP_QPOASES
| SOLVER_LP_CLP.

Inductive StaticEquilibriumAlgorithm : Type :=
| STATIC_EQUILIBRIUM_ALGORITHM_LP
| STATIC_EQUILIBRIUM_ALGORITHM_LP2
| STATIC_EQUILIBRIUM_ALGORITHM_DLP
| STATIC_EQUILIBRIUM_ALGORITHM_PP
| STATIC_EQUILIBRIUM_ALGORITHM_IP
| STATIC_EQUILIBRIUM_ALGORITHM_DIP.

Definition SolverLP_eqb (a b : SolverLP) : bool :=
  match a, b with
  | SOLVER_LP_QPOASES, SOLVER_LP_QPOASES
  | SOLVER_LP_CLP, SOLVER_LP_CLP => true
  | _, _ => false
  end.

(** ** The LP solver interface *)

(** One call of [solve(c, lb, ub, A, Alb, Aub, sol)]:
    minimize [c' x] subject to [lb <= x <= ub] and [Alb <= A x <= Aub]. *)
Record LP : Type := mkLP {
  lp_c : VectorX;
  lp_lb : VectorX;
  lp_ub : VectorX;
  lp_A : MatrixXX;
  lp_Alb : VectorX;
  lp_Aub : VectorX
}.

(** [Solver_LP_abstract]: an object with a state of type [S].  [solve]
    gives the status, the solution vector it writes and its next state;
    [getObjectiveValue] reads the objective of the last problem solved. *)
Class Solver_LP_abstract (S : Type) : Type := {
  getNewSolver : SolverLP -> S;
  setUseWarmStart : S -> bool -> S;
  solve : S -> LP -> LP_status * VectorX * S;
  getObjectiveValue : S -> R
}.

(** ** The cddlib interface *)

(** A cddlib set: [set[0]] holds the size of the ground set [1..n], the
    members are numbers in that range. *)
Record set_type : Type := mkSet { set_ground : nat; set_elems : list nat }.

Definition set_member (e : nat) (s : set_type) : bool :=
  existsb (Nat.eqb e) (set_elems s).

Inductive dd_RepresentationType : Type := dd_Unspecified | dd_Inequality | dd_Generator.

(** Only [dd_NoError] is named by the engine. *)
Inductive dd_ErrorType : Type := dd_NoError | dd_NumericallyInconsistent.

Record dd_Matrix : Type := mkMatrix {
  rowsize : nat;
  colsize : nat;
  linset : set_type;
  representation : dd_RepresentationType;
  matrix : MatrixXX
}.

(** [dd_DDMatrix2Poly] and [dd_CopyInequalities], with [P] the type of
    cddlib's polyhedra. *)
Class CddLib (P : Type) : Type := {
  dd_DDMatrix2Poly : dd_Matrix -> P * dd_ErrorType;
  dd_CopyInequalities : P -> dd_Matrix
}.

(** [cone_span_eigen_to_cdd(input)], for an [input] of [input_cols]
    columns: a generator matrix whose row [i] is [0] followed by row [i] of
    [input]; [dd_CreateMatrix] leaves the linearity set empty. *)
Definition cone_span_eigen_to_cdd (input : MatrixXX) (input_cols : nat) : dd_Matrix :=
  {| rowsize := length input;
     colsize := input_cols + 1;
     linset := mkSet (length input) [];
     representation := dd_Generator;
     matrix := map (fun r => 0 :: r) input |}.

(** ** What a call does besides returning *)

(** The messages of the logger macros carry here the literal text of the
    source; the numbers the source appends to it are left out. *)
Inductive Event : Type :=
| SEND_ERROR_MSG (text : string)
| SEND_WARNING_MSG (text : string)
| SEND_DEBUG_MSG (text : string)
| CALL_solve (lp : LP)
| CALL_dd_DDMatrix2Poly (V : dd_Matrix).

(** Contents of storage that the code reads or keeps without having written
    it: what a freshly sized Eigen matrix holds. *)
Record Uninit : Type := mkUninit {
  uninit_G : nat -> Vector3;
  uninit_G_centr : nat -> Vector6;
  uninit_H : nat -> nat -> R;
  uninit_h : nat -> R
}.

(** ** The engine: static_equilibrium.cpp *)

Section Engine.

Context {LPS : Type} {solver_interface : Solver_LP_abstract LPS}.
Context {P : Type} {cdd_interface : CddLib P}.

(** Storage order of the [MatrixXX] typedef ([util.hh]): it decides which
    coefficient a one-index access to [m_H] denotes. *)
Variable MatrixXX_RowMajor : bool.

(** The members of the class.  Counts are natural numbers. *)
Record StaticEquilibrium : Type := mkStaticEquilibrium {
  m_name : string;
  m_solver_type : SolverLP;
  m_solver : LPS;
  m_generatorsPerContact : nat;
  m_mass : R;
  m_gravity : Vector3;
  m_algorithm : StaticEquilibriumAlgorithm;
  m_G_centr : Matrix6X;
  m_H : MatrixXX;
  m_h : VectorX;
  m_HD : MatrixX3;
  m_Hd : VectorX;
  m_d : Vector6;
  m_D : Matrix63;
  m_b0_to_emax_coefficient : R
}.

Definition with_algorithm (st : StaticEquilibrium) (a : StaticEquilibriumAlgorithm) :=
  mkStaticEquilibrium (m_name st) (m_solver_type st) (m_solver st)
    (m_generatorsPerContact st) (m_mass st) (m_gravity st) a (m_G_centr st)
    (m_H st) (m_h st) (m_HD st) (m_Hd st) (m_d st) (m_D st)
    (m_b0_to_emax_coefficient st).

Definition with_G_centr (st : StaticEquilibrium) (G : Matrix6X) :=
  mkStaticEquilibrium (m_name st) (m_solver_type st) (m_solver st)
    (m_generatorsPerContact st) (m_mass st) (m_gravity st) (m_algorithm st) G
    (m_H st) (m_h st) (m_HD st) (m_Hd st) (m_d st) (m_D st)
    (m_b0_to_emax_coefficient st).

Definition with_H_h (st : StaticEquilibrium) (H : MatrixXX) (h : VectorX) :=
  mkStaticEquilibrium (m_name st) (m_solver_type st) (m_solver st)
    (m_generatorsPerContact st) (m_mass st) (m_gravity st) (m_algorithm st)
    (m_G_centr st) H h (m_HD st) (m_Hd st) (m_d st) (m_D st)
    (m_b0_to_emax_coefficient st).

Definition with_HD_Hd (st : StaticEquilibrium) (HD : MatrixX3) (Hd : VectorX) :=
  mkStaticEquilibrium (m_name st) (m_solver_type st) (m_solver st)
    (m_generatorsPerContact st) (m_mass st) (m_gravity st) (m_algorithm st)
    (m_G_centr st) (m_H st) (m_h st) HD Hd (m_d st) (m_D st)
    (m_b0_to_emax_coefficient st).

Definition with_b0_to_emax_coefficient (st : StaticEquilibrium) (k : R) :=
  mkStaticEquilibrium (m_name st) (m_solver_type st) (m_solver st)
    (m_generatorsPerContact st) (m_mass st) (m_gravity st) (m_algorithm st)
    (m_G_centr st) (m_H st) (m_h st) (m_HD st) (m_Hd st) (m_d st) (m_D st) k.

Definition with_solver (st : StaticEquilibrium) (s : LPS) :=
  mkStaticEquilibrium (m_name st) (m_solver_type st) s
    (m_generatorsPerContact st) (m_mass st) (m_gravity st) (m_algorithm st)
    (m_G_centr st) (m_H st) (m_h st) (m_HD st) (m_Hd st) (m_d st) (m_D st)
    (m_b0_to_emax_coefficient st).

(** What a member function gives back: the returned value, the value left
    in its output argument, the object afterwards and what it did on the
    way, in order. *)
Record Result (A B : Type) : Type := mkResult {
  ret : A;
  out : B;
  self : StaticEquilibrium;
  events : list Event
}.
Arguments mkResult {A B} _ _ _ _.
Arguments ret {A B} _.
Arguments out {A B} _.
Arguments self {A B} _.
Arguments events {A B} _.

(** The constructor.  It writes neither [m_algorithm] nor
    [m_b0_to_emax_coefficient]: [uninit_algorithm] and [uninit_coefficient]
    stand for what these members hold; the dynamic matrices start empty. *)
Definition StaticEquilibrium_new (name : string) (mass : R)
    (generatorsPerContact : nat) (solver_type : SolverLP) (useWarmStart : bool)
    (uninit_algorithm : StaticEquilibriumAlgorithm) (uninit_coefficient : R)
    : StaticEquilibrium * list Event :=
  let too_few := (generatorsPerContact <? 3)%nat in
  let generatorsPerContact := if too_few then 3%nat else generatorsPerContact in
  let gravity := vec3 0 0 (-9.81) in
  ( {| m_name := name;
       m_solver_type := solver_type;
       m_solver := setUseWarmStart (getNewSolver solver_type) useWarmStart;
       m_generatorsPerContact := generatorsPerContact;
       m_mass := mass;
       m_gravity := gravity;
       m_algorithm := uninit_algorithm;
       m_G_centr := [];
       m_H := [];
       m_h := [];
       m_HD := [];
       m_Hd := [];
       m_d := vec6 (V3.scale mass gravity) V3.Zero;
       m_D := mat63 M3.Zero (crossMatrix (V3.scale (- mass) gravity));
       m_b0_to_emax_coefficient := uninit_coefficient |},
    if too_few
    then [SEND_WARNING_MSG "Algorithm cannot work with less than 3 generators per contact!"]
    else [] ).

(** [convert_b0_to_emax] and [convert_emax_to_b0]. *)
Definition convert_b0_to_emax (st : StaticEquilibrium) (b0 : R) : R :=
  b0 * m_b0_to_emax_coefficient st.

Definition convert_emax_to_b0 (st : StaticEquilibrium) (emax : R) : R :=
  emax / m_b0_to_emax_coefficient st.

(** *** computePolytopeProjection *)

(** The members of the linearity set, in increasing order:
    [for (elem = 1; elem <= linset[0]; ++elem) if (set_member(elem, linset))]. *)
Definition equality_rows (b_A : dd_Matrix) : list nat :=
  filter (fun elem => set_member elem (linset b_A) = true)
         (seq 1 (set_ground (linset b_A))).

(** The inner loop over [j = 1 .. colsize-1] of the first copy loop, with
    [n] iterations left: [m_H(i, j-1) = -matrix[i][j]]. *)
Fixpoint copy_row (b_A : dd_Matrix) (i : nat) (n j : nat) (H : MatrixXX) : MatrixXX :=
  match n with
  | O => H
  | S n' =>
      copy_row b_A i n' (j + 1)
        (MXX.set H i (j - 1) (- MXX.coeff (matrix b_A) i j))
  end.

(** The first copy loop over [i = 0 .. rowsize-1], with [n] iterations
    left: [m_h(i) = matrix[i][0]] and the inner loop. *)
Fixpoint copy_rows (b_A : dd_Matrix) (n i : nat) (H : MatrixXX) (h : VectorX)
    : MatrixXX * VectorX :=
  match n with
  | O => (H, h)
  | S n' =>
      copy_rows b_A n' (i + 1)
        (copy_row b_A i (colsize b_A - 1) 1 H)
        (<[i := MXX.coeff (matrix b_A) i 0]> h)
  end.

(** The loop over the equality rows, [i] counting them and [cit] the
    element the iterator points to:
    [m_h(rowsize + i) = -m_h(cit); m_H(rowsize + i) = -m_H(cit)].
    Both accesses to [m_H] have one index. *)
Fixpoint complement_rows (nr nc rowsize : nat) (eq_rows : list nat) (i : nat)
    (H : MatrixXX) (h : VectorX) : MatrixXX * VectorX :=
  match eq_rows with
  | [] => (H, h)
  | cit :: rest =>
      let h' := <[(rowsize + i)%nat := - VX.coeff h cit]> h in
      let H' := MXX.set_linear MatrixXX_RowMajor H nr nc (rowsize + i)
                  (- MXX.coeff_linear MatrixXX_RowMajor H nr nc cit) in
      complement_rows nr nc rowsize rest (i + 1) H' h'
  end.

(** [m.resize(nr, nc)]: storage of the same shape is kept as it is, any
    other is replaced by storage that nothing has written. *)
Definition resize_H (old : MatrixXX) (nr nc : nat) (mem : Uninit) : MatrixXX :=
  if ((length old =? nr)%nat && forallb (fun r => (length r =? nc)%nat) old)%bool
  then old
  else map (fun i => map (fun j => uninit_H mem i j) (seq 0 nc)) (seq 0 nr).

Definition resize_h (old : VectorX) (n : nat) (mem : Uninit) : VectorX :=
  if (length old =? n)%nat then old else map (uninit_h mem) (seq 0 n).

Definition computePolytopeProjection (st : StaticEquilibrium) (v : Matrix6X)
    (mem : Uninit) : Result bool unit :=
  let V := cone_span_eigen_to_cdd (M6X.transpose v) 6 in
  let '(H_, error) := dd_DDMatrix2Poly V in
  match error with
  | dd_NoError =>
      let b_A := dd_CopyInequalities H_ in
      let eq_rows := equality_rows b_A in
      let nr := (rowsize b_A + length eq_rows)%nat in
      let nc := (colsize b_A - 1)%nat in
      let H0 := resize_H (m_H st) nr nc mem in
      let h0 := resize_h (m_h st) nr mem in
      let '(H1, h1) := copy_rows b_A (rowsize b_A) 0 H0 h0 in
      let '(H2, h2) := complement_rows nr nc (rowsize b_A) eq_rows 0 H1 h1 in
      mkResult true tt (with_H_h st H2 h2) [CALL_dd_DDMatrix2Poly V]
  | _ =>
      mkResult false tt st
        [CALL_dd_DDMatrix2Poly V;
         SEND_ERROR_MSG "numerical instability in cddlib. ill formed polytope"]
  end.

(** *** setNewContacts *)

(** Row [i] of a matrix of contact points or normals; the assertion at the
    top of [setNewContacts] keeps [i] inside both. *)
Definition row (M : MatrixX3) (i : nat) : Vector3 := nth i M V3.Zero.

(** The tangent directions of a contact of normal [n], as the loop body
    computes them: [T2] is taken from [T1] before [T1] is normalized. *)
Definition tangent_T1_raw (n : Vector3) : Vector3 :=
  let T1 := V3.cross n V3.UnitY in
  if Rlt_dec (V3.norm T1) 1e-5 then V3.cross n V3.UnitX else T1.

Definition tangent_T1 (n : Vector3) : Vector3 := V3.normalize (tangent_T1_raw n).

Definition tangent_T2 (n : Vector3) : Vector3 :=
  V3.normalize (V3.cross n (tangent_T1_raw n)).

(** The generator of angle [theta]:
    [mu*sin(theta)*T1 + mu*cos(theta)*T2 + n], normalized. *)
Definition generator (mu : R) (n : Vector3) (theta : R) : Vector3 :=
  V3.normalize
    (V3.add (V3.add (V3.scale (mu * sin theta) (tangent_T1 n))
                    (V3.scale (mu * cos theta) (tangent_T2 n)))
            n).

(** The loop over [j] that fills the columns of the local [G], with [k]
    iterations left; [theta] grows by [delta_theta] at each turn. *)
Fixpoint generators_loop (mu : R) (n : Vector3) (delta_theta : R)
    (k j : nat) (theta : R) (G : Matrix3X) : Matrix3X :=
  match k with
  | O => G
  | S k' =>
      generators_loop mu n delta_theta k' (j + 1) (theta + delta_theta)
        (<[j := generator mu n theta]> G)
  end.

(** The matrix [A] of contact point [p]: [-Identity] on top of
    [crossMatrix(-1.0 * p)]. *)
Definition contact_A (p : Vector3) : Matrix63 :=
  mat63 (M3.neg M3.Identity) (crossMatrix (V3.scale (-1) p)).

(** The loop over the contacts, with [k] iterations left.  It stops at the
    first normal whose norm is not 1 and gives [false] then; either way it
    gives [m_G_centr] and the local [G] as they are at that point. *)
Fixpoint contacts_loop (contactPoints contactNormals : MatrixX3) (mu : R)
    (cg : nat) (k i : nat) (G_centr : Matrix6X) (G : Matrix3X)
    : bool * Matrix6X * Matrix3X :=
  match k with
  | O => (true, G_centr, G)
  | S k' =>
      let n := row contactNormals i in
      if Rgt_dec (Rabs (V3.norm n - 1)) 1e-6 then (false, G_centr, G)
      else
        let A := contact_A (row contactPoints i) in
        let G' := generators_loop mu n (2 * PI / INR cg) cg 0 0 G in
        contacts_loop contactPoints contactNormals mu cg k' (i + 1)
          (list_inserts (cg * i) (map (M63.mulv A) G') G_centr) G'
  end.

(** [m_G_centr.resize(6, n)]. *)
Definition resize_G_centr (old : Matrix6X) (n : nat) (mem : Uninit) : Matrix6X :=
  if (length old =? n)%nat then old else map (uninit_G_centr mem) (seq 0 n).

(** [f0], the sum of the columns of the local [G]. *)
Definition sum_columns (G : Matrix3X) : Vector3 := foldl V3.add V3.Zero G.

Definition setNewContacts (st : StaticEquilibrium)
    (contactPoints contactNormals : MatrixX3) (frictionCoefficient : R)
    (alg : StaticEquilibriumAlgorithm) (mem : Uninit) : Result bool unit :=
  match alg with
  | STATIC_EQUILIBRIUM_ALGORITHM_IP =>
      mkResult false tt st [SEND_ERROR_MSG "Algorithm IP not implemented yet"]
  | STATIC_EQUILIBRIUM_ALGORITHM_DIP =>
      mkResult false tt st [SEND_ERROR_MSG "Algorithm DIP not implemented yet"]
  | _ =>
      let st := with_algorithm st alg in
      let c := length contactPoints in
      let cg := m_generatorsPerContact st in
      let G := map (uninit_G mem) (seq 0 cg) in
      let G_centr := resize_G_centr (m_G_centr st) (c * cg) mem in
      match contacts_loop contactPoints contactNormals frictionCoefficient
              cg c 0 G_centr G with
      | (false, G_centr, _) =>
          mkResult false tt (with_G_centr st G_centr)
            [SEND_ERROR_MSG "Contact normals should have norm 1, this has norm %f"]
      | (true, G_centr, G) =>
          let st := with_G_centr st G_centr in
          let f0 := sum_columns G in
          let st := with_b0_to_emax_coefficient st
                      (V3.norm (V3.cross f0 (nth 0 G V3.Zero))) in
          match m_algorithm st with
          | STATIC_EQUILIBRIUM_ALGORITHM_PP =>
              let r := computePolytopeProjection st (m_G_centr st) mem in
              if ret r
              then mkResult true tt
                     (with_HD_Hd (self r) (MXX.mul63 (m_H (self r)) (m_D (self r)))
                                          (MXX.mul6 (m_H (self r)) (m_d (self r))))
                     (events r)
              else mkResult false tt (self r) (events r)
          | _ => mkResult true tt st []
          end
      end
  end.

(** *** The linear programs *)

(** [m_D * com + m_d]. *)
Definition gravity_wrench (st : StaticEquilibrium) (com : Vector3) : Vector6 :=
  V6.add (M63.mulv (m_D st) com) (m_d st).

(** [m_D*a0 + m_d - m_G_centr*VectorX::Ones(m)*b0]. *)
Definition line_wrench (st : StaticEquilibrium) (a0 : Vector3) (b0 : R) : Vector6 :=
  V6.sub (gravity_wrench st a0) (V6.scale b0 (M6X.mul_ones (m_G_centr st))).

(** The primal LP of [computeEquilibriumRobustness], in [b] and [b0]. *)
Definition robustness_LP (st : StaticEquilibrium) (com : Vector3) : LP :=
  let m := length (m_G_centr st) in
  {| lp_c := <[m := -1]> (VX.Zero (m + 1));
     lp_lb := VX.scale 1e5 (VX.neg (VX.Ones (m + 1)));
     lp_ub := VX.scale 1e10 (VX.Ones (m + 1));
     lp_A := MXX.hcat (M6X.rows (m_G_centr st)) (MXX.col (VX.Zero 6))
             ++ MXX.hcat (MXX.Identity m) (MXX.col (VX.neg (VX.Ones m)));
     lp_Alb := VX.set_head (V6.to_list (gravity_wrench st com)) (VX.Zero (6 + m));
     lp_Aub := VX.set_head (V6.to_list (gravity_wrench st com))
                 (VX.scale 1e100 (VX.Ones (6 + m))) |}.

(** The second primal LP, in the shifted [b] and [b0]. *)
Definition robustness_LP2 (st : StaticEquilibrium) (com : Vector3) : LP :=
  let m := length (m_G_centr st) in
  {| lp_c := <[m := -1]> (VX.Zero (m + 1));
     lp_lb := <[m := -1e10]> (VX.Zero (m + 1));
     lp_ub := VX.scale 1e10 (VX.Ones (m + 1));
     lp_A := MXX.hcat (M6X.rows (m_G_centr st))
               (MXX.col (V6.to_list (M6X.mul_ones (m_G_centr st))));
     lp_Alb := V6.to_list (gravity_wrench st com);
     lp_Aub := V6.to_list (gravity_wrench st com) |}.

(** The dual LP, in [v]. *)
Definition robustness_DLP (st : StaticEquilibrium) (com : Vector3) : LP :=
  let m := length (m_G_centr st) in
  {| lp_c := V6.to_list (gravity_wrench st com);
     lp_lb := VX.scale (-1e100) (VX.Ones 6);
     lp_ub := VX.scale 1e100 (VX.Ones 6);
     lp_A := M6X.transpose (m_G_centr st)
             ++ [V6.to_list (M6X.mul_ones (m_G_centr st))];
     lp_Alb := <[m := 1]> (VX.Zero (m + 1));
     lp_Aub := <[m := 1]> (VX.scale 1e100 (VX.Ones (m + 1))) |}.

(** The primal LP of [findExtremumOverLine], in [b] and the line
    parameter. *)
Definition line_LP (st : StaticEquilibrium) (a a0 : Vector3) (b0 : R) : LP :=
  let m := length (m_G_centr st) in
  {| lp_c := <[m := -1]> (VX.Zero (m + 1));
     lp_lb := <[m := -1e5]> (VX.neg (VX.Zero (m + 1)));
     lp_ub := VX.scale 1e10 (VX.Ones (m + 1));
     lp_A := MXX.hcat (M6X.rows (m_G_centr st))
               (MXX.col (V6.to_list (M63.mulv (M63.neg (m_D st)) a)));
     lp_Alb := V6.to_list (line_wrench st a0 b0);
     lp_Aub := V6.to_list (line_wrench st a0 b0) |}.

(** The dual LP of [findExtremumOverLine], in [v]. *)
Definition line_DLP (st : StaticEquilibrium) (a a0 : Vector3) (b0 : R) : LP :=
  let m := length (m_G_centr st) in
  {| lp_c := V6.to_list (line_wrench st a0 b0);
     lp_lb := VX.scale (-1e10) (VX.Ones 6);
     lp_ub := VX.scale 1e10 (VX.Ones 6);
     lp_A := M6X.transpose (m_G_centr st) ++ [V6.to_list (M63.mulv (m_D st) a)];
     lp_Alb := <[m := -1]> (VX.Zero (m + 1));
     lp_Aub := <[m := -1]> (VX.scale 1e10 (VX.Ones (m + 1))) |}.

(** The exchange of the two flags after a dual problem could not be
    solved: [INFEASIBLE] becomes [UNBOUNDED], [UNBOUNDED] becomes
    [INFEASIBLE], any other status stays. *)
Definition switch_dual_status (lpStatus_dual : LP_status) : LP_status :=
  match lpStatus_dual with
  | LP_STATUS_INFEASIBLE => LP_STATUS_UNBOUNDED
  | LP_STATUS_UNBOUNDED => LP_STATUS_INFEASIBLE
  | other => other
  end.

(** *** computeEquilibriumRobustness *)

Definition computeEquilibriumRobustness (st : StaticEquilibrium)
    (com : Vector3) (robustness : R) : Result LP_status R :=
  let m := length (m_G_centr st) in
  if (m =? 0)%nat then mkResult LP_STATUS_INFEASIBLE robustness st []
  else
    match m_algorithm st with
    | STATIC_EQUILIBRIUM_ALGORITHM_LP =>
        let lp := robustness_LP st com in
        let '(lpStatus, b_b0, s) := solve (m_solver st) lp in
        let st := with_solver st s in
        match lpStatus with
        | LP_STATUS_OPTIMAL =>
            mkResult lpStatus
              (convert_b0_to_emax st (-1 * getObjectiveValue (m_solver st)))
              st [CALL_solve lp]
        | _ =>
            mkResult lpStatus robustness st
              [CALL_solve lp;
               SEND_DEBUG_MSG "Primal LP problem could not be solved: "]
        end
    | STATIC_EQUILIBRIUM_ALGORITHM_LP2 =>
        let lp := robustness_LP2 st com in
        let '(lpStatus_primal, b_b0, s) := solve (m_solver st) lp in
        let st := with_solver st s in
        match lpStatus_primal with
        | LP_STATUS_OPTIMAL =>
            mkResult lpStatus_primal
              (convert_b0_to_emax st (-1 * getObjectiveValue (m_solver st)))
              st [CALL_solve lp]
        | _ =>
            mkResult lpStatus_primal robustness st
              [CALL_solve lp;
               SEND_DEBUG_MSG "Primal LP problem could not be solved: "]
        end
    | STATIC_EQUILIBRIUM_ALGORITHM_DLP =>
        let lp := robustness_DLP st com in
        let '(lpStatus_dual, v, s) := solve (m_solver st) lp in
        let st := with_solver st s in
        match lpStatus_dual with
        | LP_STATUS_OPTIMAL =>
            mkResult lpStatus_dual
              (convert_b0_to_emax st (getObjectiveValue (m_solver st)))
              st [CALL_solve lp]
        | _ =>
            mkResult (switch_dual_status lpStatus_dual) robustness st
              [CALL_solve lp;
               SEND_DEBUG_MSG "Dual LP problem for com position could not be solved: "]
        end
    | _ =>
        mkResult LP_STATUS_ERROR robustness st
          [SEND_ERROR_MSG "checkRobustEquilibrium is not implemented for the specified algorithm"]
    end.

(** *** checkRobustEquilibrium *)

(** The loop over [res]: [false] at the first positive coefficient. *)
Fixpoint no_positive_row (res : VectorX) : bool :=
  match res with
  | [] => true
  | r :: rest => if Rgt_dec r 0 then false else no_positive_row rest
  end.

Definition checkRobustEquilibrium (st : StaticEquilibrium) (com : Vector3)
    (equilibrium : bool) (e_max : R) : Result LP_status bool :=
  if (length (m_G_centr st) =? 0)%nat then mkResult LP_STATUS_OPTIMAL false st []
  else if Req_dec_T e_max 0 then
    match m_algorithm st with
    | STATIC_EQUILIBRIUM_ALGORITHM_PP =>
        let res := VX.add (MX3.mulv (m_HD st) com) (m_Hd st) in
        mkResult LP_STATUS_OPTIMAL (no_positive_row res) st []
    | _ =>
        mkResult LP_STATUS_ERROR equilibrium st
          [SEND_ERROR_MSG "checkRobustEquilibrium is only implemented for the PP algorithm"]
    end
  else
    mkResult LP_STATUS_ERROR equilibrium st
      [SEND_ERROR_MSG "checkRobustEquilibrium with e_max!=0 not implemented yet"].

(** *** findExtremumOverLine *)

Definition findExtremumOverLine (st : StaticEquilibrium) (a a0 : Vector3)
    (e_max : R) (com : Vector3) : Result LP_status Vector3 :=
  let m := length (m_G_centr st) in
  if (m =? 0)%nat then mkResult LP_STATUS_INFEASIBLE com st []
  else
    let b0 := convert_emax_to_b0 st e_max in
    match m_algorithm st with
    | STATIC_EQUILIBRIUM_ALGORITHM_LP =>
        let lp := line_LP st a a0 b0 in
        let '(lpStatus_primal, b_p, s) := solve (m_solver st) lp in
        let st := with_solver st s in
        match lpStatus_primal with
        | LP_STATUS_OPTIMAL =>
            mkResult lpStatus_primal (V3.add a0 (V3.scale (VX.coeff b_p m) a))
              st [CALL_solve lp]
        | _ =>
            mkResult lpStatus_primal a0 st
              [CALL_solve lp;
               SEND_DEBUG_MSG "Primal LP problem could not be solved suggesting that no equilibrium position with robustness "]
        end
    | STATIC_EQUILIBRIUM_ALGORITHM_DLP =>
        let lp := line_DLP st a a0 b0 in
        let '(lpStatus_dual, v, s) := solve (m_solver st) lp in
        let st := with_solver st s in
        match lpStatus_dual with
        | LP_STATUS_OPTIMAL =>
            let p := getObjectiveValue (m_solver st) in
            let com := V3.add a0 (V3.scale p a) in
            if (SolverLP_eqb (m_solver_type st) SOLVER_LP_QPOASES
                && Rltb p (-1e7))%bool
            then mkResult LP_STATUS_UNBOUNDED com st
                   [CALL_solve lp;
                    SEND_DEBUG_MSG "Dual LP problem with robustness "]
            else mkResult lpStatus_dual com st [CALL_solve lp]
        | _ =>
            mkResult (switch_dual_status lpStatus_dual) a0 st
              [CALL_solve lp;
               SEND_DEBUG_MSG "Dual LP problem could not be solved suggesting that no equilibrium position with robustness "]
        end
    | _ =>
        mkResult LP_STATUS_ERROR com st
          [SEND_ERROR_MSG "findExtremumOverLine is not implemented for the specified algorithm"]
    end.

(** *** findExtremumInDirection *)

Definition findExtremumInDirection (st : StaticEquilibrium)
    (direction : Vector3) (com : Vector3) (e_max : R) : Result LP_status Vector3 :=
  if (length (m_G_centr st) =? 0)%nat then mkResult LP_STATUS_INFEASIBLE com st []
  else
    mkResult LP_STATUS_ERROR com st
      [SEND_ERROR_MSG "findExtremumInDirection not implemented yet"].

(** *** Notions used to state the properties *)

(** A normal that passes the test of [setNewContacts]. *)
Definition unit_normal (n : Vector3) : Prop := ~ Rabs (V3.norm n - 1) > 1e-6.

(** The generators of a contact of normal [n], for [cg] generators per
    contact: angle [j * 2 * PI / cg] for column [j]. *)
Definition generators (mu : R) (n : Vector3) (cg : nat) : Matrix3X :=
  map (fun j => generator mu n (INR j * 2 * PI / INR cg)) (seq 0 cg).

(** The members that [computePolytopeProjection] never writes. *)
Definition same_but_H_h (st st' : StaticEquilibrium) : Prop :=
  m_name st' = m_name st /\ m_solver_type st' = m_solver_type st /\
  m_solver st' = m_solver st /\
  m_generatorsPerContact st' = m_generatorsPerContact st /\
  m_mass st' = m_mass st /\ m_gravity st' = m_gravity st /\
  m_algorithm st' = m_algorithm st /\ m_G_centr st' = m_G_centr st /\
  m_HD st' = m_HD st /\ m_Hd st' = m_Hd st /\
  m_d st' = m_d st /\ m_D st' = m_D st /\
  m_b0_to_emax_coefficient st' = m_b0_to_emax_coefficient st.

(** The algorithms that [setNewContacts] accepts. *)
Definition implemented (alg : StaticEquilibriumAlgorithm) : Prop :=
  alg <> STATIC_EQUILIBRIUM_ALGORITHM_IP /\ alg <> STATIC_EQUILIBRIUM_ALGORITHM_DIP.

(** The state of the loop of [setNewContacts] when it is left. *)
Definition loop_exit (st : StaticEquilibrium) (pts nrm : MatrixX3) (mu : R) (mem : Uninit) :=
  contacts_loop pts nrm mu (m_generatorsPerContact st) (length pts) 0
    (resize_G_centr (m_G_centr st) (length pts * m_generatorsPerContact st) mem)
    (map (uninit_G mem) (seq 0 (m_generatorsPerContact st))).

(** The members that the queries never write: all but the solver. *)
Definition same_but_solver (st st' : StaticEquilibrium) : Prop :=
  st' = with_solver st (m_solver st').

(** What the solver of the engine answers to a problem: the status it
    returns, and the objective value it holds afterwards. *)
Definition solver_status (st : StaticEquilibrium) (lp : LP) : LP_status :=
  fst (fst (solve (m_solver st) lp)).

Definition solver_objective (st : StaticEquilibrium) (lp : LP) : R :=
  getObjectiveValue (snd (solve (m_solver st) lp)).

(** The solution vector that the solver of the engine writes for a
    problem. *)
Definition solver_solution (st : StaticEquilibrium) (lp : LP) : VectorX :=
  snd (fst (solve (m_solver st) lp)).

(** *** Histories of an engine *)

(** One call of a public member function takes the object from one state to
    the next. *)
Inductive call : StaticEquilibrium -> StaticEquilibrium -> Prop :=
| call_setNewContacts st contactPoints contactNormals frictionCoefficient alg mem :
    call st (self (setNewContacts st contactPoints contactNormals
                     frictionCoefficient alg mem))
| call_computeEquilibriumRobustness st com robustness :
    call st (self (computeEquilibriumRobustness st com robustness))
| call_checkRobustEquilibrium st com equilibrium e_max :
    call st (self (checkRobustEquilibrium st com equilibrium e_max))
| call_findExtremumOverLine st a a0 e_max com :
    call st (self (findExtremumOverLine st a a0 e_max com))
| call_findExtremumInDirection st direction com e_max :
    call st (self (findExtremumInDirection st direction com e_max)).

(** The states an object constructed as [st0] goes through. *)
Inductive reachable_from (st0 : StaticEquilibrium) : StaticEquilibrium -> Prop :=
| reachable_new : reachable_from st0 st0
| reachable_call st st' :
    reachable_from st0 st -> call st st' -> reachable_from st0 st'.

End Engine.

Arguments mkResult {LPS A B} _ _ _ _.
Arguments ret {LPS A B} _.
Arguments out {LPS A B} _.
Arguments self {LPS A B} _.
Arguments events {LPS A B} _.

(** ** Notions about problems, shapes and traces *)

(** A problem in [n] variables under [k] constraints whose vectors and
    matrix have the sizes that go together. *)
Definition LP_shape (lp : LP) (n k : nat) : Prop :=
  length (lp_c lp) = n /\ length (lp_lb lp) = n /\ length (lp_ub lp) = n /\
  length (lp_A lp) = k /\ Forall (fun r => length r = n) (lp_A lp) /\
  length (lp_Alb lp) = k /\ length (lp_Aub lp) = k.

(** A problem whose lower bounds are below its upper bounds. *)
Definition LP_bounds_ordered (lp : LP) : Prop :=
  Forall2 Rle (lp_lb lp) (lp_ub lp) /\ Forall2 Rle (lp_Alb lp) (lp_Aub lp).

(** A point that meets the bounds and the constraints of a problem, as
    the comments of the source write them: [lb <= x <= ub] and
    [Alb <= A x <= Aub]. *)
Definition LP_feasible (lp : LP) (x : VectorX) : Prop :=
  Forall2 Rle (lp_lb lp) x /\ Forall2 Rle x (lp_ub lp) /\
  Forall2 Rle (lp_Alb lp) (MXX.mulv (lp_A lp) x) /\
  Forall2 Rle (MXX.mulv (lp_A lp) x) (lp_Aub lp).

(** A list of rows that is a matrix of [nr] rows and [nc] columns. *)
Definition shape (H : MatrixXX) (nr nc : nat) : Prop :=
  length H = nr /\ Forall (fun r => length r = nc) H.

Definition algorithm_is_IP (alg : StaticEquilibriumAlgorithm) : bool :=
  match alg with STATIC_EQUILIBRIUM_ALGORITHM_IP => true | _ => false end.

Definition LP_status_is_optimal (s : LP_status) : bool :=
  match s with LP_STATUS_OPTIMAL => true | _ => false end.

Definition is_CALL_solve (e : Event) : bool :=
  match e with CALL_solve _ => true | _ => false end.

Definition is_CALL_dd_DDMatrix2Poly (e : Event) : bool :=
  match e with CALL_dd_DDMatrix2Poly _ => true | _ => false end.

(** How many times a trace calls the solver, and cddlib. *)
Definition solver_calls (trace : list Event) : nat :=
  length (List.filter is_CALL_solve trace).

Definition cddlib_calls (trace : list Event) : nat :=
  length (List.filter is_CALL_dd_DDMatrix2Poly trace).

(** ** Concrete collaborators *)

Module Scenario.

(** A solver that reports the status and the objective value it was
    created with, whatever the problem. *)
Definition answering (status : LP_status) (objective : R)
    : Solver_LP_abstract (LP_status * R) :=
  {| getNewSolver := fun _ => (status, objective);
     setUseWarmStart := fun s _ => s;
     solve := fun s _ => (fst s, [], s);
     getObjectiveValue := snd |}.

(** A cddlib that gives the same inequalities [b_A], without error,
    whatever the generators. *)
Definition projecting (b_A : dd_Matrix) : CddLib dd_Matrix :=
  {| dd_DDMatrix2Poly := fun _ => (b_A, dd_NoError);
     dd_CopyInequalities := fun H_ => H_ |}.

(** A cddlib that reports a numerical inconsistency, whatever the
    generators. *)
Definition failing : CddLib unit :=
  {| dd_DDMatrix2Poly := fun _ => (tt, dd_NumericallyInconsistent);
     dd_CopyInequalities := fun _ => mkMatrix 0 7 (mkSet 0 []) dd_Inequality [] |}.

(** Storage that holds zeros. *)
Definition zeroed : Uninit :=
  {| uninit_G := fun _ => V3.Zero;
     uninit_G_centr := fun _ => V6.Zero;
     uninit_H := fun _ _ => 0;
     uninit_h := fun _ => 0 |}.

(** A body of mass 1 with three generators per contact, as constructed;
    the two members that the constructor does not write hold the primal LP
    and 0. *)
Definition robot (status : LP_status) (objective : R) (solver_type : SolverLP)
    : StaticEquilibrium :=
  fst (StaticEquilibrium_new (solver_interface := answering status objective)
         "robot" 1 3 solver_type false STATIC_EQUILIBRIUM_ALGORITHM_LP 0).

(** Storage that still holds other vectors. *)
Definition stale : Uninit :=
  {| uninit_G := fun j => match j with O => vec3 1 0 0 | _ => vec3 0 1 0 end;
     uninit_G_centr := fun _ => V6.Zero;
     uninit_H := fun _ _ => 0;
     uninit_h := fun _ => 0 |}.

(** One flat contact at the origin. *)
Definition origin : MatrixX3 := [vec3 0 0 0].
Definition upward : MatrixX3 := [vec3 0 0 1].

(** A normal of norm 0.5. *)
Definition short_normal : MatrixX3 := [vec3 0 0 0.5].

(** The same body, standing on the flat contact and configured with
    algorithm [alg]; cddlib answers [b_A]. *)
Definition standing (b_A : dd_Matrix) (RowMajor : bool) (status : LP_status)
    (objective : R) (solver_type : SolverLP) (alg : StaticEquilibriumAlgorithm)
    : StaticEquilibrium :=
  self (setNewContacts (cdd_interface := projecting b_A) RowMajor
          (robot status objective solver_type) origin upward 0.5 alg zeroed).

(** Two inequality rows, the first of them flagged as an equality. *)
Definition two_rows : dd_Matrix :=
  {| rowsize := 2;
     colsize := 7;
     linset := mkSet 2 [1%nat];
     representation := dd_Inequality;
     matrix := [[0; 1; 2; 3; 4; 5; 6]; [0; 7; 8; 9; 10; 11; 12]] |}.

(** The same two rows, none of them flagged. *)
Definition two_inequalities : dd_Matrix :=
  {| rowsize := 2;
     colsize := 7;
     linset := mkSet 2 [];
     representation := dd_Inequality;
     matrix := [[0; 1; 2; 3; 4; 5; 6]; [0; 7; 8; 9; 10; 11; 12]] |}.

(** No inequality at all. *)
Definition no_rows : dd_Matrix :=
  {| rowsize := 0;
     colsize := 7;
     linset := mkSet 0 [];
     representation := dd_Inequality;
     matrix := [] |}.

End Scenario.

(** ** Properties *)

Section EngineFacts.

Context {LPS : Type} {solver_interface : Solver_LP_abstract LPS}.
Context {P : Type} {cdd_interface : CddLib P}.
Variable RowMajor : bool.

Implicit Types st : @StaticEquilibrium LPS.

(** *** The loops of setNewContacts *)

Lemma generators_loop_length mu n dt k : forall j theta G,
  length (generators_loop mu n dt k j theta G) = length G.
Proof.
  induction k as [|k IH]; intros j theta G; cbn [generators_loop]; [reflexivity|].
  rewrite IH. apply length_insert.
Qed.

Lemma generators_loop_lookup mu n dt k : forall j theta G i,
  (j + k <= length G)%nat ->
  generators_loop mu n dt k j theta G !! i =
    if (decide (j <= i < j + k)%nat)
    then Some (generator mu n (theta + INR (i - j) * dt))
    else G !! i.
Proof.
  induction k as [|k IH]; intros j theta G i Hlen; cbn [generators_loop].
  - destruct (decide _) as [H|H]; [lia|reflexivity].
  - rewrite IH by (rewrite length_insert; lia).
    destruct (decide (j + 1 <= i < j + 1 + k)%nat) as [H|H].
    + destruct (decide (j <= i < j + S k)%nat) as [H'|H']; [|lia].
      f_equal. f_equal.
      replace (i - j)%nat with (S (i - (j + 1)))%nat by lia.
      rewrite S_INR. ring.
    + destruct (decide (j <= i < j + S k)%nat) as [H'|H'].
      * assert (i = j) as -> by lia.
        rewrite list_lookup_insert_eq by lia.
        f_equal. f_equal. rewrite Nat.sub_diag. simpl. ring.
      * apply list_lookup_insert_ne. lia.
Qed.

Lemma generators_loop_all mu n cg G :
  length G = cg ->
  generators_loop mu n (2 * PI / INR cg) cg 0 0 G = generators mu n cg.
Proof.
  intros Hlen. apply list_eq. intros i.
  rewrite generators_loop_lookup by lia.
  unfold generators. rewrite list_lookup_fmap.
  destruct (decide (0 <= i < 0 + cg)%nat) as [H|H].
  - rewrite lookup_seq_lt by lia. simpl. f_equal. f_equal.
    rewrite Nat.sub_0_r. unfold Rdiv. ring.
  - rewrite lookup_seq_ge by lia. simpl. apply lookup_ge_None. lia.
Qed.

Lemma generators_length mu n cg : length (generators mu n cg) = cg.
Proof. unfold generators. rewrite length_map. apply length_seq. Qed.

Lemma contacts_loop_spec pts nrm mu cg : forall k i Gc G ok Gc' G',
  length G = cg ->
  (cg * (i + k) <= length Gc)%nat ->
  contacts_loop pts nrm mu cg k i Gc G = (ok, Gc', G') ->
  length Gc' = length Gc /\ length G' = cg /\
  (forall idx, (idx < cg * i)%nat -> Gc' !! idx = Gc !! idx) /\
  (ok = true <-> forall i', (i <= i' < i + k)%nat -> unit_normal (row nrm i')) /\
  (ok = true ->
     (forall i' j, (i <= i' < i + k)%nat -> (j < cg)%nat ->
        Gc' !! (cg * i' + j)%nat =
          Some (M63.mulv (contact_A (row pts i'))
                  (generator mu (row nrm i') (INR j * 2 * PI / INR cg)))) /\
     G' = match k with
          | O => G
          | S _ => generators mu (row nrm (i + k - 1)) cg
          end).
Proof.
  induction k as [|k IH]; intros i Gc G ok Gc' G' HG HGc Hloop;
    cbn [contacts_loop] in Hloop.
  - injection Hloop as <- <- <-.
    split; [reflexivity|]. split; [exact HG|]. split; [reflexivity|].
    split; [split; [intros _ i' Hi'; lia|reflexivity]|].
    intros _. split; [intros i' j Hi'; lia|reflexivity].
  - destruct (Rgt_dec (Rabs (V3.norm (row nrm i) - 1)) 1e-6) as [Hbad|Hgood].
    + injection Hloop as <- <- <-.
      split; [reflexivity|]. split; [exact HG|]. split; [reflexivity|].
      split; [|discriminate].
      split; [discriminate|].
      intros Hall. exfalso. apply (Hall i); [lia|exact Hbad].
    + rewrite generators_loop_all in Hloop by exact HG.
      apply IH in Hloop as (HlenGc & HlenG & Hbefore & Hok & Hcols);
        [|apply generators_length|rewrite length_inserts; lia].
      rewrite length_inserts in HlenGc.
      split; [exact HlenGc|]. split; [exact HlenG|].
      split.
      { intros idx Hidx. rewrite Hbefore by lia.
        apply list_lookup_inserts_lt. exact Hidx. }
      split.
      { rewrite Hok. split.
        - intros Hall i' Hi'. destruct (decide (i' = i)) as [->|Hne];
            [exact Hgood|apply Hall; lia].
        - intros Hall i' Hi'. apply Hall. lia. }
      intros Hret. destruct (Hcols Hret) as [Hblocks Hlast]. split.
      { intros i' j Hi' Hj. destruct (decide (i' = i)) as [->|Hne].
        - rewrite Hbefore by lia.
          rewrite list_lookup_inserts
            by (rewrite ?length_map, ?generators_length; lia).
          replace (cg * i + j - cg * i)%nat with j by lia.
          rewrite list_lookup_fmap. unfold generators.
          rewrite list_lookup_fmap, lookup_seq_lt by lia. reflexivity.
        - apply Hblocks; lia. }
      { rewrite Hlast. destruct k as [|k].
        - replace (i + 1 - 1)%nat with i by lia. reflexivity.
        - replace (i + S (S k) - 1)%nat with (i + 1 + S k - 1)%nat by lia.
          reflexivity. }
Qed.

(** *** What the calls leave untouched *)

Lemma computePolytopeProjection_same st v mem :
  same_but_H_h st (self (computePolytopeProjection RowMajor st v mem)).
Proof.
  unfold computePolytopeProjection.
  destruct (dd_DDMatrix2Poly _) as [H_ []]; cbn.
  - destruct (copy_rows _ _ _ _ _) as [H1 h1].
    destruct (complement_rows _ _ _ _ _ _ _ _) as [H2 h2]. cbn.
    repeat split.
  - repeat split.
Qed.

(** After the loop, with the polytope projection: both outcomes of
    [computePolytopeProjection] leave the member in question as it was. *)
Ltac through_projection :=
  cbn zeta;
  match goal with
  | |- context [computePolytopeProjection ?rm ?s ?v ?m] =>
      let Hsame := fresh "Hsame" in
      pose proof (computePolytopeProjection_same s v m) as Hsame;
      destruct (ret (computePolytopeProjection rm s v m));
      unfold same_but_H_h in Hsame; cbn in *; tauto
  end.

Lemma resize_G_centr_length old n mem : length (resize_G_centr old n mem) = n.
Proof.
  unfold resize_G_centr. destruct (length old =? n)%nat eqn:E.
  - apply Nat.eqb_eq in E. exact E.
  - rewrite length_map. apply length_seq.
Qed.

Lemma setNewContacts_unimplemented st pts nrm mu alg mem :
  ~ implemented alg ->
  ret (setNewContacts RowMajor st pts nrm mu alg mem) = false /\
  self (setNewContacts RowMajor st pts nrm mu alg mem) = st /\
  exists text, events (setNewContacts RowMajor st pts nrm mu alg mem)
               = [SEND_ERROR_MSG text].
Proof.
  unfold implemented. intros Hno.
  destruct alg; cbn;
    try (exfalso; apply Hno; split; discriminate);
    repeat split; eexists; reflexivity.
Qed.

Lemma setNewContacts_rejected st pts nrm mu alg mem Gc G :
  implemented alg ->
  loop_exit st pts nrm mu mem = (false, Gc, G) ->
  setNewContacts RowMajor st pts nrm mu alg mem =
    mkResult false tt (with_G_centr (with_algorithm st alg) Gc)
      [SEND_ERROR_MSG "Contact normals should have norm 1, this has norm %f"].
Proof.
  unfold implemented, loop_exit. intros [Hip Hdip] Hloop.
  destruct alg; try congruence; cbn; rewrite Hloop; reflexivity.
Qed.

Lemma setNewContacts_accepted st pts nrm mu alg mem Gc G :
  implemented alg ->
  loop_exit st pts nrm mu mem = (true, Gc, G) ->
  let st1 := with_b0_to_emax_coefficient (with_G_centr (with_algorithm st alg) Gc)
               (V3.norm (V3.cross (sum_columns G) (nth 0 G V3.Zero))) in
  setNewContacts RowMajor st pts nrm mu alg mem =
    match alg with
    | STATIC_EQUILIBRIUM_ALGORITHM_PP =>
        let r := computePolytopeProjection RowMajor st1 Gc mem in
        if ret r
        then mkResult true tt
               (with_HD_Hd (self r) (MXX.mul63 (m_H (self r)) (m_D (self r)))
                                    (MXX.mul6 (m_H (self r)) (m_d (self r))))
               (events r)
        else mkResult false tt (self r) (events r)
    | _ => mkResult true tt st1 []
    end.
Proof.
  unfold implemented, loop_exit. intros [Hip Hdip] Hloop.
  destruct alg; try congruence; cbn; rewrite Hloop; reflexivity.
Qed.

Lemma loop_exit_spec st pts nrm mu mem ok Gc G :
  loop_exit st pts nrm mu mem = (ok, Gc, G) ->
  length Gc = (length pts * m_generatorsPerContact st)%nat /\
  (ok = true <-> forall k, (k < length pts)%nat -> unit_normal (row nrm k)) /\
  (ok = true ->
     (forall i j, (i < length pts)%nat -> (j < m_generatorsPerContact st)%nat ->
        Gc !! (m_generatorsPerContact st * i + j)%nat =
          Some (M63.mulv (contact_A (row pts i))
                  (generator mu (row nrm i)
                     (INR j * 2 * PI / INR (m_generatorsPerContact st))))) /\
     (pts <> [] ->
        G = generators mu (row nrm (length pts - 1)) (m_generatorsPerContact st))).
Proof.
  unfold loop_exit. intros Hloop.
  apply contacts_loop_spec in Hloop as (HlenGc & _ & _ & Hok & Hcols).
  - rewrite resize_G_centr_length in HlenGc. split; [exact HlenGc|].
    split.
    + rewrite Hok. split; intros Hall k Hk; apply Hall; lia.
    + intros Hret. destruct (Hcols Hret) as [Hblocks Hlast]. split.
      * intros i j Hi Hj. apply Hblocks; lia.
      * intros Hne. rewrite Hlast. destruct pts as [|p pts]; [congruence|].
        reflexivity.
  - rewrite length_map. apply length_seq.
  - rewrite resize_G_centr_length. lia.
Qed.

Lemma setNewContacts_G_centr st pts nrm mu alg mem ok Gc G :
  implemented alg ->
  loop_exit st pts nrm mu mem = (ok, Gc, G) ->
  m_G_centr (self (setNewContacts RowMajor st pts nrm mu alg mem)) = Gc.
Proof.
  intros Halg Hloop. destruct ok.
  - rewrite (setNewContacts_accepted _ _ _ _ _ _ _ _ Halg Hloop).
    destruct alg; try reflexivity. through_projection.
  - rewrite (setNewContacts_rejected _ _ _ _ _ _ _ _ Halg Hloop). reflexivity.
Qed.

Lemma setNewContacts_coefficient st pts nrm mu alg mem Gc G :
  implemented alg ->
  loop_exit st pts nrm mu mem = (true, Gc, G) ->
  m_b0_to_emax_coefficient (self (setNewContacts RowMajor st pts nrm mu alg mem))
  = V3.norm (V3.cross (sum_columns G) (nth 0 G V3.Zero)).
Proof.
  intros Halg Hloop.
  rewrite (setNewContacts_accepted _ _ _ _ _ _ _ _ Halg Hloop).
  destruct alg; try reflexivity. through_projection.
Qed.

Lemma setNewContacts_success st pts nrm mu alg mem :
  ret (setNewContacts RowMajor st pts nrm mu alg mem) = true ->
  implemented alg /\ exists Gc G, loop_exit st pts nrm mu mem = (true, Gc, G).
Proof.
  intros Hret.
  assert (implemented alg) as Halg.
  { unfold implemented. destruct alg; cbn in Hret; try discriminate;
      split; discriminate. }
  split; [exact Halg|].
  destruct (loop_exit st pts nrm mu mem) as [[[] Gc] G] eqn:Hloop.
  - eauto.
  - rewrite (setNewContacts_rejected _ _ _ _ _ _ _ _ Halg Hloop) in Hret.
    discriminate.
Qed.

Lemma setNewContacts_returns_true st pts nrm mu alg mem :
  implemented alg ->
  alg <> STATIC_EQUILIBRIUM_ALGORITHM_PP ->
  (forall k, (k < length pts)%nat -> unit_normal (row nrm k)) ->
  ret (setNewContacts RowMajor st pts nrm mu alg mem) = true.
Proof.
  intros Halg Hpp Hall.
  destruct (loop_exit st pts nrm mu mem) as [[ok Gc] G] eqn:Hloop.
  destruct (loop_exit_spec _ _ _ _ _ _ _ _ Hloop) as (_ & Hok & _).
  apply Hok in Hall. subst ok.
  rewrite (setNewContacts_accepted _ _ _ _ _ _ _ _ Halg Hloop).
  destruct alg; try reflexivity. congruence.
Qed.

Lemma scale_minus_one p : V3.scale (-1) p = V3.neg p.
Proof. unfold V3.scale, V3.neg. f_equal; ring. Qed.

Lemma norm_upward : V3.norm (vec3 0 0 1) = 1.
Proof.
  unfold V3.norm, V3.dot. cbn.
  replace (0 * 0 + 0 * 0 + 1 * 1) with 1 by ring. apply sqrt_1.
Qed.

Lemma unit_normal_upward : unit_normal (vec3 0 0 1).
Proof.
  unfold unit_normal. rewrite norm_upward.
  replace (1 - 1) with 0 by ring. rewrite Rabs_R0. lra.
Qed.

Lemma upward_all_unit k :
  (k < length Scenario.upward)%nat -> unit_normal (row Scenario.upward k).
Proof.
  cbn. intros Hk. assert (k = 0%nat) as -> by lia. apply unit_normal_upward.
Qed.

(** *** The queries write nothing but the solver *)

Lemma computeEquilibriumRobustness_same st com robustness :
  same_but_solver st (self (computeEquilibriumRobustness st com robustness)).
Proof.
  unfold same_but_solver, computeEquilibriumRobustness.
  destruct (length (m_G_centr st) =? 0)%nat; [destruct st; reflexivity|].
  destruct (m_algorithm st); try (destruct st; reflexivity);
    destruct (solve _ _) as [[[] sol] s]; destruct st; reflexivity.
Qed.

Lemma checkRobustEquilibrium_self st com equilibrium e_max :
  self (checkRobustEquilibrium st com equilibrium e_max) = st.
Proof.
  unfold checkRobustEquilibrium.
  destruct (length (m_G_centr st) =? 0)%nat; [reflexivity|].
  destruct (Req_dec_T e_max 0); [|reflexivity].
  destruct (m_algorithm st); reflexivity.
Qed.

Lemma findExtremumOverLine_same st a a0 e_max com :
  same_but_solver st (self (findExtremumOverLine st a a0 e_max com)).
Proof.
  unfold same_but_solver, findExtremumOverLine.
  destruct (length (m_G_centr st) =? 0)%nat; [destruct st; reflexivity|].
  destruct (m_algorithm st); try (destruct st; reflexivity);
    destruct (solve _ _) as [[[] sol] s]; cbn;
    try (destruct st; reflexivity).
  destruct (SolverLP_eqb _ _ && Rltb _ _)%bool; destruct st; reflexivity.
Qed.

Lemma findExtremumInDirection_self st direction com e_max :
  self (findExtremumInDirection st direction com e_max) = st.
Proof.
  unfold findExtremumInDirection.
  destruct (length (m_G_centr st) =? 0)%nat; reflexivity.
Qed.

(** The members that no call after the constructor writes. *)
Lemma setNewContacts_constants st pts nrm mu alg mem :
  let st' := self (setNewContacts RowMajor st pts nrm mu alg mem) in
  m_d st' = m_d st /\ m_D st' = m_D st /\
  m_solver_type st' = m_solver_type st /\
  m_generatorsPerContact st' = m_generatorsPerContact st.
Proof.
  cbn zeta.
  destruct (loop_exit st pts nrm mu mem) as [[ok Gc] G] eqn:Hloop.
  assert (implemented alg \/ ~ implemented alg) as [Halg|Halg].
  { unfold implemented. destruct alg;
      solve [left; split; discriminate | right; intros [? ?]; congruence]. }
  - destruct ok.
    + rewrite (setNewContacts_accepted _ _ _ _ _ _ _ _ Halg Hloop).
      destruct alg; try (repeat split; reflexivity). through_projection.
    + rewrite (setNewContacts_rejected _ _ _ _ _ _ _ _ Halg Hloop).
      repeat split; reflexivity.
  - destruct (setNewContacts_unimplemented st pts nrm mu alg mem Halg)
      as (_ & -> & _). repeat split; reflexivity.
Qed.

Lemma call_constants st st' :
  call RowMajor st st' ->
  m_d st' = m_d st /\ m_D st' = m_D st /\
  m_solver_type st' = m_solver_type st /\
  m_generatorsPerContact st' = m_generatorsPerContact st.
Proof.
  intros Hcall. destruct Hcall.
  - apply setNewContacts_constants.
  - rewrite (computeEquilibriumRobustness_same st com robustness).
    repeat split; reflexivity.
  - rewrite checkRobustEquilibrium_self. repeat split; reflexivity.
  - rewrite (findExtremumOverLine_same st a a0 e_max com).
    repeat split; reflexivity.
  - rewrite findExtremumInDirection_self. repeat split; reflexivity.
Qed.

Lemma reachable_constants st0 st :
  reachable_from RowMajor st0 st ->
  m_d st = m_d st0 /\ m_D st = m_D st0 /\
  m_solver_type st = m_solver_type st0 /\
  m_generatorsPerContact st = m_generatorsPerContact st0.
Proof.
  induction 1 as [|st st' _ IH Hcall].
  - repeat split; reflexivity.
  - destruct (call_constants _ _ Hcall) as (-> & -> & -> & ->). exact IH.
Qed.

Lemma implemented_dec alg : implemented alg \/ ~ implemented alg.
Proof.
  unfold implemented. destruct alg;
    solve [left; split; discriminate | right; intros [? ?]; congruence].
Qed.

(** A call that meets a normal of another norm than 1. *)
Lemma setNewContacts_bad_normal st pts nrm mu alg mem k :
  implemented alg ->
  (k < length pts)%nat ->
  Rabs (V3.norm (row nrm k) - 1) > 1e-6 ->
  exists Gc,
    length Gc = (length pts * m_generatorsPerContact st)%nat /\
    setNewContacts RowMajor st pts nrm mu alg mem =
      mkResult false tt (with_G_centr (with_algorithm st alg) Gc)
        [SEND_ERROR_MSG "Contact normals should have norm 1, this has norm %f"].
Proof.
  intros Halg Hk Hbad.
  destruct (loop_exit st pts nrm mu mem) as [[ok Gc] G] eqn:Hloop.
  destruct (loop_exit_spec _ _ _ _ _ _ _ _ Hloop) as (Hlen & Hok & _).
  destruct ok.
  - exfalso. destruct Hok as [Hall _]. apply (Hall eq_refl k Hk). exact Hbad.
  - exists Gc. split; [exact Hlen|].
    apply (setNewContacts_rejected _ _ _ _ _ _ _ _ Halg Hloop).
Qed.

Lemma norm_short : V3.norm (vec3 0 0 0.5) = 0.5.
Proof.
  unfold V3.norm, V3.dot. cbn.
  replace (0 * 0 + 0 * 0 + 0.5 * 0.5) with (0.5 * 0.5) by ring.
  apply sqrt_square. lra.
Qed.

Lemma short_normal_bad :
  Rabs (V3.norm (row Scenario.short_normal 0) - 1) > 1e-6.
Proof.
  unfold Scenario.short_normal, row. cbn [nth].
  rewrite norm_short. unfold Rabs.
  destruct (Rcase_abs (0.5 - 1)); lra.
Qed.

Lemma setNewContacts_algorithm st pts nrm mu alg mem :
  implemented alg ->
  m_algorithm (self (setNewContacts RowMajor st pts nrm mu alg mem)) = alg.
Proof.
  intros Halg.
  destruct (loop_exit st pts nrm mu mem) as [[[] Gc] G] eqn:Hloop.
  - rewrite (setNewContacts_accepted _ _ _ _ _ _ _ _ Halg Hloop).
    destruct alg; try reflexivity. through_projection.
  - rewrite (setNewContacts_rejected _ _ _ _ _ _ _ _ Halg Hloop). reflexivity.
Qed.

(** *** The dual LP branches *)

Lemma nonempty_length {A : Type} (l : list A) : l <> [] -> (length l =? 0)%nat = false.
Proof. destruct l; [congruence|reflexivity]. Qed.

Lemma computeEquilibriumRobustness_DLP st com robustness :
  m_algorithm st = STATIC_EQUILIBRIUM_ALGORITHM_DLP ->
  m_G_centr st <> [] ->
  ret (computeEquilibriumRobustness st com robustness)
  = switch_dual_status (solver_status st (robustness_DLP st com)) /\
  events (computeEquilibriumRobustness st com robustness) !! 0%nat
  = Some (CALL_solve (robustness_DLP st com)).
Proof.
  intros Halg Hne.
  unfold computeEquilibriumRobustness, solver_status.
  rewrite (nonempty_length _ Hne), Halg.
  destruct (solve (m_solver st) (robustness_DLP st com)) as [[[] v] s];
    split; reflexivity.
Qed.

Lemma findExtremumOverLine_DLP st a a0 e_max com :
  m_algorithm st = STATIC_EQUILIBRIUM_ALGORITHM_DLP ->
  m_G_centr st <> [] ->
  let lp := line_DLP st a a0 (convert_emax_to_b0 st e_max) in
  ret (findExtremumOverLine st a a0 e_max com)
  = match solver_status st lp with
    | LP_STATUS_OPTIMAL =>
        if (SolverLP_eqb (m_solver_type st) SOLVER_LP_QPOASES
            && Rltb (solver_objective st lp) (-1e7))%bool
        then LP_STATUS_UNBOUNDED else LP_STATUS_OPTIMAL
    | other => switch_dual_status other
    end /\
  events (findExtremumOverLine st a a0 e_max com) !! 0%nat = Some (CALL_solve lp).
Proof.
  intros Halg Hne lp.
  unfold findExtremumOverLine, solver_status, solver_objective.
  rewrite (nonempty_length _ Hne), Halg. fold lp.
  destruct (solve (m_solver st) lp) as [[[] v] s]; try (split; reflexivity).
  cbn [fst snd with_solver m_solver m_solver_type].
  destruct (SolverLP_eqb _ _ && Rltb _ _)%bool; split; reflexivity.
Qed.

Lemma Rltb_true x y : x < y -> Rltb x y = true.
Proof. intros H. unfold Rltb. destruct (Rlt_dec x y); [reflexivity|contradiction]. Qed.

Lemma Rltb_false x y : ~ x < y -> Rltb x y = false.
Proof. intros H. unfold Rltb. destruct (Rlt_dec x y); [contradiction|reflexivity]. Qed.

Lemma setNewContacts_cols st pts nrm mu alg mem :
  implemented alg ->
  length (m_G_centr (self (setNewContacts RowMajor st pts nrm mu alg mem)))
  = (length pts * m_generatorsPerContact st)%nat.
Proof.
  intros Halg.
  destruct (loop_exit st pts nrm mu mem) as [[ok Gc] G] eqn:Hloop.
  rewrite (setNewContacts_G_centr _ _ _ _ _ _ _ _ _ Halg Hloop).
  apply (loop_exit_spec _ _ _ _ _ _ _ _ Hloop).
Qed.

Lemma setNewContacts_solver st pts nrm mu alg mem :
  m_solver (self (setNewContacts RowMajor st pts nrm mu alg mem)) = m_solver st.
Proof.
  destruct (loop_exit st pts nrm mu mem) as [[ok Gc] G] eqn:Hloop.
  destruct (implemented_dec alg) as [Halg|Halg].
  - destruct ok.
    + rewrite (setNewContacts_accepted _ _ _ _ _ _ _ _ Halg Hloop).
      destruct alg; try reflexivity. through_projection.
    + rewrite (setNewContacts_rejected _ _ _ _ _ _ _ _ Halg Hloop). reflexivity.
  - destruct (setNewContacts_unimplemented st pts nrm mu alg mem Halg)
      as (_ & -> & _). reflexivity.
Qed.

(** *** The membership test *)

Lemma no_positive_row_Forall res :
  no_positive_row res = true <-> Forall (fun x => x <= 0) res.
Proof.
  induction res as [|r res IH]; cbn [no_positive_row].
  - split; [constructor|reflexivity].
  - destruct (Rgt_dec r 0) as [Hpos|Hnon].
    + split; [discriminate|]. intros Hall. inversion Hall; subst. lra.
    + rewrite IH. split.
      * intros Hall. constructor; [lra|exact Hall].
      * intros Hall. inversion Hall; subst. assumption.
Qed.

Lemma setNewContacts_PP_cache st pts nrm mu mem :
  let st' := self (setNewContacts RowMajor st pts nrm mu
                     STATIC_EQUILIBRIUM_ALGORITHM_PP mem) in
  ret (setNewContacts RowMajor st pts nrm mu STATIC_EQUILIBRIUM_ALGORITHM_PP mem) = true ->
  m_HD st' = MXX.mul63 (m_H st') (m_D st') /\
  m_Hd st' = MXX.mul6 (m_H st') (m_d st').
Proof.
  cbn zeta. intros Hret.
  destruct (setNewContacts_success _ _ _ _ _ _ Hret) as (Halg & Gc & G & Hloop).
  rewrite (setNewContacts_accepted _ _ _ _ _ _ _ _ Halg Hloop) in *.
  cbn zeta in *.
  match goal with
  | |- context [computePolytopeProjection RowMajor ?s ?v ?m] =>
      destruct (ret (computePolytopeProjection RowMajor s v m))
  end; [|discriminate Hret].
  split; reflexivity.
Qed.

Lemma checkRobustEquilibrium_PP st com equilibrium :
  m_G_centr st <> [] ->
  m_algorithm st = STATIC_EQUILIBRIUM_ALGORITHM_PP ->
  checkRobustEquilibrium st com equilibrium 0
  = mkResult LP_STATUS_OPTIMAL
      (no_positive_row (VX.add (MX3.mulv (m_HD st) com) (m_Hd st))) st [].
Proof.
  intros Hne Halg. unfold checkRobustEquilibrium.
  rewrite (nonempty_length _ Hne), Halg.
  destruct (Req_dec_T 0 0); [reflexivity|congruence].
Qed.

Lemma checkRobustEquilibrium_error st com equilibrium e_max :
  m_G_centr st <> [] ->
  e_max <> 0 \/ m_algorithm st <> STATIC_EQUILIBRIUM_ALGORITHM_PP ->
  ret (checkRobustEquilibrium st com equilibrium e_max) = LP_STATUS_ERROR /\
  out (checkRobustEquilibrium st com equilibrium e_max) = equilibrium /\
  exists text,
    events (checkRobustEquilibrium st com equilibrium e_max) = [SEND_ERROR_MSG text].
Proof.
  intros Hne Hcase. unfold checkRobustEquilibrium.
  rewrite (nonempty_length _ Hne).
  destruct (Req_dec_T e_max 0) as [Hzero|Hnonzero].
  - destruct Hcase as [Hcase|Hcase]; [contradiction|].
    destruct (m_algorithm st); try congruence;
      repeat split; eexists; reflexivity.
  - repeat split. eexists; reflexivity.
Qed.

Lemma projecting_succeeds b_A st v mem :
  ret (computePolytopeProjection (LPS := LPS)
         (cdd_interface := Scenario.projecting b_A) RowMajor st v mem) = true.
Proof.
  unfold computePolytopeProjection. cbn [dd_DDMatrix2Poly Scenario.projecting].
  destruct (copy_rows _ _ _ _ _) as [H1 h1].
  destruct (complement_rows _ _ _ _ _ _ _ _) as [H2 h2]. reflexivity.
Qed.

(** *** Contacts without friction *)







End EngineFacts.

(** ** The standing robot *)

Section Standing.

Variables (b_A : dd_Matrix) (RowMajor : bool) (status : LP_status)
  (objective : R) (solver_type : SolverLP) (alg : StaticEquilibriumAlgorithm).
Hypothesis Halg : implemented alg.

Local Abbreviation st :=
  (Scenario.standing b_A RowMajor status objective solver_type alg).

Lemma standing_algorithm : m_algorithm st = alg.
Proof. apply setNewContacts_algorithm. exact Halg. Qed.

Lemma standing_nonempty : m_G_centr st <> [].
Proof.
  intros Hempty.
  pose proof (setNewContacts_cols (cdd_interface := Scenario.projecting b_A) RowMajor
                (Scenario.robot status objective solver_type)
                Scenario.origin Scenario.upward 0.5 alg Scenario.zeroed Halg) as Hlen.
  fold st in Hlen. rewrite Hempty in Hlen. discriminate Hlen.
Qed.

Lemma standing_solver_type : m_solver_type st = solver_type.
Proof.
  unfold Scenario.standing.
  destruct (setNewContacts_constants (cdd_interface := Scenario.projecting b_A) RowMajor
              (Scenario.robot status objective solver_type)
              Scenario.origin Scenario.upward 0.5 alg Scenario.zeroed)
    as (_ & _ & -> & _).
  reflexivity.
Qed.

Lemma standing_solver_status lp :
  solver_status (solver_interface := Scenario.answering status objective) st lp = status.
Proof.
  unfold solver_status, Scenario.standing.
  rewrite setNewContacts_solver. reflexivity.
Qed.

Lemma standing_solver_objective lp :
  solver_objective (solver_interface := Scenario.answering status objective) st lp
  = objective.
Proof.
  unfold solver_objective, Scenario.standing.
  rewrite setNewContacts_solver. reflexivity.
Qed.

Lemma standing_projection_succeeds :
  ret (setNewContacts (cdd_interface := Scenario.projecting b_A) RowMajor
         (Scenario.robot status objective solver_type)
         Scenario.origin Scenario.upward 0.5
         STATIC_EQUILIBRIUM_ALGORITHM_PP Scenario.zeroed) = true.
Proof.
  assert (implemented STATIC_EQUILIBRIUM_ALGORITHM_PP) as Hpp by (split; discriminate).
  destruct (loop_exit (Scenario.robot status objective solver_type)
              Scenario.origin Scenario.upward 0.5 Scenario.zeroed)
    as [[ok Gc] G] eqn:Hloop.
  destruct (loop_exit_spec _ _ _ _ _ _ _ _ Hloop) as (_ & Hok & _).
  assert (ok = true) as -> by (apply Hok; apply upward_all_unit).
  rewrite (setNewContacts_accepted (cdd_interface := Scenario.projecting b_A)
             RowMajor _ _ _ _ _ _ _ _ Hpp Hloop).
  cbn zeta. rewrite projecting_succeeds. reflexivity.
Qed.

End Standing.

(** ** The gravity wrench *)

(** C2.  In the engine constructed with any mass, and in every state it
    goes through afterwards, whatever the calls: the top three entries of
    [m_d] are [mass * gravity] with gravity [(0, 0, -9.81)], its other
    three entries are zero, and [m_D] (six rows, three columns) is zero but
    for its bottom 3x3 block, which is the matrix of the cross product with
    [-mass * gravity]: times any [x] it gives [(-mass * gravity) cross x],
    and its rows are [(0, -9.81 mass, 0)], [(9.81 mass, 0, 0)] and
    [(0, 0, 0)]. *)
Theorem gravity_wrench_constants
    {LPS : Type} {solver_interface : Solver_LP_abstract LPS}
    {P : Type} {cdd_interface : CddLib P} (RowMajor : bool)
    (name : string) (mass : R) (generatorsPerContact : nat)
    (solver_type : SolverLP) (useWarmStart : bool)
    (uninit_algorithm : StaticEquilibriumAlgorithm) (uninit_coefficient : R)
    (st : @StaticEquilibrium LPS) :
  reachable_from RowMajor
    (fst (StaticEquilibrium_new name mass generatorsPerContact solver_type
            useWarmStart uninit_algorithm uninit_coefficient)) st ->
  let gravity := vec3 0 0 (-9.81) in
  head3 (m_d st) = V3.scale mass gravity /\
  tail3 (m_d st) = V3.Zero /\
  topRows3 (m_D st) = M3.Zero /\
  (forall x, M3.mulv (bottomRows3 (m_D st)) x
             = V3.cross (V3.neg (V3.scale mass gravity)) x) /\
  bottomRows3 (m_D st) = mat3 (vec3 0 (- (9.81 * mass)) 0)
                              (vec3 (9.81 * mass) 0 0)
                              (vec3 0 0 0).
Proof.
  intros Hreach gravity.
  destruct (reachable_constants RowMajor _ _ Hreach) as (-> & -> & _ & _).
  cbn [fst StaticEquilibrium_new m_d m_D head3 tail3 topRows3 bottomRows3].
  split; [reflexivity|]. split; [reflexivity|]. split; [reflexivity|].
  unfold crossMatrix, M3.mulv, V3.cross, V3.dot, V3.scale, V3.neg, gravity.
  cbn [row0 row1 row2 v0 v1 v2].
  split; [intros x|]; f_equal; try f_equal; lra.
Qed.

Lemma gravity_wrench_constants_witness :
  let st :=
    self (setNewContacts (cdd_interface := Scenario.projecting Scenario.no_rows)
            true (Scenario.robot LP_STATUS_OPTIMAL 0 SOLVER_LP_QPOASES)
            Scenario.origin Scenario.upward 0.5
            STATIC_EQUILIBRIUM_ALGORITHM_DLP Scenario.zeroed) in
  head3 (m_d st) = V3.scale 1 (vec3 0 0 (-9.81)) /\
  tail3 (m_d st) = V3.Zero /\
  topRows3 (m_D st) = M3.Zero /\
  (forall x, M3.mulv (bottomRows3 (m_D st)) x
             = V3.cross (V3.neg (V3.scale 1 (vec3 0 0 (-9.81)))) x) /\
  bottomRows3 (m_D st) = mat3 (vec3 0 (- (9.81 * 1)) 0)
                              (vec3 (9.81 * 1) 0 0)
                              (vec3 0 0 0).
Proof.
  apply (gravity_wrench_constants
           (solver_interface := Scenario.answering LP_STATUS_OPTIMAL 0)
           (cdd_interface := Scenario.projecting Scenario.no_rows)
           true "robot" 1 3 SOLVER_LP_QPOASES false
           STATIC_EQUILIBRIUM_ALGORITHM_LP 0).
  eapply reachable_call; [apply reachable_new|].
  apply (call_setNewContacts (solver_interface := Scenario.answering LP_STATUS_OPTIMAL 0)).
Defined.

(** ** The conversion coefficient *)

(** C8, for a call with at least one contact.  After a successful
    [setNewContacts] whose contact set is not empty,
    [m_b0_to_emax_coefficient] is the norm of [f0 x G.col(0)], where the
    columns of [G] are the [g] generator directions of the last contact and
    [f0] is their sum; no query writes it, whatever the CoM. *)
Theorem b0_to_emax_coefficient_of_last_contact
    {LPS : Type} {solver_interface : Solver_LP_abstract LPS}
    {P : Type} {cdd_interface : CddLib P} (RowMajor : bool)
    (st : @StaticEquilibrium LPS) (contactPoints contactNormals : MatrixX3)
    (mu : R) (alg : StaticEquilibriumAlgorithm) (mem : Uninit) :
  length contactPoints = length contactNormals ->
  contactPoints <> [] ->
  ret (setNewContacts RowMajor st contactPoints contactNormals mu alg mem) = true ->
  let st' := self (setNewContacts RowMajor st contactPoints contactNormals mu alg mem) in
  let last := row contactNormals (length contactPoints - 1) in
  let G := generators mu last (m_generatorsPerContact st) in
  let f0 := sum_columns G in
  m_b0_to_emax_coefficient st' = V3.norm (V3.cross f0 (nth 0 G V3.Zero)) /\
  (forall com robustness,
     m_b0_to_emax_coefficient (self (computeEquilibriumRobustness st' com robustness))
     = m_b0_to_emax_coefficient st') /\
  (forall com equilibrium e_max,
     m_b0_to_emax_coefficient (self (checkRobustEquilibrium st' com equilibrium e_max))
     = m_b0_to_emax_coefficient st') /\
  (forall a a0 e_max com,
     m_b0_to_emax_coefficient (self (findExtremumOverLine st' a a0 e_max com))
     = m_b0_to_emax_coefficient st') /\
  (forall direction com e_max,
     m_b0_to_emax_coefficient (self (findExtremumInDirection st' direction com e_max))
     = m_b0_to_emax_coefficient st').
Proof.
  intros Hrows Hne Hret st' last G f0.
  destruct (setNewContacts_success RowMajor _ _ _ _ _ _ Hret)
    as (Halg & Gc & G' & Hloop).
  split.
  - unfold st'. rewrite (setNewContacts_coefficient RowMajor _ _ _ _ _ _ _ _ Halg Hloop).
    destruct (loop_exit_spec _ _ _ _ _ _ _ _ Hloop) as (_ & _ & Hcols).
    destruct (Hcols eq_refl) as [_ Hlast]. rewrite (Hlast Hne). reflexivity.
  - repeat split; intros.
    + rewrite (computeEquilibriumRobustness_same st' com robustness). reflexivity.
    + rewrite checkRobustEquilibrium_self. reflexivity.
    + rewrite (findExtremumOverLine_same st' a a0 e_max com). reflexivity.
    + rewrite findExtremumInDirection_self. reflexivity.
Qed.

Lemma b0_to_emax_coefficient_of_last_contact_witness :
  let solver := Scenario.answering LP_STATUS_OPTIMAL 0 in
  let st' :=
    self (setNewContacts (cdd_interface := Scenario.projecting Scenario.no_rows)
            true (Scenario.robot LP_STATUS_OPTIMAL 0 SOLVER_LP_QPOASES)
            Scenario.origin Scenario.upward 0.5
            STATIC_EQUILIBRIUM_ALGORITHM_LP Scenario.zeroed) in
  let G := generators 0.5 (vec3 0 0 1) 3 in
  m_b0_to_emax_coefficient st'
    = V3.norm (V3.cross (sum_columns G) (nth 0 G V3.Zero)) /\
  (forall com robustness,
     m_b0_to_emax_coefficient
       (self (computeEquilibriumRobustness (solver_interface := solver) st' com robustness))
     = m_b0_to_emax_coefficient st') /\
  (forall com equilibrium e_max,
     m_b0_to_emax_coefficient (self (checkRobustEquilibrium st' com equilibrium e_max))
     = m_b0_to_emax_coefficient st') /\
  (forall a a0 e_max com,
     m_b0_to_emax_coefficient
       (self (findExtremumOverLine (solver_interface := solver) st' a a0 e_max com))
     = m_b0_to_emax_coefficient st') /\
  (forall direction com e_max,
     m_b0_to_emax_coefficient (self (findExtremumInDirection st' direction com e_max))
     = m_b0_to_emax_coefficient st').
Proof.
  apply (b0_to_emax_coefficient_of_last_contact
           (solver_interface := Scenario.answering LP_STATUS_OPTIMAL 0)
           (cdd_interface := Scenario.projecting Scenario.no_rows)
           true (Scenario.robot LP_STATUS_OPTIMAL 0 SOLVER_LP_QPOASES)
           Scenario.origin Scenario.upward 0.5 STATIC_EQUILIBRIUM_ALGORITHM_LP
           Scenario.zeroed).
  - reflexivity.
  - discriminate.
  - apply setNewContacts_returns_true.
    + split; discriminate.
    + discriminate.
    + apply upward_all_unit.
Defined.

(** C8 as stated fails for a call without contacts: the call succeeds and
    leaves in [m_b0_to_emax_coefficient] what the storage of the local [G]
    held, so that no value determined by the contact set is the coefficient
    of every such call. *)
Lemma b0_to_emax_coefficient_without_contacts :
  let configure mem :=
    setNewContacts (cdd_interface := Scenario.projecting Scenario.no_rows)
      true (Scenario.robot LP_STATUS_OPTIMAL 0 SOLVER_LP_QPOASES)
      [] [] 0.5 STATIC_EQUILIBRIUM_ALGORITHM_LP mem in
  ret (configure Scenario.zeroed) = true /\
  ret (configure Scenario.stale) = true /\
  m_b0_to_emax_coefficient (self (configure Scenario.zeroed)) = 0 /\
  m_b0_to_emax_coefficient (self (configure Scenario.stale)) = 2 /\
  ~ exists coefficient, forall mem,
      ret (configure mem) = true ->
      m_b0_to_emax_coefficient (self (configure mem)) = coefficient.
Proof.
  cbv beta zeta.
  assert (implemented STATIC_EQUILIBRIUM_ALGORITHM_LP) as Halg
    by (split; discriminate).
  assert (forall mem,
            loop_exit (Scenario.robot LP_STATUS_OPTIMAL 0 SOLVER_LP_QPOASES)
              [] [] 0.5 mem
            = (true, [], map (uninit_G mem) (seq 0 3))) as Hloop
    by reflexivity.
  rewrite (setNewContacts_coefficient
             (cdd_interface := Scenario.projecting Scenario.no_rows)
             true _ _ _ _ _ _ _ _ Halg (Hloop Scenario.zeroed)).
  rewrite (setNewContacts_coefficient
             (cdd_interface := Scenario.projecting Scenario.no_rows)
             true _ _ _ _ _ _ _ _ Halg (Hloop Scenario.stale)).
  assert (V3.norm (V3.cross (sum_columns (map (uninit_G Scenario.zeroed) (seq 0 3)))
                     (nth 0 (map (uninit_G Scenario.zeroed) (seq 0 3)) V3.Zero)) = 0)
    as Hzero.
  { unfold V3.norm, V3.dot, V3.cross, sum_columns. cbn.
    match goal with |- sqrt ?e = _ => replace e with 0 by ring end.
    apply sqrt_0. }
  assert (V3.norm (V3.cross (sum_columns (map (uninit_G Scenario.stale) (seq 0 3)))
                     (nth 0 (map (uninit_G Scenario.stale) (seq 0 3)) V3.Zero)) = 2)
    as Hstale.
  { unfold V3.norm, V3.dot, V3.cross, sum_columns. cbn.
    match goal with |- sqrt ?e = _ => replace e with (2 * 2) by ring end.
    apply sqrt_square. lra. }
  split; [reflexivity|]. split; [reflexivity|].
  split; [exact Hzero|]. split; [exact Hstale|].
  intros [k Hk].
  pose proof (Hk Scenario.zeroed eq_refl) as Hk0.
  pose proof (Hk Scenario.stale eq_refl) as Hk2.
  rewrite (setNewContacts_coefficient
             (cdd_interface := Scenario.projecting Scenario.no_rows)
             true _ _ _ _ _ _ _ _ Halg (Hloop Scenario.zeroed)) in Hk0.
  rewrite (setNewContacts_coefficient
             (cdd_interface := Scenario.projecting Scenario.no_rows)
             true _ _ _ _ _ _ _ _ Halg (Hloop Scenario.stale)) in Hk2.
  rewrite Hzero in Hk0. rewrite Hstale in Hk2. lra.
Qed.

(** ** A contact normal that is not a unit vector *)

(** C6, as the code has it.  When some contact normal has a norm that
    differs from 1 by more than 1e-6, [setNewContacts] returns [false] and
    leaves [m_H], [m_h], [m_HD] and [m_Hd] as they were.  With an algorithm
    it accepts, it reports the norm as an error, but [m_algorithm] is then
    the requested algorithm and [m_G_centr] has been resized to [c*g]
    columns; with the algorithms IP and DIP it has left the whole object
    as it was. *)
Theorem setNewContacts_non_unit_normal
    {LPS P : Type} {cdd_interface : CddLib P} (RowMajor : bool)
    (st : @StaticEquilibrium LPS) (contactPoints contactNormals : MatrixX3)
    (mu : R) (alg : StaticEquilibriumAlgorithm) (mem : Uninit) (k : nat) :
  length contactPoints = length contactNormals ->
  (k < length contactNormals)%nat ->
  Rabs (V3.norm (row contactNormals k) - 1) > 1e-6 ->
  let r := setNewContacts RowMajor st contactPoints contactNormals mu alg mem in
  ret r = false /\
  m_H (self r) = m_H st /\ m_h (self r) = m_h st /\
  m_HD (self r) = m_HD st /\ m_Hd (self r) = m_Hd st /\
  (implemented alg ->
     events r = [SEND_ERROR_MSG "Contact normals should have norm 1, this has norm %f"] /\
     m_algorithm (self r) = alg /\
     length (m_G_centr (self r))
       = (length contactPoints * m_generatorsPerContact st)%nat) /\
  (~ implemented alg -> self r = st).
Proof.
  intros Hrows Hk Hbad r. unfold r.
  destruct (implemented_dec alg) as [Halg|Halg].
  - rewrite <- Hrows in Hk.
    destruct (setNewContacts_bad_normal RowMajor st _ _ mu _ mem k Halg Hk Hbad)
      as (Gc & Hlen & ->).
    cbn. repeat split; try reflexivity; try tauto; try (intros _; exact Hlen).
  - destruct (setNewContacts_unimplemented RowMajor st contactPoints contactNormals
                mu alg mem Halg) as (-> & -> & _).
    repeat split; tauto.
Qed.

Lemma setNewContacts_non_unit_normal_witness :
  let st := Scenario.robot LP_STATUS_OPTIMAL 0 SOLVER_LP_QPOASES in
  let r := setNewContacts (cdd_interface := Scenario.projecting Scenario.no_rows)
             true st Scenario.origin Scenario.short_normal 0.5
             STATIC_EQUILIBRIUM_ALGORITHM_DLP Scenario.zeroed in
  ret r = false /\
  m_H (self r) = m_H st /\ m_h (self r) = m_h st /\
  m_HD (self r) = m_HD st /\ m_Hd (self r) = m_Hd st /\
  (implemented STATIC_EQUILIBRIUM_ALGORITHM_DLP ->
     events r = [SEND_ERROR_MSG "Contact normals should have norm 1, this has norm %f"] /\
     m_algorithm (self r) = STATIC_EQUILIBRIUM_ALGORITHM_DLP /\
     length (m_G_centr (self r))
       = (length Scenario.origin * m_generatorsPerContact st)%nat) /\
  (~ implemented STATIC_EQUILIBRIUM_ALGORITHM_DLP -> self r = st).
Proof.
  apply (setNewContacts_non_unit_normal
           (cdd_interface := Scenario.projecting Scenario.no_rows)
           true (Scenario.robot LP_STATUS_OPTIMAL 0 SOLVER_LP_QPOASES)
           Scenario.origin Scenario.short_normal 0.5
           STATIC_EQUILIBRIUM_ALGORITHM_DLP Scenario.zeroed 0).
  - reflexivity.
  - unfold Scenario.short_normal. cbn [length]. lia.
  - apply short_normal_bad.
Defined.

(** C6 as stated fails: an engine configured for the primal LP, then given
    a normal of norm 0.5 together with the dual LP, returns [false] and is
    left with the dual LP as its algorithm. *)
Lemma setNewContacts_non_unit_normal_changes_algorithm :
  let configured :=
    self (setNewContacts (cdd_interface := Scenario.projecting Scenario.no_rows)
            true (Scenario.robot LP_STATUS_OPTIMAL 0 SOLVER_LP_QPOASES)
            Scenario.origin Scenario.upward 0.5
            STATIC_EQUILIBRIUM_ALGORITHM_LP Scenario.zeroed) in
  let r := setNewContacts (cdd_interface := Scenario.projecting Scenario.no_rows)
             true configured Scenario.origin Scenario.short_normal 0.5
             STATIC_EQUILIBRIUM_ALGORITHM_DLP Scenario.zeroed in
  Rabs (V3.norm (row Scenario.short_normal 0) - 1) > 1e-6 /\
  ret r = false /\
  m_algorithm configured = STATIC_EQUILIBRIUM_ALGORITHM_LP /\
  m_algorithm (self r) = STATIC_EQUILIBRIUM_ALGORITHM_DLP /\
  m_algorithm (self r) <> m_algorithm configured.
Proof.
  cbn zeta.
  assert (implemented STATIC_EQUILIBRIUM_ALGORITHM_LP) as Hlp by (split; discriminate).
  assert (implemented STATIC_EQUILIBRIUM_ALGORITHM_DLP) as Hdlp by (split; discriminate).
  split; [apply short_normal_bad|].
  rewrite !(setNewContacts_algorithm
              (cdd_interface := Scenario.projecting Scenario.no_rows)
              true _ _ _ _ _ _ Hdlp).
  rewrite !(setNewContacts_algorithm
              (cdd_interface := Scenario.projecting Scenario.no_rows)
              true _ _ _ _ _ _ Hlp).
  split; [|split; [reflexivity|split; [reflexivity|discriminate]]].
  match goal with
  | |- ret (setNewContacts _ ?s _ _ _ _ _) = false =>
      destruct (setNewContacts_bad_normal
                  (cdd_interface := Scenario.projecting Scenario.no_rows)
                  true s Scenario.origin
                  Scenario.short_normal 0.5 STATIC_EQUILIBRIUM_ALGORITHM_DLP
                  Scenario.zeroed 0 Hdlp) as (Gc & _ & ->)
  end.
  - unfold Scenario.origin. cbn [length]. lia.
  - apply short_normal_bad.
  - reflexivity.
Qed.

(** ** The queries *)

(** C5.  When [m_G_centr] has no column, [computeEquilibriumRobustness],
    [findExtremumOverLine] and [findExtremumInDirection] return
    [LP_STATUS_INFEASIBLE] and [checkRobustEquilibrium] sets [equilibrium]
    to [false]; none of them does anything else: no call of the solver, no
    message, and the object (its solver included) is as before. *)
Theorem queries_without_contacts
    {LPS : Type} {solver_interface : Solver_LP_abstract LPS}
    (st : @StaticEquilibrium LPS) :
  length (m_G_centr st) = 0%nat ->
  (forall com robustness,
     let q := computeEquilibriumRobustness st com robustness in
     ret q = LP_STATUS_INFEASIBLE /\ events q = [] /\ self q = st) /\
  (forall a a0 e_max com,
     let q := findExtremumOverLine st a a0 e_max com in
     ret q = LP_STATUS_INFEASIBLE /\ events q = [] /\ self q = st) /\
  (forall direction com e_max,
     let q := findExtremumInDirection st direction com e_max in
     ret q = LP_STATUS_INFEASIBLE /\ events q = [] /\ self q = st) /\
  (forall com equilibrium e_max,
     let q := checkRobustEquilibrium st com equilibrium e_max in
     out q = false /\ events q = [] /\ self q = st).
Proof.
  intros Hcols.
  unfold computeEquilibriumRobustness, findExtremumOverLine,
    findExtremumInDirection, checkRobustEquilibrium.
  rewrite Hcols. cbn. repeat split; reflexivity.
Qed.

Lemma queries_without_contacts_witness :
  let solver := Scenario.answering LP_STATUS_OPTIMAL 0 in
  let st :=
    self (setNewContacts (cdd_interface := Scenario.projecting Scenario.no_rows)
            true (Scenario.robot LP_STATUS_OPTIMAL 0 SOLVER_LP_QPOASES)
            [] [] 0.5 STATIC_EQUILIBRIUM_ALGORITHM_DLP Scenario.zeroed) in
  (forall com robustness,
     let q := computeEquilibriumRobustness (solver_interface := solver) st com robustness in
     ret q = LP_STATUS_INFEASIBLE /\ events q = [] /\ self q = st) /\
  (forall a a0 e_max com,
     let q := findExtremumOverLine (solver_interface := solver) st a a0 e_max com in
     ret q = LP_STATUS_INFEASIBLE /\ events q = [] /\ self q = st) /\
  (forall direction com e_max,
     let q := findExtremumInDirection st direction com e_max in
     ret q = LP_STATUS_INFEASIBLE /\ events q = [] /\ self q = st) /\
  (forall com equilibrium e_max,
     let q := checkRobustEquilibrium st com equilibrium e_max in
     out q = false /\ events q = [] /\ self q = st).
Proof.
  apply (queries_without_contacts (solver_interface := Scenario.answering LP_STATUS_OPTIMAL 0)).
  reflexivity.
Defined.

(** C3, as the code has it.  With the dual LP and at least one generator:
    [computeEquilibriumRobustness] returns the status of the solver with
    [INFEASIBLE] and [UNBOUNDED] exchanged, [OPTIMAL] and [ERROR] as they
    are; [findExtremumOverLine] does the same with a status that is not
    [OPTIMAL], and returns [OPTIMAL] for [OPTIMAL] unless the solver is
    QPOASES and the objective value is below -1e7, in which case it
    returns [UNBOUNDED]. *)
Theorem dual_status_switched
    {LPS : Type} {solver_interface : Solver_LP_abstract LPS}
    (st : @StaticEquilibrium LPS) (com a a0 com0 : Vector3) (robustness e_max : R) :
  m_algorithm st = STATIC_EQUILIBRIUM_ALGORITHM_DLP ->
  m_G_centr st <> [] ->
  let robustness_status := solver_status st (robustness_DLP st com) in
  let line_lp := line_DLP st a a0 (convert_emax_to_b0 st e_max) in
  let line_status := solver_status st line_lp in
  (switch_dual_status LP_STATUS_OPTIMAL = LP_STATUS_OPTIMAL /\
   switch_dual_status LP_STATUS_INFEASIBLE = LP_STATUS_UNBOUNDED /\
   switch_dual_status LP_STATUS_UNBOUNDED = LP_STATUS_INFEASIBLE /\
   switch_dual_status LP_STATUS_ERROR = LP_STATUS_ERROR) /\
  ret (computeEquilibriumRobustness st com robustness)
    = switch_dual_status robustness_status /\
  (line_status <> LP_STATUS_OPTIMAL ->
   ret (findExtremumOverLine st a a0 e_max com0) = switch_dual_status line_status) /\
  (line_status = LP_STATUS_OPTIMAL ->
   ~ (m_solver_type st = SOLVER_LP_QPOASES /\ solver_objective st line_lp < -1e7) ->
   ret (findExtremumOverLine st a a0 e_max com0) = LP_STATUS_OPTIMAL) /\
  (line_status = LP_STATUS_OPTIMAL ->
   m_solver_type st = SOLVER_LP_QPOASES ->
   solver_objective st line_lp < -1e7 ->
   ret (findExtremumOverLine st a a0 e_max com0) = LP_STATUS_UNBOUNDED).
Proof.
  intros Halg Hne robustness_status line_lp line_status.
  split; [repeat split; reflexivity|].
  split; [apply computeEquilibriumRobustness_DLP; assumption|].
  destruct (findExtremumOverLine_DLP st a a0 e_max com0 Halg Hne) as [Hret _].
  fold line_lp line_status in Hret. rewrite Hret. split; [|split].
  - intros Hstatus. destruct line_status; [congruence|reflexivity..].
  - intros -> Hno.
    destruct (m_solver_type st); [|reflexivity].
    rewrite Rltb_false; [reflexivity|]. intros Hlt. apply Hno. split; [reflexivity|exact Hlt].
  - intros -> -> Hlt. rewrite Rltb_true by exact Hlt. reflexivity.
Qed.

Lemma dual_status_switched_witness :
  let solver := Scenario.answering LP_STATUS_INFEASIBLE 0 in
  let st := Scenario.standing Scenario.no_rows true LP_STATUS_INFEASIBLE 0
              SOLVER_LP_QPOASES STATIC_EQUILIBRIUM_ALGORITHM_DLP in
  let com := vec3 0 0 0.5 in
  let a := vec3 1 0 0 in
  let robustness_status :=
    solver_status (solver_interface := solver) st (robustness_DLP st com) in
  let line_lp := line_DLP st a com (convert_emax_to_b0 st 0) in
  let line_status := solver_status (solver_interface := solver) st line_lp in
  (switch_dual_status LP_STATUS_OPTIMAL = LP_STATUS_OPTIMAL /\
   switch_dual_status LP_STATUS_INFEASIBLE = LP_STATUS_UNBOUNDED /\
   switch_dual_status LP_STATUS_UNBOUNDED = LP_STATUS_INFEASIBLE /\
   switch_dual_status LP_STATUS_ERROR = LP_STATUS_ERROR) /\
  ret (computeEquilibriumRobustness (solver_interface := solver) st com 0)
    = switch_dual_status robustness_status /\
  (line_status <> LP_STATUS_OPTIMAL ->
   ret (findExtremumOverLine (solver_interface := solver) st a com 0 com)
   = switch_dual_status line_status) /\
  (line_status = LP_STATUS_OPTIMAL ->
   ~ (m_solver_type st = SOLVER_LP_QPOASES
      /\ solver_objective (solver_interface := solver) st line_lp < -1e7) ->
   ret (findExtremumOverLine (solver_interface := solver) st a com 0 com)
   = LP_STATUS_OPTIMAL) /\
  (line_status = LP_STATUS_OPTIMAL ->
   m_solver_type st = SOLVER_LP_QPOASES ->
   solver_objective (solver_interface := solver) st line_lp < -1e7 ->
   ret (findExtremumOverLine (solver_interface := solver) st a com 0 com)
   = LP_STATUS_UNBOUNDED).
Proof.
  apply (dual_status_switched (solver_interface := Scenario.answering LP_STATUS_INFEASIBLE 0)).
  - apply standing_algorithm. split; discriminate.
  - apply standing_nonempty. split; discriminate.
Defined.

(** C3 as stated fails in [findExtremumOverLine]: with the solver QPOASES
    reporting [OPTIMAL] with objective value -1e8, the dual LP branch
    returns [UNBOUNDED], not the [OPTIMAL] of the solver. *)
Lemma dual_optimal_not_returned :
  let solver := Scenario.answering LP_STATUS_OPTIMAL (-1e8) in
  let st := Scenario.standing Scenario.no_rows true LP_STATUS_OPTIMAL (-1e8)
              SOLVER_LP_QPOASES STATIC_EQUILIBRIUM_ALGORITHM_DLP in
  let com := vec3 0 0 0.5 in
  let a := vec3 1 0 0 in
  m_algorithm st = STATIC_EQUILIBRIUM_ALGORITHM_DLP /\
  m_G_centr st <> [] /\
  solver_status (solver_interface := solver) st
    (line_DLP st a com (convert_emax_to_b0 st 0)) = LP_STATUS_OPTIMAL /\
  ret (findExtremumOverLine (solver_interface := solver) st a com 0 com)
    = LP_STATUS_UNBOUNDED /\
  ret (findExtremumOverLine (solver_interface := solver) st a com 0 com)
    <> LP_STATUS_OPTIMAL.
Proof.
  cbn zeta.
  assert (implemented STATIC_EQUILIBRIUM_ALGORITHM_DLP) as Halg by (split; discriminate).
  pose proof (standing_algorithm Scenario.no_rows true LP_STATUS_OPTIMAL (-1e8)
                SOLVER_LP_QPOASES _ Halg) as Hdlp.
  pose proof (standing_nonempty Scenario.no_rows true LP_STATUS_OPTIMAL (-1e8)
                SOLVER_LP_QPOASES _ Halg) as Hne.
  split; [exact Hdlp|]. split; [exact Hne|].
  split; [apply standing_solver_status|].
  destruct (findExtremumOverLine_DLP
              (solver_interface := Scenario.answering LP_STATUS_OPTIMAL (-1e8))
              _ (vec3 1 0 0) (vec3 0 0 0.5) 0 (vec3 0 0 0.5) Hdlp Hne) as [-> _].
  rewrite standing_solver_status, standing_solver_objective, standing_solver_type.
  rewrite Rltb_true by lra. split; [reflexivity|discriminate].
Qed.

(** C9.  In [findExtremumOverLine] with the dual LP and at least one
    generator, when the solver is QPOASES (which does not detect
    unboundedness) and reports [OPTIMAL] with an objective value below
    -1e7, the status returned is [UNBOUNDED]. *)
Theorem large_negative_objective_is_unbounded
    {LPS : Type} {solver_interface : Solver_LP_abstract LPS}
    (st : @StaticEquilibrium LPS) (a a0 com : Vector3) (e_max : R) :
  m_algorithm st = STATIC_EQUILIBRIUM_ALGORITHM_DLP ->
  m_G_centr st <> [] ->
  m_solver_type st = SOLVER_LP_QPOASES ->
  let lp := line_DLP st a a0 (convert_emax_to_b0 st e_max) in
  solver_status st lp = LP_STATUS_OPTIMAL ->
  solver_objective st lp < -1e7 ->
  ret (findExtremumOverLine st a a0 e_max com) = LP_STATUS_UNBOUNDED /\
  events (findExtremumOverLine st a a0 e_max com) !! 0%nat = Some (CALL_solve lp).
Proof.
  intros Halg Hne Hqp lp Hopt Hlarge.
  destruct (findExtremumOverLine_DLP st a a0 e_max com Halg Hne) as [Hret Hcall].
  fold lp in Hret, Hcall. split; [|exact Hcall].
  rewrite Hret, Hopt, Hqp, Rltb_true by exact Hlarge. reflexivity.
Qed.

Lemma large_negative_objective_is_unbounded_witness :
  let solver := Scenario.answering LP_STATUS_OPTIMAL (-1e8) in
  let st := Scenario.standing Scenario.no_rows true LP_STATUS_OPTIMAL (-1e8)
              SOLVER_LP_QPOASES STATIC_EQUILIBRIUM_ALGORITHM_DLP in
  let com := vec3 0 0 0.5 in
  let a := vec3 1 0 0 in
  ret (findExtremumOverLine (solver_interface := solver) st a com 0 com)
    = LP_STATUS_UNBOUNDED /\
  events (findExtremumOverLine (solver_interface := solver) st a com 0 com) !! 0%nat
    = Some (CALL_solve (line_DLP st a com (convert_emax_to_b0 st 0))).
Proof.
  apply (large_negative_objective_is_unbounded
           (solver_interface := Scenario.answering LP_STATUS_OPTIMAL (-1e8))).
  - apply standing_algorithm. split; discriminate.
  - apply standing_nonempty. split; discriminate.
  - apply standing_solver_type.
  - apply standing_solver_status.
  - rewrite standing_solver_objective. lra.
Defined.

(** C4.  After a successful [setNewContacts] with the polytope projection
    that left at least one generator, [checkRobustEquilibrium] with
    [e_max = 0] returns [OPTIMAL] and sets [equilibrium] to [true] exactly
    when every row of [(H*D)*com + H*d] is at most 0.  On any engine with
    at least one generator, a nonzero [e_max], or an algorithm other than
    the polytope projection, makes it return [LP_STATUS_ERROR], with an
    error message and [equilibrium] as it was. *)
Theorem checkRobustEquilibrium_membership
    {LPS P : Type} {cdd_interface : CddLib P} (RowMajor : bool)
    (st : @StaticEquilibrium LPS) (contactPoints contactNormals : MatrixX3)
    (mu : R) (mem : Uninit) (com : Vector3) (equilibrium : bool) :
  let r := setNewContacts RowMajor st contactPoints contactNormals mu
             STATIC_EQUILIBRIUM_ALGORITHM_PP mem in
  ret r = true ->
  m_G_centr (self r) <> [] ->
  let st' := self r in
  let res := VX.add (MX3.mulv (MXX.mul63 (m_H st') (m_D st')) com)
                    (MXX.mul6 (m_H st') (m_d st')) in
  ret (checkRobustEquilibrium st' com equilibrium 0) = LP_STATUS_OPTIMAL /\
  (out (checkRobustEquilibrium st' com equilibrium 0) = true
   <-> Forall (fun x => x <= 0) res) /\
  (forall (other : @StaticEquilibrium LPS) (e_max : R),
     m_G_centr other <> [] ->
     e_max <> 0 \/ m_algorithm other <> STATIC_EQUILIBRIUM_ALGORITHM_PP ->
     ret (checkRobustEquilibrium other com equilibrium e_max) = LP_STATUS_ERROR /\
     out (checkRobustEquilibrium other com equilibrium e_max) = equilibrium /\
     exists text,
       events (checkRobustEquilibrium other com equilibrium e_max)
       = [SEND_ERROR_MSG text]).
Proof.
  intros r Hret Hne st' res.
  assert (implemented STATIC_EQUILIBRIUM_ALGORITHM_PP) as Hpp by (split; discriminate).
  pose proof (setNewContacts_algorithm RowMajor st contactPoints contactNormals
                mu _ mem Hpp) as Halg.
  destruct (setNewContacts_PP_cache RowMajor st contactPoints contactNormals mu mem Hret)
    as [HHD HHd].
  fold r in Halg, HHD, HHd. fold st' in Halg, HHD, HHd, Hne.
  rewrite (checkRobustEquilibrium_PP st' com equilibrium Hne Halg).
  cbn [ret out]. rewrite HHD, HHd. fold res.
  split; [reflexivity|]. split; [apply no_positive_row_Forall|].
  intros other e_max. apply checkRobustEquilibrium_error.
Qed.

Lemma checkRobustEquilibrium_membership_witness :
  let st' := Scenario.standing Scenario.two_rows false LP_STATUS_OPTIMAL 0
               SOLVER_LP_QPOASES STATIC_EQUILIBRIUM_ALGORITHM_PP in
  let com := vec3 0 0 0.5 in
  let res := VX.add (MX3.mulv (MXX.mul63 (m_H st') (m_D st')) com)
                    (MXX.mul6 (m_H st') (m_d st')) in
  ret (checkRobustEquilibrium st' com false 0) = LP_STATUS_OPTIMAL /\
  (out (checkRobustEquilibrium st' com false 0) = true
   <-> Forall (fun x => x <= 0) res) /\
  (forall (other : @StaticEquilibrium (LP_status * R)) (e_max : R),
     m_G_centr other <> [] ->
     e_max <> 0 \/ m_algorithm other <> STATIC_EQUILIBRIUM_ALGORITHM_PP ->
     ret (checkRobustEquilibrium other com false e_max) = LP_STATUS_ERROR /\
     out (checkRobustEquilibrium other com false e_max) = false /\
     exists text,
       events (checkRobustEquilibrium other com false e_max) = [SEND_ERROR_MSG text]).
Proof.
  apply (checkRobustEquilibrium_membership
           (cdd_interface := Scenario.projecting Scenario.two_rows) false
           (Scenario.robot LP_STATUS_OPTIMAL 0 SOLVER_LP_QPOASES)
           Scenario.origin Scenario.upward 0.5 Scenario.zeroed
           (vec3 0 0 0.5) false).
  - apply standing_projection_succeeds.
  - apply (standing_nonempty Scenario.two_rows false LP_STATUS_OPTIMAL 0
             SOLVER_LP_QPOASES STATIC_EQUILIBRIUM_ALGORITHM_PP).
    split; discriminate.
Defined.

(** ** The half-space representation *)

(** C7, at an answer of cddlib with two inequality rows of which the first
    is flagged as an equality: three rows are stored, but the row appended
    for the equality is not the negation of the stored row.  The loop over
    the equality rows reads and writes [m_H] with one index, which is one
    coefficient, at the number of the row in cddlib's numbering from 1.
    With a row-major [MatrixXX] it overwrites coefficient 2 of row 0 with
    the negation of coefficient 1, and the appended row holds what the
    storage held; with a column-major one the appended row gets in its
    first column the negation of the first coefficient of row 1, and the
    rest of it holds what the storage held. *)
Theorem computePolytopeProjection_equality_row
    (RowMajor : bool) (mem : Uninit) (v : Matrix6X) :
  let r := computePolytopeProjection
             (cdd_interface := Scenario.projecting Scenario.two_rows) RowMajor
             (Scenario.robot LP_STATUS_OPTIMAL 0 SOLVER_LP_QPOASES) v mem in
  let stale_row := map (uninit_H mem 2) (seq 0 6) in
  ret r = true /\
  equality_rows Scenario.two_rows = [1%nat] /\
  m_h (self r) = [0; 0; - 0] /\
  m_H (self r)
  = (if RowMajor
     then [[-1; -2; 2; -4; -5; -6]; [-7; -8; -9; -10; -11; -12]; stale_row]
     else [[-1; -2; -3; -4; -5; -6]; [-7; -8; -9; -10; -11; -12];
           <[0%nat := 7]> stale_row]) /\
  ~ (m_H (self r) !! 0%nat = Some [-1; -2; -3; -4; -5; -6] /\
     m_H (self r) !! 2%nat = Some [1; 2; 3; 4; 5; 6]).
Proof.
  cbn zeta. destruct RowMajor; cbv -[IZR Ropp uninit_H uninit_h Rle Rlt].
  - split; [reflexivity|]. split; [reflexivity|]. split; [reflexivity|].
    split.
    + repeat f_equal; lra.
    + intros [Hrow0 _]. injection Hrow0. intros. lra.
  - split; [reflexivity|]. split; [reflexivity|]. split; [reflexivity|].
    split.
    + repeat f_equal; lra.
    + intros [_ Hrow2]. injection Hrow2. intros. lra.
Qed.

(** ** The two conversions *)



(** ** Vector algebra behind the generators *)

Lemma dot_nonneg a : 0 <= V3.dot a a.
Proof. unfold V3.dot. nra. Qed.

Lemma norm_sqr a : V3.norm a * V3.norm a = V3.dot a a.
Proof. unfold V3.norm. apply sqrt_sqrt, dot_nonneg. Qed.

Lemma norm_nonneg a : 0 <= V3.norm a.
Proof. unfold V3.norm. apply sqrt_pos. Qed.

Lemma dot_sym a b : V3.dot a b = V3.dot b a.
Proof. unfold V3.dot. ring. Qed.

Lemma dot_normalize_r a b : V3.dot a (V3.normalize b) = V3.dot a b / V3.norm b.
Proof. unfold V3.dot, V3.normalize. cbn [v0 v1 v2]. unfold Rdiv. ring. Qed.

Lemma dot_normalize_l a b : V3.dot (V3.normalize a) b = V3.dot a b / V3.norm a.
Proof. rewrite dot_sym, dot_normalize_r, dot_sym. reflexivity. Qed.

Lemma dot_cross_l a b : V3.dot a (V3.cross a b) = 0.
Proof. unfold V3.dot, V3.cross. cbn [v0 v1 v2]. ring. Qed.

Lemma dot_cross_r a b : V3.dot b (V3.cross a b) = 0.
Proof. unfold V3.dot, V3.cross. cbn [v0 v1 v2]. ring. Qed.

(** Lagrange's identity. *)
Lemma cross_norm_sqr a b :
  V3.dot (V3.cross a b) (V3.cross a b)
  = V3.dot a a * V3.dot b b - V3.dot a b * V3.dot a b.
Proof. unfold V3.dot, V3.cross. cbn [v0 v1 v2]. ring. Qed.

Lemma norm_pos_dot a : 0 < V3.norm a -> 0 < V3.dot a a.
Proof.
  intros Hpos. rewrite <- norm_sqr. apply Rmult_lt_0_compat; exact Hpos.
Qed.

Lemma norm_normalize a : 0 < V3.dot a a -> V3.norm (V3.normalize a) = 1.
Proof.
  intros Hpos.
  assert (0 < V3.norm a) as Hnorm.
  { unfold V3.norm. apply sqrt_lt_R0. exact Hpos. }
  unfold V3.norm at 1.
  replace (V3.dot (V3.normalize a) (V3.normalize a)) with 1; [apply sqrt_1|].
  rewrite dot_normalize_l, dot_normalize_r, <- norm_sqr.
  field. lra.
Qed.

Lemma dot_combination a b u v n x :
  V3.dot (V3.add (V3.add (V3.scale a u) (V3.scale b v)) n) x
  = a * V3.dot u x + b * V3.dot v x + V3.dot n x.
Proof. unfold V3.dot, V3.add, V3.scale. cbn [v0 v1 v2]. ring. Qed.

(** *** The tangent directions *)

Lemma tangent_T1_raw_orthogonal n : V3.dot n (tangent_T1_raw n) = 0.
Proof.
  unfold tangent_T1_raw. destruct (Rlt_dec _ _); apply dot_cross_l.
Qed.

Lemma unit_normal_dot n : unit_normal n -> 0.99 < V3.dot n n.
Proof.
  unfold unit_normal. intros Hunit.
  assert (0.999 <= V3.norm n) as Hnorm.
  { destruct (Rle_lt_dec 0.999 (V3.norm n)) as [Hle|Hlt]; [exact Hle|].
    exfalso. apply Hunit. unfold Rabs.
    destruct (Rcase_abs (V3.norm n - 1)); lra. }
  rewrite <- norm_sqr. nra.
Qed.

Lemma tangent_T1_raw_nonzero n : unit_normal n -> 0 < V3.dot (tangent_T1_raw n) (tangent_T1_raw n).
Proof.
  intros Hunit. apply unit_normal_dot in Hunit.
  unfold tangent_T1_raw.
  destruct (Rlt_dec (V3.norm (V3.cross n V3.UnitY)) 1e-5) as [Hsmall|Hlarge].
  - assert (V3.dot (V3.cross n V3.UnitY) (V3.cross n V3.UnitY) < 0.01) as Hsq.
    { rewrite <- norm_sqr.
      pose proof (norm_nonneg (V3.cross n V3.UnitY)). nra. }
    destruct n as [x y z].
    unfold V3.dot, V3.cross, V3.UnitX, V3.UnitY in *. cbn [v0 v1 v2] in *. nra.
  - apply norm_pos_dot. lra.
Qed.

Lemma tangent_T2_raw_nonzero n :
  unit_normal n ->
  0 < V3.dot (V3.cross n (tangent_T1_raw n)) (V3.cross n (tangent_T1_raw n)).
Proof.
  intros Hunit. rewrite cross_norm_sqr, tangent_T1_raw_orthogonal.
  pose proof (tangent_T1_raw_nonzero n Hunit).
  apply unit_normal_dot in Hunit. nra.
Qed.

Lemma normal_dot_T1 n : V3.dot n (tangent_T1 n) = 0.
Proof.
  unfold tangent_T1. rewrite dot_normalize_r, tangent_T1_raw_orthogonal.
  unfold Rdiv. ring.
Qed.

Lemma normal_dot_T2 n : V3.dot n (tangent_T2 n) = 0.
Proof.
  unfold tangent_T2. rewrite dot_normalize_r, dot_cross_l. unfold Rdiv. ring.
Qed.

Lemma T1_dot_T2 n : V3.dot (tangent_T1 n) (tangent_T2 n) = 0.
Proof.
  unfold tangent_T1, tangent_T2.
  rewrite dot_normalize_r, dot_normalize_l, dot_cross_r. unfold Rdiv. ring.
Qed.

Lemma norm_T1 n : unit_normal n -> V3.norm (tangent_T1 n) = 1.
Proof.
  intros Hunit. apply norm_normalize, tangent_T1_raw_nonzero. exact Hunit.
Qed.

Lemma norm_T2 n : unit_normal n -> V3.norm (tangent_T2 n) = 1.
Proof.
  intros Hunit. apply norm_normalize, tangent_T2_raw_nonzero. exact Hunit.
Qed.

(** X1.  Whatever the normal, the two tangent directions that
    [setNewContacts] computes are orthogonal to the normal and to each
    other. *)
Theorem tangents_orthogonal (n : Vector3) :
  V3.dot n (tangent_T1 n) = 0 /\
  V3.dot n (tangent_T2 n) = 0 /\
  V3.dot (tangent_T1 n) (tangent_T2 n) = 0.
Proof.
  split; [apply normal_dot_T1|].
  split; [apply normal_dot_T2|apply T1_dot_T2].
Qed.

(** X2.  For a normal that passes the norm test of [setNewContacts], the
    two tangent directions are unit vectors: neither normalization divides
    by zero, also when the normal is along the Y axis and the X axis is
    used instead. *)
Theorem tangents_unit (n : Vector3) :
  unit_normal n ->
  V3.norm (tangent_T1 n) = 1 /\ V3.norm (tangent_T2 n) = 1.
Proof.
  intros Hunit. split; [apply norm_T1|apply norm_T2]; exact Hunit.
Qed.

Lemma tangents_unit_witness :
  V3.norm (tangent_T1 (vec3 0 0 1)) = 1 /\ V3.norm (tangent_T2 (vec3 0 0 1)) = 1.
Proof. apply tangents_unit. apply unit_normal_upward. Defined.

(** *** The generators *)

(** The vector that [generator] normalizes. *)
Lemma generator_direction mu n theta :
  generator mu n theta
  = V3.normalize
      (V3.add (V3.add (V3.scale (mu * sin theta) (tangent_T1 n))
                      (V3.scale (mu * cos theta) (tangent_T2 n))) n).
Proof. reflexivity. Qed.

Lemma generator_direction_nonzero mu n theta :
  0 < V3.dot n n ->
  let w := V3.add (V3.add (V3.scale (mu * sin theta) (tangent_T1 n))
                          (V3.scale (mu * cos theta) (tangent_T2 n))) n in
  V3.dot w n = V3.dot n n /\ 0 < V3.dot w w.
Proof.
  intros Hn w.
  pose proof (normal_dot_T1 n) as H1.
  pose proof (normal_dot_T2 n) as H2.
  assert (V3.dot w n = V3.dot n n) as Hwn.
  { unfold w. rewrite dot_combination.
    rewrite (dot_sym (tangent_T1 n)), (dot_sym (tangent_T2 n)), H1, H2. ring. }
  split; [exact Hwn|].
  pose proof (cross_norm_sqr w n) as Hlagrange.
  pose proof (dot_nonneg (V3.cross w n)) as Hcross.
  pose proof (dot_nonneg w) as Hw.
  rewrite Hlagrange, Hwn in Hcross. nra.
Qed.

(** X3.  For a normal that is not the zero vector, every generator
    direction is a unit vector, whatever the friction coefficient and the
    angle. *)
Theorem generator_unit (mu : R) (n : Vector3) (theta : R) :
  0 < V3.dot n n ->
  V3.norm (generator mu n theta) = 1.
Proof.
  intros Hn. rewrite generator_direction. apply norm_normalize.
  apply (generator_direction_nonzero mu n theta Hn).
Qed.

Lemma generator_unit_witness :
  V3.norm (generator 0.5 (vec3 0 0 1) (2 * PI / 3)) = 1.
Proof.
  apply generator_unit. unfold V3.dot. cbn [v0 v1 v2]. lra.
Defined.

(** X4.  For a normal [n] that passes the norm test, every generator [f]
    lies on the boundary of the friction cone of coefficient [mu]: the
    square of its tangential part, [(f.T1)^2 + (f.T2)^2], is [mu^2] times
    the square of its part along the normal, [(f.n)^2 / (n.n)^2]. *)
Theorem generator_on_friction_cone (mu : R) (n : Vector3) (theta : R) :
  unit_normal n ->
  let f := generator mu n theta in
  ((V3.dot f (tangent_T1 n)) ^ 2 + (V3.dot f (tangent_T2 n)) ^ 2) * (V3.dot n n) ^ 2
  = mu ^ 2 * (V3.dot f n) ^ 2.
Proof.
  intros Hunit f. unfold f. rewrite generator_direction.
  set (w := V3.add _ n).
  pose proof (normal_dot_T1 n) as Hn1.
  pose proof (normal_dot_T2 n) as Hn2.
  pose proof (T1_dot_T2 n) as H12.
  pose proof (norm_T1 n Hunit) as Hu1.
  pose proof (norm_T2 n Hunit) as Hu2.
  assert (V3.dot (tangent_T1 n) (tangent_T1 n) = 1) as H11
    by (rewrite <- norm_sqr, Hu1; ring).
  assert (V3.dot (tangent_T2 n) (tangent_T2 n) = 1) as H22
    by (rewrite <- norm_sqr, Hu2; ring).
  pose proof (unit_normal_dot n Hunit) as Hn.
  assert (0 < V3.dot n n) as Hpos by lra.
  destruct (generator_direction_nonzero mu n theta Hpos) as (Hwn & Hww).
  fold w in Hwn, Hww.
  assert (0 < V3.norm w) as Hnorm
    by (unfold V3.norm; apply sqrt_lt_R0; exact Hww).
  assert (V3.dot w (tangent_T1 n) = mu * sin theta) as Hw1.
  { unfold w. rewrite dot_combination, H11, Hn1,
      (dot_sym (tangent_T2 n) (tangent_T1 n)), H12. ring. }
  assert (V3.dot w (tangent_T2 n) = mu * cos theta) as Hw2.
  { unfold w. rewrite dot_combination, H22, Hn2, H12. ring. }
  assert (sin theta ^ 2 + cos theta ^ 2 = 1) as Htrig
    by (rewrite <- (sin2_cos2 theta); unfold Rsqr; ring).
  rewrite !dot_normalize_l, Hwn, Hw1, Hw2.
  replace ((mu * sin theta / V3.norm w) ^ 2 + (mu * cos theta / V3.norm w) ^ 2)
    with (mu ^ 2 * (sin theta ^ 2 + cos theta ^ 2) / V3.norm w ^ 2)
    by (field; lra).
  rewrite Htrig. field. lra.
Qed.

Lemma generator_on_friction_cone_witness :
  let n := vec3 0 0 1 in
  let f := generator 0.5 n (2 * PI / 3) in
  ((V3.dot f (tangent_T1 n)) ^ 2 + (V3.dot f (tangent_T2 n)) ^ 2) * (V3.dot n n) ^ 2
  = 0.5 ^ 2 * (V3.dot f n) ^ 2.
Proof. apply generator_on_friction_cone. apply unit_normal_upward. Defined.

(** ** The cross-product matrix and the wrenches *)

(** X5.  [crossMatrix(x)] is the matrix of the cross product with [x]:
    times [y] it gives [x cross y], so times [x] it gives zero, and it is
    the negation of its transpose. *)
Theorem crossMatrix_is_cross_product (x y : Vector3) :
  M3.mulv (crossMatrix x) y = V3.cross x y /\
  M3.mulv (crossMatrix x) x = V3.Zero /\
  M3.transpose (crossMatrix x) = M3.neg (crossMatrix x).
Proof.
  unfold crossMatrix, M3.mulv, M3.transpose, M3.neg, V3.cross, V3.dot, V3.neg, V3.Zero.
  cbn [row0 row1 row2 v0 v1 v2].
  split; [|split]; repeat f_equal; ring.
Qed.

Lemma norm_neg f : V3.norm (V3.neg f) = V3.norm f.
Proof.
  unfold V3.norm. f_equal. unfold V3.dot, V3.neg. cbn [v0 v1 v2]. ring.
Qed.

Lemma contact_A_wrench p f :
  M63.mulv (contact_A p) f = vec6 (V3.neg f) (V3.cross p (V3.neg f)).
Proof.
  unfold contact_A, M63.mulv, M3.mulv, M3.neg, M3.Identity, crossMatrix,
    V3.neg, V3.cross, V3.dot, V3.scale.
  cbn [topRows3 bottomRows3 row0 row1 row2 v0 v1 v2].
  repeat f_equal; ring.
Qed.

(** X6.  After [setNewContacts] with an accepted algorithm and normals that
    pass the norm test, every column of [m_G_centr] is the wrench of a unit
    force applied at its contact point: the top three rows are a vector of
    norm 1 and the bottom three rows are the cross product of the contact
    point with it. *)
Theorem generator_columns_are_wrenches
    {LPS P : Type} {cdd_interface : CddLib P} (RowMajor : bool)
    (st : @StaticEquilibrium LPS) (contactPoints contactNormals : MatrixX3)
    (mu : R) (alg : StaticEquilibriumAlgorithm) (mem : Uninit) (i j : nat) :
  length contactPoints = length contactNormals ->
  implemented alg ->
  (forall k, (k < length contactNormals)%nat -> unit_normal (row contactNormals k)) ->
  (i < length contactPoints)%nat ->
  (j < m_generatorsPerContact st)%nat ->
  exists column,
    m_G_centr (self (setNewContacts RowMajor st contactPoints contactNormals mu alg mem))
      !! (m_generatorsPerContact st * i + j)%nat = Some column /\
    V3.norm (head3 column) = 1 /\
    tail3 column = V3.cross (row contactPoints i) (head3 column).
Proof.
  intros Hrows Halg Hunit Hi Hj.
  destruct (loop_exit st contactPoints contactNormals mu mem) as [[ok Gc] G] eqn:Hloop.
  rewrite (setNewContacts_G_centr RowMajor _ _ _ _ _ _ _ _ _ Halg Hloop).
  destruct (loop_exit_spec _ _ _ _ _ _ _ _ Hloop) as (_ & Hok & Hcols).
  assert (ok = true) as Hret.
  { apply Hok. intros k Hk. apply Hunit. lia. }
  destruct (Hcols Hret) as [Hblocks _].
  rewrite (Hblocks i j Hi Hj), contact_A_wrench.
  eexists. split; [reflexivity|]. cbn [head3 tail3]. split; [|reflexivity].
  rewrite norm_neg, generator_direction. apply norm_normalize.
  assert (unit_normal (row contactNormals i)) as Hn by (apply Hunit; lia).
  apply unit_normal_dot in Hn.
  apply (generator_direction_nonzero mu (row contactNormals i)). lra.
Qed.

Lemma generator_columns_are_wrenches_witness :
  exists column,
    m_G_centr (self (setNewContacts (cdd_interface := Scenario.projecting Scenario.no_rows)
                       true (Scenario.robot LP_STATUS_OPTIMAL 0 SOLVER_LP_QPOASES)
                       Scenario.origin Scenario.upward 0.5
                       STATIC_EQUILIBRIUM_ALGORITHM_LP Scenario.zeroed))
      !! 2%nat = Some column /\
    V3.norm (head3 column) = 1 /\
    tail3 column = V3.cross (vec3 0 0 0) (head3 column).
Proof.
  apply (generator_columns_are_wrenches
           (cdd_interface := Scenario.projecting Scenario.no_rows)
           true (Scenario.robot LP_STATUS_OPTIMAL 0 SOLVER_LP_QPOASES)
           Scenario.origin Scenario.upward 0.5 STATIC_EQUILIBRIUM_ALGORITHM_LP
           Scenario.zeroed 0 2).
  - reflexivity.
  - split; discriminate.
  - apply upward_all_unit.
  - cbn. lia.
  - cbn. lia.
Defined.

(** ** The generator matrix *)

Lemma norm_cross_normalize n r :
  0 < V3.dot r r ->
  V3.norm (V3.cross n (V3.normalize r)) = V3.norm (V3.cross n r) / V3.norm r.
Proof.
  intros Hr.
  assert (0 < V3.norm r) as Hk by (unfold V3.norm; apply sqrt_lt_R0; exact Hr).
  unfold V3.norm at 1. apply sqrt_lem_1.
  - apply dot_nonneg.
  - apply Rmult_le_pos; [apply norm_nonneg|]. left. apply Rinv_0_lt_compat. exact Hk.
  - transitivity (V3.dot (V3.cross n r) (V3.cross n r) / (V3.norm r * V3.norm r)).
    { rewrite <- norm_sqr. field. lra. }
    unfold V3.normalize. set (k := V3.norm r) in *.
    unfold V3.dot, V3.cross. cbn [v0 v1 v2]. field. lra.
Qed.

(** Normalizing [T1] before or after the cross product with the normal
    gives the same [T2]. *)
Lemma normalize_cross_normalize n r :
  0 < V3.dot r r ->
  0 < V3.dot (V3.cross n r) (V3.cross n r) ->
  V3.normalize (V3.cross n (V3.normalize r)) = V3.normalize (V3.cross n r).
Proof.
  intros Hr Hc.
  assert (0 < V3.norm r) as Hk by (unfold V3.norm; apply sqrt_lt_R0; exact Hr).
  assert (0 < V3.norm (V3.cross n r)) as Hm by (unfold V3.norm; apply sqrt_lt_R0; exact Hc).
  pose proof (norm_cross_normalize n r Hr) as Hnorm.
  remember (V3.cross n (V3.normalize r)) as X eqn:HX.
  remember (V3.cross n r) as c eqn:Hcr.
  unfold V3.normalize. rewrite Hnorm.
  set (k := V3.norm r) in *. set (m := V3.norm c) in *.
  subst X c. unfold V3.cross, V3.normalize. fold k. cbn [v0 v1 v2].
  f_equal; field; lra.
Qed.

Lemma crossMatrix_mulv x y : M3.mulv (crossMatrix x) y = V3.cross x y.
Proof.
  unfold crossMatrix, M3.mulv, V3.cross, V3.dot. cbn [row0 row1 row2 v0 v1 v2].
  f_equal; ring.
Qed.

(** C1.  When the algorithm is one that [setNewContacts] accepts and every
    contact normal has norm 1 within 1e-6, the call leaves in [m_G_centr],
    for each contact [i] and each [j] below the number [g] of generators per
    contact, at column [g*i + j] the vector
    [A_i * normalize(mu*sin(theta_j)*T1 + mu*cos(theta_j)*T2 + normal_i)]
    with [theta_j = j*2*PI/g].  Here [T1] is the normalized cross product of
    the normal with the Y axis, or with the X axis when the former is
    shorter than 1e-5, and [T2] the normalized cross product of the normal
    with [T1]: two unit vectors, orthogonal to the normal and to each
    other.  The top rows of [A_i] are [-Identity] and its bottom rows are
    the matrix of the cross product with [-contactPoint_i], so that the
    column is [-f] on top of [(-contactPoint_i) cross f] for the generator
    [f].  The matrix has [c*g] columns for [c] contacts. *)
Theorem setNewContacts_generator_columns
    {LPS P : Type} {cdd_interface : CddLib P} (RowMajor : bool)
    (st : @StaticEquilibrium LPS) (contactPoints contactNormals : MatrixX3)
    (mu : R) (alg : StaticEquilibriumAlgorithm) (mem : Uninit) (i j : nat) :
  length contactPoints = length contactNormals ->
  implemented alg ->
  (forall k, (k < length contactNormals)%nat -> unit_normal (row contactNormals k)) ->
  (i < length contactPoints)%nat ->
  (j < m_generatorsPerContact st)%nat ->
  let g := m_generatorsPerContact st in
  let theta := INR j * 2 * PI / INR g in
  let normal := row contactNormals i in
  let position := row contactPoints i in
  let G_centr :=
    m_G_centr (self (setNewContacts RowMajor st contactPoints contactNormals mu alg mem)) in
  exists (T1 T2 : Vector3) (A : Matrix63),
    T1 = V3.normalize (if Rlt_dec (V3.norm (V3.cross normal V3.UnitY)) 1e-5
                       then V3.cross normal V3.UnitX
                       else V3.cross normal V3.UnitY) /\
    T2 = V3.normalize (V3.cross normal T1) /\
    V3.norm T1 = 1 /\ V3.norm T2 = 1 /\
    V3.dot normal T1 = 0 /\ V3.dot normal T2 = 0 /\ V3.dot T1 T2 = 0 /\
    topRows3 A = M3.neg M3.Identity /\
    (forall x, M3.mulv (bottomRows3 A) x = V3.cross (V3.neg position) x) /\
    let f := V3.normalize
               (V3.add (V3.add (V3.scale (mu * sin theta) T1)
                               (V3.scale (mu * cos theta) T2))
                       normal) in
    G_centr !! (g * i + j)%nat = Some (M63.mulv A f) /\
    M63.mulv A f = vec6 (V3.neg f) (V3.cross (V3.neg position) f) /\
    length G_centr = (length contactPoints * g)%nat.
Proof.
  intros Hrows Halg Hunit Hi Hj g theta normal position G_centr.
  assert (unit_normal normal) as Hn by (apply Hunit; lia).
  exists (tangent_T1 normal), (tangent_T2 normal), (contact_A position).
  split; [reflexivity|].
  split.
  { unfold tangent_T1, tangent_T2. symmetry. apply normalize_cross_normalize.
    - apply tangent_T1_raw_nonzero. exact Hn.
    - apply tangent_T2_raw_nonzero. exact Hn. }
  split; [apply norm_T1; exact Hn|]. split; [apply norm_T2; exact Hn|].
  split; [apply normal_dot_T1|]. split; [apply normal_dot_T2|].
  split; [apply T1_dot_T2|].
  split; [reflexivity|].
  split.
  { intros x. unfold contact_A. cbn [bottomRows3].
    rewrite scale_minus_one. apply crossMatrix_mulv. }
  cbv zeta. split; [|split].
  - subst G_centr g.
    destruct (loop_exit st contactPoints contactNormals mu mem) as [[ok Gc] G] eqn:Hloop.
    rewrite (setNewContacts_G_centr RowMajor _ _ _ _ _ _ _ _ _ Halg Hloop).
    destruct (loop_exit_spec _ _ _ _ _ _ _ _ Hloop) as (_ & Hok & Hcols).
    assert (ok = true) as Hret.
    { apply Hok. intros k Hk. apply Hunit. lia. }
    destruct (Hcols Hret) as [Hblocks _].
    rewrite (Hblocks i j Hi Hj). reflexivity.
  - rewrite contact_A_wrench. f_equal.
    unfold V3.cross, V3.neg. cbn [v0 v1 v2]. f_equal; ring.
  - apply setNewContacts_cols. exact Halg.
Qed.

Lemma setNewContacts_generator_columns_witness :
  let normal := vec3 0 0 1 in
  let position := vec3 1 2 0 in
  let theta := INR 1 * 2 * PI / INR 3 in
  let G_centr :=
    m_G_centr (self (setNewContacts (cdd_interface := Scenario.projecting Scenario.no_rows)
                       true
                       (Scenario.robot LP_STATUS_OPTIMAL 0 SOLVER_LP_QPOASES)
                       [position] Scenario.upward 0.5
                       STATIC_EQUILIBRIUM_ALGORITHM_LP Scenario.zeroed)) in
  exists (T1 T2 : Vector3) (A : Matrix63),
    T1 = V3.normalize (if Rlt_dec (V3.norm (V3.cross normal V3.UnitY)) 1e-5
                       then V3.cross normal V3.UnitX
                       else V3.cross normal V3.UnitY) /\
    T2 = V3.normalize (V3.cross normal T1) /\
    V3.norm T1 = 1 /\ V3.norm T2 = 1 /\
    V3.dot normal T1 = 0 /\ V3.dot normal T2 = 0 /\ V3.dot T1 T2 = 0 /\
    topRows3 A = M3.neg M3.Identity /\
    (forall x, M3.mulv (bottomRows3 A) x = V3.cross (V3.neg position) x) /\
    let f := V3.normalize
               (V3.add (V3.add (V3.scale (0.5 * sin theta) T1)
                               (V3.scale (0.5 * cos theta) T2))
                       normal) in
    G_centr !! 1%nat = Some (M63.mulv A f) /\
    M63.mulv A f = vec6 (V3.neg f) (V3.cross (V3.neg position) f) /\
    length G_centr = 3%nat.
Proof.
  apply (setNewContacts_generator_columns (cdd_interface := Scenario.projecting Scenario.no_rows)
           true (Scenario.robot LP_STATUS_OPTIMAL 0 SOLVER_LP_QPOASES)
           [vec3 1 2 0] Scenario.upward 0.5 STATIC_EQUILIBRIUM_ALGORITHM_LP
           Scenario.zeroed 0 1).
  - reflexivity.
  - split; discriminate.
  - apply upward_all_unit.
  - cbn. lia.
  - cbn. lia.
Defined.

(** ** The constructor and the configuration call *)

(** X7.  The constructor raises a number of generators per contact below 3
    to 3, with a warning and only then, and no later call changes the
    number or the kind of solver: in every state the engine goes through,
    there are the larger of 3 and the requested number of generators per
    contact. *)
Theorem generatorsPerContact_at_least_three
    {LPS : Type} {solver_interface : Solver_LP_abstract LPS}
    {P : Type} {cdd_interface : CddLib P} (RowMajor : bool)
    (name : string) (mass : R) (generatorsPerContact : nat)
    (solver_type : SolverLP) (useWarmStart : bool)
    (uninit_algorithm : StaticEquilibriumAlgorithm) (uninit_coefficient : R)
    (st : @StaticEquilibrium LPS) :
  let new := StaticEquilibrium_new name mass generatorsPerContact solver_type
               useWarmStart uninit_algorithm uninit_coefficient in
  reachable_from RowMajor (fst new) st ->
  m_generatorsPerContact st = Nat.max 3 generatorsPerContact /\
  (3 <= m_generatorsPerContact st)%nat /\
  m_solver_type st = solver_type /\
  (snd new = [] <-> (3 <= generatorsPerContact)%nat) /\
  m_G_centr (fst new) = [].
Proof.
  intros new Hreach.
  destruct (reachable_constants RowMajor _ _ Hreach) as (_ & _ & -> & ->).
  unfold new, StaticEquilibrium_new. cbn [fst snd m_generatorsPerContact m_solver_type m_G_centr].
  destruct (generatorsPerContact <? 3)%nat eqn:Hlt.
  - apply Nat.ltb_lt in Hlt. repeat split; try lia; try discriminate.
  - apply Nat.ltb_ge in Hlt. repeat split; try lia; try reflexivity.
Qed.

Lemma generatorsPerContact_at_least_three_witness :
  let solver := Scenario.answering LP_STATUS_OPTIMAL 0 in
  let new := StaticEquilibrium_new (solver_interface := solver)
               "robot" 1 2 SOLVER_LP_QPOASES false STATIC_EQUILIBRIUM_ALGORITHM_LP 0 in
  let st := self (setNewContacts (cdd_interface := Scenario.projecting Scenario.no_rows)
                    true (fst new) Scenario.origin Scenario.upward 0.5
                    STATIC_EQUILIBRIUM_ALGORITHM_DLP Scenario.zeroed) in
  m_generatorsPerContact st = Nat.max 3 2 /\
  (3 <= m_generatorsPerContact st)%nat /\
  m_solver_type st = SOLVER_LP_QPOASES /\
  (snd new = [] <-> (3 <= 2)%nat) /\
  m_G_centr (fst new) = [].
Proof.
  apply (generatorsPerContact_at_least_three
           (solver_interface := Scenario.answering LP_STATUS_OPTIMAL 0)
           (cdd_interface := Scenario.projecting Scenario.no_rows)
           true "robot" 1 2 SOLVER_LP_QPOASES false
           STATIC_EQUILIBRIUM_ALGORITHM_LP 0).
  eapply reachable_call; [apply reachable_new|].
  apply (call_setNewContacts (solver_interface := Scenario.answering LP_STATUS_OPTIMAL 0)).
Defined.

Section Configuration.

Context {LPS : Type} {P : Type} {cdd_interface : CddLib P}.
Variable RowMajor : bool.
Implicit Types st : @StaticEquilibrium LPS.

(** The generator matrix as [computePolytopeProjection] hands it to
    cddlib. *)
Local Abbreviation cone_of G := (cone_span_eigen_to_cdd (M6X.transpose G) 6).

Lemma computePolytopeProjection_ret st v mem :
  ret (computePolytopeProjection RowMajor st v mem) = true
  <-> snd (dd_DDMatrix2Poly (cone_of v)) = dd_NoError.
Proof.
  unfold computePolytopeProjection.
  destruct (dd_DDMatrix2Poly _) as [H_ []]; cbn [snd].
  - destruct (copy_rows _ _ _ _ _) as [H1 h1].
    destruct (complement_rows _ _ _ _ _ _ _ _) as [H2 h2]. cbn. tauto.
  - cbn. split; discriminate.
Qed.

Lemma computePolytopeProjection_events st v mem :
  events (computePolytopeProjection RowMajor st v mem)
  = CALL_dd_DDMatrix2Poly (cone_of v)
    :: (if ret (computePolytopeProjection RowMajor st v mem) then []
        else [SEND_ERROR_MSG "numerical instability in cddlib. ill formed polytope"]).
Proof.
  unfold computePolytopeProjection.
  destruct (dd_DDMatrix2Poly _) as [H_ []].
  - destruct (copy_rows _ _ _ _ _) as [H1 h1].
    destruct (complement_rows _ _ _ _ _ _ _ _) as [H2 h2]. reflexivity.
  - reflexivity.
Qed.

Lemma computePolytopeProjection_failed st v mem :
  ret (computePolytopeProjection RowMajor st v mem) = false ->
  self (computePolytopeProjection RowMajor st v mem) = st.
Proof.
  unfold computePolytopeProjection.
  destruct (dd_DDMatrix2Poly _) as [H_ []].
  - destruct (copy_rows _ _ _ _ _) as [H1 h1].
    destruct (complement_rows _ _ _ _ _ _ _ _) as [H2 h2]. discriminate.
  - reflexivity.
Qed.

End Configuration.

(** X8.  [setNewContacts] returns [true] exactly when the algorithm is one
    it accepts, every contact normal passes the norm test and, for the
    polytope projection, cddlib reports no error on the generator matrix
    that the call has built. *)
Theorem setNewContacts_succeeds_iff
    {LPS P : Type} {cdd_interface : CddLib P} (RowMajor : bool)
    (st : @StaticEquilibrium LPS) (contactPoints contactNormals : MatrixX3)
    (mu : R) (alg : StaticEquilibriumAlgorithm) (mem : Uninit) :
  let r := setNewContacts RowMajor st contactPoints contactNormals mu alg mem in
  ret r = true
  <-> implemented alg /\
      (forall k, (k < length contactPoints)%nat -> unit_normal (row contactNormals k)) /\
      (alg = STATIC_EQUILIBRIUM_ALGORITHM_PP ->
       snd (dd_DDMatrix2Poly
              (cone_span_eigen_to_cdd (M6X.transpose (m_G_centr (self r))) 6))
       = dd_NoError).
Proof.
  intros r. unfold r.
  destruct (implemented_dec alg) as [Halg|Halg].
  - destruct (loop_exit st contactPoints contactNormals mu mem) as [[ok Gc] G] eqn:Hloop.
    rewrite (setNewContacts_G_centr RowMajor _ _ _ _ _ _ _ _ _ Halg Hloop).
    destruct (loop_exit_spec _ _ _ _ _ _ _ _ Hloop) as (_ & Hok & _).
    destruct ok.
    + rewrite (setNewContacts_accepted RowMajor _ _ _ _ _ _ _ _ Halg Hloop).
      assert (forall k, (k < length contactPoints)%nat -> unit_normal (row contactNormals k))
        as Hall by (apply Hok; reflexivity).
      destruct alg; cbn zeta;
        try (exfalso; destruct Halg; congruence);
        try (split; [intros _; split; [exact Halg|split; [exact Hall|discriminate]]
                    |reflexivity]).
      match goal with
      | |- context [computePolytopeProjection RowMajor ?s ?v ?m] =>
          rewrite <- (computePolytopeProjection_ret RowMajor s v m);
          destruct (ret (computePolytopeProjection RowMajor s v m))
      end; cbn [ret]; split.
      * intros _. split; [exact Halg|split; [exact Hall|reflexivity]].
      * reflexivity.
      * discriminate.
      * intros (_ & _ & Hcdd). specialize (Hcdd eq_refl). discriminate.
    + rewrite (setNewContacts_rejected RowMajor _ _ _ _ _ _ _ _ Halg Hloop).
      cbn [ret]. split; [discriminate|].
      intros (_ & Hall & _). apply Hok in Hall. discriminate.
  - destruct (setNewContacts_unimplemented RowMajor st contactPoints contactNormals
                mu alg mem Halg) as (-> & _).
    split; [discriminate|]. intros (Himpl & _). contradiction.
Qed.

(** X9.  With the algorithm IP or DIP, [setNewContacts] returns [false]
    after one error message and leaves the whole object as it was, whatever
    the contacts: nothing is read, neither cddlib nor the solver is
    called. *)
Theorem setNewContacts_not_implemented
    {LPS P : Type} {cdd_interface : CddLib P} (RowMajor : bool)
    (st : @StaticEquilibrium LPS) (contactPoints contactNormals : MatrixX3)
    (mu : R) (alg : StaticEquilibriumAlgorithm) (mem : Uninit) :
  alg = STATIC_EQUILIBRIUM_ALGORITHM_IP \/ alg = STATIC_EQUILIBRIUM_ALGORITHM_DIP ->
  let r := setNewContacts RowMajor st contactPoints contactNormals mu alg mem in
  ret r = false /\ self r = st /\
  events r = [SEND_ERROR_MSG (if algorithm_is_IP alg
                              then "Algorithm IP not implemented yet"
                              else "Algorithm DIP not implemented yet")].
Proof.
  intros [-> | ->]; cbn; repeat split; reflexivity.
Qed.

Lemma setNewContacts_not_implemented_witness :
  let st := Scenario.robot LP_STATUS_OPTIMAL 0 SOLVER_LP_QPOASES in
  let r := setNewContacts (cdd_interface := Scenario.projecting Scenario.no_rows)
             true st Scenario.origin Scenario.upward 0.5
             STATIC_EQUILIBRIUM_ALGORITHM_DIP Scenario.zeroed in
  ret r = false /\ self r = st /\
  events r = [SEND_ERROR_MSG (if algorithm_is_IP STATIC_EQUILIBRIUM_ALGORITHM_DIP
                              then "Algorithm IP not implemented yet"
                              else "Algorithm DIP not implemented yet")].
Proof.
  apply (setNewContacts_not_implemented
           (cdd_interface := Scenario.projecting Scenario.no_rows)).
  right. reflexivity.
Defined.

(** X10.  When the normals pass the norm test but cddlib reports an error
    on the generator matrix, [setNewContacts] with the polytope projection
    returns [false] after the error message and leaves [m_H], [m_h],
    [m_HD] and [m_Hd] as they were, while [m_algorithm] is the polytope
    projection and [m_G_centr] the new matrix of [c*g] columns: the
    half-space representation then belongs to the contacts of before. *)
Theorem setNewContacts_projection_fails
    {LPS P : Type} {cdd_interface : CddLib P} (RowMajor : bool)
    (st : @StaticEquilibrium LPS) (contactPoints contactNormals : MatrixX3)
    (mu : R) (mem : Uninit) :
  let r := setNewContacts RowMajor st contactPoints contactNormals mu
             STATIC_EQUILIBRIUM_ALGORITHM_PP mem in
  let V := cone_span_eigen_to_cdd (M6X.transpose (m_G_centr (self r))) 6 in
  (forall k, (k < length contactPoints)%nat -> unit_normal (row contactNormals k)) ->
  snd (dd_DDMatrix2Poly V) <> dd_NoError ->
  ret r = false /\
  m_H (self r) = m_H st /\ m_h (self r) = m_h st /\
  m_HD (self r) = m_HD st /\ m_Hd (self r) = m_Hd st /\
  m_algorithm (self r) = STATIC_EQUILIBRIUM_ALGORITHM_PP /\
  length (m_G_centr (self r)) = (length contactPoints * m_generatorsPerContact st)%nat /\
  events r = [CALL_dd_DDMatrix2Poly V;
              SEND_ERROR_MSG "numerical instability in cddlib. ill formed polytope"].
Proof.
  intros r V Hall Hcdd. unfold V, r in *. clear r V.
  assert (implemented STATIC_EQUILIBRIUM_ALGORITHM_PP) as Hpp by (split; discriminate).
  pose proof (setNewContacts_cols RowMajor st contactPoints contactNormals mu _ mem Hpp)
    as Hcols.
  destruct (loop_exit st contactPoints contactNormals mu mem) as [[ok Gc] G] eqn:Hloop.
  rewrite (setNewContacts_G_centr RowMajor _ _ _ _ _ _ _ _ _ Hpp Hloop) in *.
  destruct (loop_exit_spec _ _ _ _ _ _ _ _ Hloop) as (_ & Hok & _).
  apply Hok in Hall. subst ok.
  rewrite (setNewContacts_accepted RowMajor _ _ _ _ _ _ _ _ Hpp Hloop). cbn zeta.
  match goal with
  | |- context [computePolytopeProjection RowMajor ?s ?v ?m] =>
      pose proof (computePolytopeProjection_ret RowMajor s v m) as Hret;
      pose proof (computePolytopeProjection_events RowMajor s v m) as Hev;
      pose proof (computePolytopeProjection_failed RowMajor s v m) as Hself;
      destruct (ret (computePolytopeProjection RowMajor s v m))
  end.
  - exfalso. apply Hcdd. apply Hret. reflexivity.
  - cbn [ret self events]. rewrite Hev, (Hself eq_refl). cbn.
    repeat split; try reflexivity. exact Hcols.
Qed.

Lemma setNewContacts_projection_fails_witness :
  let st := Scenario.robot LP_STATUS_OPTIMAL 0 SOLVER_LP_QPOASES in
  let r := setNewContacts (cdd_interface := Scenario.failing) true st
             Scenario.origin Scenario.upward 0.5
             STATIC_EQUILIBRIUM_ALGORITHM_PP Scenario.zeroed in
  let V := cone_span_eigen_to_cdd (M6X.transpose (m_G_centr (self r))) 6 in
  ret r = false /\
  m_H (self r) = m_H st /\ m_h (self r) = m_h st /\
  m_HD (self r) = m_HD st /\ m_Hd (self r) = m_Hd st /\
  m_algorithm (self r) = STATIC_EQUILIBRIUM_ALGORITHM_PP /\
  length (m_G_centr (self r)) = (length Scenario.origin * m_generatorsPerContact st)%nat /\
  events r = [CALL_dd_DDMatrix2Poly V;
              SEND_ERROR_MSG "numerical instability in cddlib. ill formed polytope"].
Proof.
  apply (setNewContacts_projection_fails (cdd_interface := Scenario.failing) true
           (Scenario.robot LP_STATUS_OPTIMAL 0 SOLVER_LP_QPOASES)
           Scenario.origin Scenario.upward 0.5 Scenario.zeroed).
  - apply upward_all_unit.
  - cbn. discriminate.
Defined.

(** X11.  [setNewContacts] never calls the solver and leaves it as it was;
    it calls cddlib at most once, and it does so exactly when the algorithm
    is the polytope projection and every normal passes the norm test. *)
Theorem setNewContacts_calls
    {LPS P : Type} {cdd_interface : CddLib P} (RowMajor : bool)
    (st : @StaticEquilibrium LPS) (contactPoints contactNormals : MatrixX3)
    (mu : R) (alg : StaticEquilibriumAlgorithm) (mem : Uninit) :
  let r := setNewContacts RowMajor st contactPoints contactNormals mu alg mem in
  solver_calls (events r) = 0%nat /\
  m_solver (self r) = m_solver st /\
  (cddlib_calls (events r) <= 1)%nat /\
  (cddlib_calls (events r) = 1%nat
   <-> alg = STATIC_EQUILIBRIUM_ALGORITHM_PP /\
       forall k, (k < length contactPoints)%nat -> unit_normal (row contactNormals k)).
Proof.
  intros r. unfold r. clear r.
  split; [|split; [apply setNewContacts_solver|]].
  - destruct (implemented_dec alg) as [Halg|Halg].
    + destruct (loop_exit st contactPoints contactNormals mu mem) as [[[] Gc] G] eqn:Hloop.
      * rewrite (setNewContacts_accepted RowMajor _ _ _ _ _ _ _ _ Halg Hloop).
        destruct alg; try reflexivity. cbn zeta.
        match goal with
        | |- context [computePolytopeProjection RowMajor ?s ?v ?m] =>
            pose proof (computePolytopeProjection_events RowMajor s v m) as Hev;
            destruct (ret (computePolytopeProjection RowMajor s v m))
        end; cbn [events]; rewrite Hev; reflexivity.
      * rewrite (setNewContacts_rejected RowMajor _ _ _ _ _ _ _ _ Halg Hloop).
        reflexivity.
    + destruct (setNewContacts_unimplemented RowMajor st contactPoints contactNormals
                  mu alg mem Halg) as (_ & _ & text & ->). reflexivity.
  - destruct (implemented_dec alg) as [Halg|Halg].
    + destruct (loop_exit st contactPoints contactNormals mu mem) as [[ok Gc] G] eqn:Hloop.
      destruct (loop_exit_spec _ _ _ _ _ _ _ _ Hloop) as (_ & Hok & _).
      destruct ok.
      * rewrite (setNewContacts_accepted RowMajor _ _ _ _ _ _ _ _ Halg Hloop).
        assert (forall k, (k < length contactPoints)%nat -> unit_normal (row contactNormals k))
          as Hall by (apply Hok; reflexivity).
        destruct alg; cbn zeta;
          try (cbn; split; [lia|split; [discriminate|intros [Hpp _]; discriminate]]).
        match goal with
        | |- context [computePolytopeProjection RowMajor ?s ?v ?m] =>
            pose proof (computePolytopeProjection_events RowMajor s v m) as Hev;
            destruct (ret (computePolytopeProjection RowMajor s v m))
        end; cbn [events]; rewrite Hev; cbn; (split; [lia|tauto]).
      * rewrite (setNewContacts_rejected RowMajor _ _ _ _ _ _ _ _ Halg Hloop).
        cbn. split; [lia|]. split; [discriminate|].
        intros [_ Hall]. apply Hok in Hall. discriminate.
    + destruct (setNewContacts_unimplemented RowMajor st contactPoints contactNormals
                  mu alg mem Halg) as (_ & _ & text & ->).
      cbn. split; [lia|]. split; [discriminate|].
      intros [-> _]. exfalso. apply Halg. split; discriminate.
Qed.

(** ** What the queries give back *)

(** X12.  With at least one generator, [computeEquilibriumRobustness]
    returns the status of the solver as it is for the two primal LPs, and
    writes [robustness] only when that status is [OPTIMAL]: the coefficient
    times minus the objective value for the primal LPs, times the objective
    value for the dual LP.  For the other algorithms it returns
    [LP_STATUS_ERROR] without calling the solver.  Whenever the solver is
    called, it is called once, with the problem of the algorithm. *)
Theorem computeEquilibriumRobustness_result
    {LPS : Type} {solver_interface : Solver_LP_abstract LPS}
    (st : @StaticEquilibrium LPS) (com : Vector3) (robustness : R) :
  m_G_centr st <> [] ->
  let q := computeEquilibriumRobustness st com robustness in
  let k := m_b0_to_emax_coefficient st in
  let answer lp sign :=
    (out q = if LP_status_is_optimal (solver_status st lp)
             then sign * solver_objective st lp * k else robustness) /\
    exists messages, events q = CALL_solve lp :: messages
                     /\ solver_calls messages = 0%nat in
  (m_algorithm st = STATIC_EQUILIBRIUM_ALGORITHM_LP ->
   ret q = solver_status st (robustness_LP st com) /\
   answer (robustness_LP st com) (-1)) /\
  (m_algorithm st = STATIC_EQUILIBRIUM_ALGORITHM_LP2 ->
   ret q = solver_status st (robustness_LP2 st com) /\
   answer (robustness_LP2 st com) (-1)) /\
  (m_algorithm st = STATIC_EQUILIBRIUM_ALGORITHM_DLP ->
   answer (robustness_DLP st com) 1) /\
  (m_algorithm st = STATIC_EQUILIBRIUM_ALGORITHM_PP
   \/ m_algorithm st = STATIC_EQUILIBRIUM_ALGORITHM_IP
   \/ m_algorithm st = STATIC_EQUILIBRIUM_ALGORITHM_DIP ->
   ret q = LP_STATUS_ERROR /\ out q = robustness /\ self q = st /\
   solver_calls (events q) = 0%nat).
Proof.
  intros Hne q k answer. unfold answer, q, k. clear answer q k.
  unfold computeEquilibriumRobustness, solver_status, solver_objective.
  rewrite (nonempty_length _ Hne).
  split; [|split; [|split]].
  - intros ->.
    destruct (solve (m_solver st) (robustness_LP st com)) as [[[] sol] s];
      cbn [fst snd ret out events LP_status_is_optimal with_solver m_solver
           m_b0_to_emax_coefficient convert_b0_to_emax];
      (split; [reflexivity|split; [try reflexivity; unfold convert_b0_to_emax; cbn; ring
                                   |eexists; split; reflexivity]]).
  - intros ->.
    destruct (solve (m_solver st) (robustness_LP2 st com)) as [[[] sol] s];
      cbn [fst snd ret out events LP_status_is_optimal with_solver m_solver
           m_b0_to_emax_coefficient convert_b0_to_emax];
      (split; [reflexivity|split; [try reflexivity; unfold convert_b0_to_emax; cbn; ring
                                   |eexists; split; reflexivity]]).
  - intros ->.
    destruct (solve (m_solver st) (robustness_DLP st com)) as [[[] sol] s];
      cbn [fst snd ret out events LP_status_is_optimal with_solver m_solver
           m_b0_to_emax_coefficient convert_b0_to_emax];
      (split; [try reflexivity; unfold convert_b0_to_emax; cbn; ring
              |eexists; split; reflexivity]).
  - intros [-> | [-> | ->]]; repeat split; reflexivity.
Qed.

Lemma computeEquilibriumRobustness_result_witness :
  let solver := Scenario.answering LP_STATUS_OPTIMAL (-2) in
  let st := Scenario.standing Scenario.no_rows true LP_STATUS_OPTIMAL (-2)
              SOLVER_LP_QPOASES STATIC_EQUILIBRIUM_ALGORITHM_LP in
  let com := vec3 0 0 0.5 in
  let q := computeEquilibriumRobustness (solver_interface := solver) st com 0 in
  ret q = LP_STATUS_OPTIMAL /\
  out q = -1 * -2 * m_b0_to_emax_coefficient st.
Proof.
  cbn zeta.
  assert (implemented STATIC_EQUILIBRIUM_ALGORITHM_LP) as Halg by (split; discriminate).
  destruct (computeEquilibriumRobustness_result
              (solver_interface := Scenario.answering LP_STATUS_OPTIMAL (-2))
              (Scenario.standing Scenario.no_rows true LP_STATUS_OPTIMAL (-2)
                 SOLVER_LP_QPOASES STATIC_EQUILIBRIUM_ALGORITHM_LP)
              (vec3 0 0 0.5) 0
              (standing_nonempty _ _ _ _ _ _ Halg)) as (Hlp & _).
  destruct (Hlp (standing_algorithm _ _ _ _ _ _ Halg)) as (Hret & Hout & _).
  rewrite standing_solver_status in Hret, Hout.
  rewrite standing_solver_objective in Hout.
  split; [exact Hret|exact Hout].
Defined.

(** X13.  With at least one generator, [findExtremumOverLine] returns the
    status of the solver as it is for the primal LP.  For the primal and
    the dual LP it leaves in [com] a point of the line: [a0 + t*a], with
    [t] the last coefficient of the solution (primal) or the objective
    value (dual) when the solver reports [OPTIMAL], and [a0] itself
    otherwise.  For the other algorithms, the second primal LP included, it
    returns [LP_STATUS_ERROR] without calling the solver and leaves [com]
    as it was. *)
Theorem findExtremumOverLine_result
    {LPS : Type} {solver_interface : Solver_LP_abstract LPS}
    (st : @StaticEquilibrium LPS) (a a0 com : Vector3) (e_max : R) :
  m_G_centr st <> [] ->
  let q := findExtremumOverLine st a a0 e_max com in
  let b0 := e_max / m_b0_to_emax_coefficient st in
  let answer lp t :=
    (out q = if LP_status_is_optimal (solver_status st lp)
             then V3.add a0 (V3.scale t a) else a0) /\
    exists messages, events q = CALL_solve lp :: messages
                     /\ solver_calls messages = 0%nat in
  (m_algorithm st = STATIC_EQUILIBRIUM_ALGORITHM_LP ->
   ret q = solver_status st (line_LP st a a0 b0) /\
   answer (line_LP st a a0 b0)
     (VX.coeff (solver_solution st (line_LP st a a0 b0)) (length (m_G_centr st)))) /\
  (m_algorithm st = STATIC_EQUILIBRIUM_ALGORITHM_DLP ->
   answer (line_DLP st a a0 b0) (solver_objective st (line_DLP st a a0 b0))) /\
  (m_algorithm st <> STATIC_EQUILIBRIUM_ALGORITHM_LP ->
   m_algorithm st <> STATIC_EQUILIBRIUM_ALGORITHM_DLP ->
   ret q = LP_STATUS_ERROR /\ out q = com /\ self q = st /\
   solver_calls (events q) = 0%nat).
Proof.
  intros Hne q b0 answer. unfold answer, q, b0. clear answer q b0.
  unfold findExtremumOverLine, solver_status, solver_objective, solver_solution,
    convert_emax_to_b0.
  rewrite (nonempty_length _ Hne).
  split; [|split].
  - intros ->.
    destruct (solve (m_solver st) _) as [[[] sol] s];
      cbn [fst snd ret out events LP_status_is_optimal];
      (split; [reflexivity|split; [reflexivity|eexists; split; reflexivity]]).
  - intros ->.
    destruct (solve (m_solver st) _) as [[[] sol] s];
      cbn [fst snd ret out events LP_status_is_optimal with_solver m_solver
           m_solver_type];
      try (split; [reflexivity|eexists; split; reflexivity]).
    destruct (SolverLP_eqb _ _ && Rltb _ _)%bool;
      cbn [out events]; (split; [reflexivity|eexists; split; reflexivity]).
  - intros Hlp Hdlp.
    destruct (m_algorithm st); try congruence; repeat split; reflexivity.
Qed.

Lemma findExtremumOverLine_result_witness :
  let solver := Scenario.answering LP_STATUS_OPTIMAL 0.1 in
  let st := Scenario.standing Scenario.no_rows true LP_STATUS_OPTIMAL 0.1
              SOLVER_LP_QPOASES STATIC_EQUILIBRIUM_ALGORITHM_DLP in
  let a := vec3 1 0 0 in
  let a0 := vec3 0 0 0.5 in
  out (findExtremumOverLine (solver_interface := solver) st a a0 0 a0)
  = V3.add a0 (V3.scale 0.1 a).
Proof.
  cbn zeta.
  assert (implemented STATIC_EQUILIBRIUM_ALGORITHM_DLP) as Halg by (split; discriminate).
  destruct (findExtremumOverLine_result
              (solver_interface := Scenario.answering LP_STATUS_OPTIMAL 0.1)
              (Scenario.standing Scenario.no_rows true LP_STATUS_OPTIMAL 0.1
                 SOLVER_LP_QPOASES STATIC_EQUILIBRIUM_ALGORITHM_DLP)
              (vec3 1 0 0) (vec3 0 0 0.5) (vec3 0 0 0.5) 0
              (standing_nonempty _ _ _ _ _ _ Halg)) as (_ & Hdlp & _).
  destruct (Hdlp (standing_algorithm _ _ _ _ _ _ Halg)) as (Hout & _).
  rewrite standing_solver_status, standing_solver_objective in Hout.
  exact Hout.
Defined.

(** X14.  No query changes a member of the engine other than the solver.
    [checkRobustEquilibrium] and [findExtremumInDirection] never call the
    solver and leave it as it was; with at least one generator
    [findExtremumInDirection] returns [LP_STATUS_ERROR] and leaves [com] as
    it was.  The two other queries call the solver at most once. *)
Theorem queries_touch_only_the_solver
    {LPS : Type} {solver_interface : Solver_LP_abstract LPS}
    (st : @StaticEquilibrium LPS) (com a a0 direction : Vector3)
    (robustness e_max : R) (equilibrium : bool) :
  let q1 := computeEquilibriumRobustness st com robustness in
  let q2 := findExtremumOverLine st a a0 e_max com in
  let q3 := checkRobustEquilibrium st com equilibrium e_max in
  let q4 := findExtremumInDirection st direction com e_max in
  (self q1 = with_solver st (m_solver (self q1)) /\ (solver_calls (events q1) <= 1)%nat) /\
  (self q2 = with_solver st (m_solver (self q2)) /\ (solver_calls (events q2) <= 1)%nat) /\
  (self q3 = st /\ solver_calls (events q3) = 0%nat) /\
  (self q4 = st /\ solver_calls (events q4) = 0%nat /\
   (m_G_centr st <> [] -> ret q4 = LP_STATUS_ERROR /\ out q4 = com)).
Proof.
  cbn zeta. split; [|split; [|split]].
  - split; [apply computeEquilibriumRobustness_same|].
    unfold computeEquilibriumRobustness.
    destruct (length (m_G_centr st) =? 0)%nat; [cbn; lia|].
    destruct (m_algorithm st); try (cbn; lia);
      destruct (solve _ _) as [[[] sol] s]; cbn; lia.
  - split; [apply findExtremumOverLine_same|].
    unfold findExtremumOverLine.
    destruct (length (m_G_centr st) =? 0)%nat; [cbn; lia|].
    destruct (m_algorithm st); try (cbn; lia);
      destruct (solve _ _) as [[[] sol] s]; try (cbn; lia).
    cbn [with_solver m_solver m_solver_type].
    destruct (SolverLP_eqb _ _ && Rltb _ _)%bool; cbn; lia.
  - split; [apply checkRobustEquilibrium_self|].
    unfold checkRobustEquilibrium.
    destruct (length (m_G_centr st) =? 0)%nat; [reflexivity|].
    destruct (Req_dec_T e_max 0); [|reflexivity].
    destruct (m_algorithm st); reflexivity.
  - split; [apply findExtremumInDirection_self|].
    unfold findExtremumInDirection.
    destruct (m_G_centr st) as [|c G]; cbn [length Nat.eqb].
    + split; [reflexivity|]. intros Hne. congruence.
    + split; [reflexivity|]. intros _. split; reflexivity.
Qed.

(** ** The problems handed to the solver *)

Lemma shape_hcat a : forall b nr n1 n2,
  shape a nr n1 -> shape b nr n2 -> shape (MXX.hcat a b) nr (n1 + n2).
Proof.
  unfold shape, MXX.hcat.
  induction a as [|ra a IH]; intros b nr n1 n2 [<- Hfa] [Hlb Hfb].
  - split; [reflexivity|constructor].
  - destruct b as [|rb b]; [discriminate Hlb|].
    inversion Hfa as [|? ? Hra Hfa']. inversion Hfb as [|? ? Hrb Hfb']. subst.
    cbn [length] in Hlb. injection Hlb as Hlb.
    destruct (IH b (length a) (length ra) (length rb)
                (conj eq_refl Hfa') (conj Hlb Hfb')) as [Hl Hf].
    cbn [zip_with length]. split; [rewrite Hl; reflexivity|].
    constructor; [apply length_app|exact Hf].
Qed.

Lemma shape_app a b n1 n2 nc :
  shape a n1 nc -> shape b n2 nc -> shape (a ++ b) (n1 + n2) nc.
Proof.
  unfold shape. intros [Hla Hfa] [Hlb Hfb]. split.
  - rewrite length_app. lia.
  - apply Forall_app. split; assumption.
Qed.

Lemma shape_col (v : list R) : shape (MXX.col v) (length v) 1.
Proof.
  unfold shape, MXX.col. split; [apply length_map|].
  apply Forall_forall. intros r Hr. apply list_elem_of_In, in_map_iff in Hr.
  destruct Hr as (x & <- & _). reflexivity.
Qed.

Lemma shape_rows (G : list Vector6) : shape (M6X.rows G) 6 (length G).
Proof.
  unfold shape, M6X.rows. split; [reflexivity|].
  repeat constructor; apply length_map.
Qed.

Lemma shape_transpose (G : list Vector6) : shape (M6X.transpose G) (length G) 6.
Proof.
  unfold shape, M6X.transpose. split; [apply length_map|].
  apply Forall_forall. intros r Hr. apply list_elem_of_In, in_map_iff in Hr.
  destruct Hr as (x & <- & _). reflexivity.
Qed.

Lemma shape_Identity m : shape (MXX.Identity m) m m.
Proof.
  unfold shape, MXX.Identity. split; [rewrite length_map; apply length_seq|].
  apply Forall_forall. intros r Hr. apply list_elem_of_In, in_map_iff in Hr.
  destruct Hr as (i & <- & _). rewrite length_insert. apply length_replicate.
Qed.

Lemma length_to_list (x : Vector6) : length (V6.to_list x) = 6%nat.
Proof. reflexivity. Qed.

Lemma length_Zero n : length (VX.Zero n) = n.
Proof. apply length_replicate. Qed.

Lemma length_Ones n : length (VX.Ones n) = n.
Proof. apply length_replicate. Qed.

Lemma length_scale k a : length (VX.scale k a) = length a.
Proof. apply length_map. Qed.

Lemma length_neg a : length (VX.neg a) = length a.
Proof. apply length_map. Qed.

Lemma length_set_head x a :
  (length x <= length a)%nat -> length (VX.set_head x a) = length a.
Proof.
  intros Hle. unfold VX.set_head. rewrite length_app, length_drop. lia.
Qed.

(** X15.  The five linear programs are well dimensioned, for [m]
    generators: the primal problems have [m+1] variables, under [6+m]
    constraints for the first and 6 for the two others; the dual problems
    have 6 variables under [m+1] constraints.  In each, the cost and the
    bounds have one coefficient per variable, and the matrix one row per
    constraint and one column per variable. *)
Theorem linear_programs_well_dimensioned
    {LPS : Type} (st : @StaticEquilibrium LPS) (com a a0 : Vector3) (b0 : R) :
  let m := length (m_G_centr st) in
  LP_shape (robustness_LP st com) (m + 1) (6 + m) /\
  LP_shape (robustness_LP2 st com) (m + 1) 6 /\
  LP_shape (robustness_DLP st com) 6 (m + 1) /\
  LP_shape (line_LP st a a0 b0) (m + 1) 6 /\
  LP_shape (line_DLP st a a0 b0) 6 (m + 1).
Proof.
  intros m. unfold LP_shape, robustness_LP, robustness_LP2, robustness_DLP,
    line_LP, line_DLP.
  cbn [lp_c lp_lb lp_ub lp_A lp_Alb lp_Aub]. fold m.
  pose proof (shape_rows (m_G_centr st)) as Hrows.
  pose proof (shape_transpose (m_G_centr st)) as Htr.
  pose proof (shape_Identity m) as Hid.
  fold m in Hrows, Htr.
  assert (forall v : Vector6, shape (MXX.col (V6.to_list v)) 6 1) as Hcol6
    by (intros v; apply (shape_col (V6.to_list v))).
  assert (shape (MXX.col (VX.Zero 6)) 6 1) as Hzero6
    by (apply (shape_col (VX.Zero 6))).
  assert (shape (MXX.col (VX.neg (VX.Ones m))) m 1) as Hones.
  { pose proof (shape_col (VX.neg (VX.Ones m))) as H.
    rewrite length_neg, length_Ones in H. exact H. }
  assert (forall v : Vector6, shape [V6.to_list v] 1 6) as Hrow
    by (intros v; split; [reflexivity|repeat constructor]).
  repeat match goal with
  | |- _ /\ _ => split
  | |- length (<[_ := _]> _) = _ => rewrite length_insert
  | |- length (VX.scale _ _) = _ => rewrite length_scale
  | |- length (VX.neg _) = _ => rewrite length_neg
  | |- length (VX.Zero _) = _ => apply length_Zero
  | |- length (VX.Ones _) = _ => apply length_Ones
  | |- length (V6.to_list _) = _ => reflexivity
  | |- length (VX.set_head _ _) = _ =>
      rewrite length_set_head
        by (rewrite ?length_scale, ?length_Zero, ?length_Ones, length_to_list; lia)
  end.
  all: try (apply (shape_app _ _ 6 m (m + 1));
            [apply (shape_hcat _ _ 6 m 1)|apply (shape_hcat _ _ m m 1)]; assumption).
  all: try (apply (shape_hcat _ _ 6 m 1); [assumption|apply Hcol6]).
  all: try (apply (shape_app _ _ m 1 6); [assumption|apply Hrow]).
Qed.

Lemma scale_replicate k n x : VX.scale k (replicate n x) = replicate n (x * k).
Proof. unfold VX.scale. induction n as [|n IH]; cbn; [reflexivity|]. f_equal. exact IH. Qed.

Lemma neg_replicate n x : VX.neg (replicate n x) = replicate n (- x).
Proof. unfold VX.neg. induction n as [|n IH]; cbn; [reflexivity|]. f_equal. exact IH. Qed.

Lemma Rle_replicate n x y : x <= y -> Forall2 Rle (replicate n x) (replicate n y).
Proof. intros Hle. induction n as [|n IH]; cbn; constructor; assumption. Qed.

Lemma Rle_same (l : list R) : Forall2 Rle l l.
Proof. induction l as [|x l IH]; constructor; [apply Rle_refl|exact IH]. Qed.

Lemma Rle_insert_left n m x y z :
  (m < n)%nat -> x <= z -> y <= z ->
  Forall2 Rle (<[m := y]> (replicate n x)) (replicate n z).
Proof.
  intros Hm Hxz Hyz.
  rewrite <- (list_insert_id (replicate n z) m z) by (apply lookup_replicate_2; exact Hm).
  apply Forall2_insert; [apply Rle_replicate; exact Hxz|exact Hyz].
Qed.

Lemma Rle_set_head (x : list R) n y z :
  y <= z ->
  Forall2 Rle (VX.set_head x (replicate n y)) (VX.set_head x (replicate n z)).
Proof.
  intros Hle. unfold VX.set_head. apply Forall2_app; [apply Rle_same|].
  rewrite !drop_replicate. apply Rle_replicate. exact Hle.
Qed.

(** X16.  In each of the five linear programs the lower bound of every
    variable is at most its upper bound, and the lower bound of every
    constraint is at most its upper bound: no problem handed to the solver
    has an empty box. *)
Theorem linear_programs_bounds_ordered
    {LPS : Type} (st : @StaticEquilibrium LPS) (com a a0 : Vector3) (b0 : R) :
  LP_bounds_ordered (robustness_LP st com) /\
  LP_bounds_ordered (robustness_LP2 st com) /\
  LP_bounds_ordered (robustness_DLP st com) /\
  LP_bounds_ordered (line_LP st a a0 b0) /\
  LP_bounds_ordered (line_DLP st a a0 b0).
Proof.
  unfold LP_bounds_ordered, robustness_LP, robustness_LP2, robustness_DLP,
    line_LP, line_DLP.
  cbn [lp_lb lp_ub lp_Alb lp_Aub].
  unfold VX.Ones, VX.Zero.
  rewrite ?neg_replicate, ?scale_replicate.
  repeat match goal with
  | |- _ /\ _ => split
  | |- Forall2 Rle ?l ?l => apply Rle_same
  | |- Forall2 Rle (VX.set_head _ _) (VX.set_head _ _) => apply Rle_set_head; lra
  | |- Forall2 Rle (<[_ := _]> _) (<[_ := _]> _) =>
      apply Forall2_insert; [apply Rle_replicate; lra|lra]
  | |- Forall2 Rle (<[_ := _]> _) (replicate _ _) =>
      apply Rle_insert_left; [lia|lra|lra]
  | |- Forall2 Rle (replicate _ _) (replicate _ _) => apply Rle_replicate; lra
  end.
Qed.

(** ** util.cpp: rotations and rectangular contacts *)

(** The sines and cosines of the three angles, as six numbers under the
    three relations that tie them. *)
Ltac angles_as_numbers roll pitch yaw :=
  let Hi := fresh "Hi" in
  let Hj := fresh "Hj" in
  let Hk := fresh "Hk" in
  pose proof (sin2_cos2 roll) as Hi;
  pose proof (sin2_cos2 pitch) as Hj;
  pose proof (sin2_cos2 yaw) as Hk;
  unfold Rsqr in Hi, Hj, Hk;
  generalize dependent (sin roll); generalize dependent (cos roll);
  generalize dependent (sin pitch); generalize dependent (cos pitch);
  generalize dependent (sin yaw); generalize dependent (cos yaw);
  intros.

(** X17.  For all angles, the matrix that [euler_matrix] writes is a
    rotation: times its transpose it is the identity, and its determinant
    is 1. *)
Theorem euler_matrix_is_rotation (roll pitch yaw : R) :
  let Rot := euler_matrix roll pitch yaw in
  M3.mul Rot (M3.transpose Rot) = M3.Identity /\
  M3.mul (M3.transpose Rot) Rot = M3.Identity /\
  M3.det Rot = 1.
Proof.
  cbn zeta.
  unfold euler_matrix, M3.mul, M3.transpose, M3.mulv, M3.det, M3.Identity,
    V3.dot, V3.cross.
  cbn [row0 row1 row2 v0 v1 v2].
  angles_as_numbers roll pitch yaw.
  split; [|split]; [repeat f_equal; nsatz..|nsatz].
Qed.

Lemma rectangle_normal_unit lx ly pos rpy :
  exists n p0 p1 p2 p3,
    generate_rectangle_contacts lx ly pos rpy
    = (true, [p0; p1; p2; p3], [n; n; n; n]) /\
    V3.norm n = 1.
Proof.
  unfold generate_rectangle_contacts. cbn zeta.
  do 5 eexists. split; [reflexivity|].
  destruct rpy as [roll pitch yaw]. cbn [v0 v1 v2].
  unfold V3.norm.
  match goal with |- sqrt ?e = 1 => replace e with 1; [apply sqrt_1|] end.
  unfold euler_matrix, M3.mulv, V3.dot. cbn [row0 row1 row2 v0 v1 v2].
  angles_as_numbers roll pitch yaw. nsatz.
Qed.

(** X18.  [generate_rectangle_contacts] returns [true] with four points
    and four normals.  The normals are one and the same unit vector; the
    points lie in the plane through [pos] orthogonal to it, at the
    squared distance [lx^2 + ly^2] from [pos], and [pos] is their mean. *)
Theorem generate_rectangle_contacts_geometry (lx ly : R) (pos rpy : Vector3) :
  exists n p0 p1 p2 p3,
    generate_rectangle_contacts lx ly pos rpy
    = (true, [p0; p1; p2; p3], [n; n; n; n]) /\
    V3.norm n = 1 /\
    Forall (fun p => V3.dot (V3.add p (V3.neg pos)) n = 0) [p0; p1; p2; p3] /\
    Forall (fun p => V3.dot (V3.add p (V3.neg pos)) (V3.add p (V3.neg pos))
                     = lx * lx + ly * ly) [p0; p1; p2; p3] /\
    V3.add (V3.add (V3.add p0 p1) p2) p3 = V3.scale 4 pos.
Proof.
  destruct (rectangle_normal_unit lx ly pos rpy)
    as (n & p0 & p1 & p2 & p3 & Hgen & Hn).
  exists n, p0, p1, p2, p3. split; [exact Hgen|]. split; [exact Hn|].
  unfold generate_rectangle_contacts in Hgen. cbn zeta in Hgen.
  injection Hgen as <- <- <- <- <-. clear Hn.
  destruct pos as [px py pz]. destruct rpy as [roll pitch yaw].
  cbn [v0 v1 v2].
  split; [|split].
  - repeat constructor;
      unfold euler_matrix, M3.mulv, V3.dot, V3.add, V3.neg;
      cbn [row0 row1 row2 v0 v1 v2];
      angles_as_numbers roll pitch yaw; nsatz.
  - repeat constructor;
      unfold euler_matrix, M3.mulv, V3.dot, V3.add, V3.neg;
      cbn [row0 row1 row2 v0 v1 v2];
      angles_as_numbers roll pitch yaw; nsatz.
  - unfold euler_matrix, M3.mulv, V3.dot, V3.add, V3.scale.
    cbn [row0 row1 row2 v0 v1 v2]. f_equal; ring.
Qed.

Lemma unit_normal_of_norm_one n : V3.norm n = 1 -> unit_normal n.
Proof.
  intros Hn. unfold unit_normal. rewrite Hn.
  replace (1 - 1) with 0 by ring. rewrite Rabs_R0. lra.
Qed.

(** X19.  The contacts that [generate_rectangle_contacts] produces are
    accepted by [setNewContacts]: with any of the three LP algorithms the
    call returns [true], whatever the rectangle, its position and its
    orientation, and leaves four blocks of generators. *)
Theorem rectangle_contacts_accepted
    {LPS P : Type} {cdd_interface : CddLib P} (RowMajor : bool)
    (st : @StaticEquilibrium LPS) (lx ly : R) (pos rpy : Vector3)
    (mu : R) (alg : StaticEquilibriumAlgorithm) (mem : Uninit) :
  implemented alg ->
  alg <> STATIC_EQUILIBRIUM_ALGORITHM_PP ->
  let rectangle := generate_rectangle_contacts lx ly pos rpy in
  let r := setNewContacts RowMajor st (snd (fst rectangle)) (snd rectangle) mu alg mem in
  fst (fst rectangle) = true /\
  ret r = true /\
  length (m_G_centr (self r)) = (4 * m_generatorsPerContact st)%nat.
Proof.
  intros Halg Hpp rectangle r. unfold r, rectangle. clear r rectangle.
  destruct (rectangle_normal_unit lx ly pos rpy)
    as (n & p0 & p1 & p2 & p3 & -> & Hn).
  cbn [fst snd]. split; [reflexivity|]. split.
  - apply setNewContacts_returns_true; [exact Halg|exact Hpp|].
    intros k Hk. cbn [length] in Hk. apply unit_normal_of_norm_one.
    destruct k as [|[|[|[|k]]]]; try exact Hn. lia.
  - rewrite setNewContacts_cols by exact Halg. reflexivity.
Qed.

Lemma rectangle_contacts_accepted_witness :
  let rectangle := generate_rectangle_contacts 0.1 0.1 (vec3 0 0 0) (vec3 0 0 0) in
  let r := setNewContacts (cdd_interface := Scenario.projecting Scenario.no_rows) true
             (Scenario.robot LP_STATUS_OPTIMAL 0 SOLVER_LP_QPOASES)
             (snd (fst rectangle)) (snd rectangle) 0.5
             STATIC_EQUILIBRIUM_ALGORITHM_DLP Scenario.zeroed in
  fst (fst rectangle) = true /\
  ret r = true /\
  length (m_G_centr (self r))
  = (4 * m_generatorsPerContact (Scenario.robot LP_STATUS_OPTIMAL 0 SOLVER_LP_QPOASES))%nat.
Proof.
  apply (rectangle_contacts_accepted
           (cdd_interface := Scenario.projecting Scenario.no_rows) true
           (Scenario.robot LP_STATUS_OPTIMAL 0 SOLVER_LP_QPOASES)
           0.1 0.1 (vec3 0 0 0) (vec3 0 0 0) 0.5
           STATIC_EQUILIBRIUM_ALGORITHM_DLP Scenario.zeroed).
  - split; discriminate.
  - discriminate.
Defined.

(** ** Coefficient-wise writes to a dynamic matrix *)

Lemma shape_set H nr nc i j x : shape H nr nc -> shape (MXX.set H i j x) nr nc.
Proof.
  unfold shape, MXX.set. intros [Hlen Hrows]. split.
  - rewrite length_alter. exact Hlen.
  - apply Forall_alter; [exact Hrows|].
    intros r _ Hr. rewrite length_insert. exact Hr.
Qed.

Lemma nth_row (H : list (list R)) i : nth i H [] = default [] (H !! i).
Proof. apply nth_lookup. Qed.

Lemma coeff_set H nr nc i j x i' j' :
  shape H nr nc ->
  MXX.coeff (MXX.set H i j x) i' j'
  = if decide (i' = i /\ j' = j /\ (i < nr)%nat /\ (j < nc)%nat)
    then x else MXX.coeff H i' j'.
Proof.
  unfold shape, MXX.coeff, MXX.set. intros [Hlen Hrows].
  rewrite !nth_row.
  destruct (decide (i' = i)) as [->|Hi].
  - rewrite list_lookup_alter_eq.
    destruct (H !! i) as [r|] eqn:Hr;
      cbn [fmap option_fmap option_map default from_option Datatypes.id].
    + assert (length r = nc) as Hlr.
      { rewrite Forall_forall in Hrows. apply Hrows.
        apply list_elem_of_lookup. exists i. exact Hr. }
      apply lookup_lt_Some in Hr as Hlt.
      rewrite !nth_lookup.
      destruct (decide (j' = j)) as [->|Hj].
      * destruct (decide (j < nc)%nat) as [Hjn|Hjn].
        -- rewrite list_lookup_insert_eq by lia.
           destruct (decide _) as [_|Hno]; [reflexivity|].
           exfalso. apply Hno. repeat split; lia.
        -- rewrite list_insert_ge by lia.
           destruct (decide _) as [(_ & _ & _ & Hyes)|_]; [lia|reflexivity].
      * rewrite list_lookup_insert_ne by congruence.
        destruct (decide _) as [(_ & Hyes & _)|_]; [congruence|reflexivity].
    + apply lookup_ge_None in Hr.
      destruct (decide _) as [(_ & _ & Hyes & _)|_]; [lia|reflexivity].
  - rewrite list_lookup_alter_ne by congruence.
    destruct (decide _) as [(Hyes & _)|_]; [congruence|reflexivity].
Qed.

(** ** util.cpp: uniform sampling *)

Lemma uniform_row_spec RAND_MAX rand lower upper i nr nc : forall n j k out,
  shape out nr nc ->
  shape (fst (uniform_row RAND_MAX rand lower upper i n j k out)) nr nc /\
  snd (uniform_row RAND_MAX rand lower upper i n j k out) = (k + n)%nat /\
  forall i' j',
    MXX.coeff (fst (uniform_row RAND_MAX rand lower upper i n j k out)) i' j'
    = if decide (i' = i /\ (j <= j' < j + n)%nat /\ (i < nr)%nat /\ (j' < nc)%nat)
      then uniform_value RAND_MAX (rand (k + (j' - j))%nat) lower upper i j'
      else MXX.coeff out i' j'.
Proof.
  induction n as [|n IH]; intros j k out Hshape; cbn [uniform_row fst snd].
  - split; [exact Hshape|]. split; [lia|].
    intros i' j'. destruct (decide _) as [H|H]; [lia|reflexivity].
  - match goal with
    | |- context [MXX.set out i j ?v] =>
        destruct (IH (j + 1)%nat (k + 1)%nat (MXX.set out i j v)
                    (shape_set _ _ _ _ _ _ Hshape)) as (Hs & Hk & Hc);
        pose proof (fun i' j' => coeff_set out nr nc i j v i' j' Hshape) as Hset
    end.
    split; [exact Hs|]. split; [rewrite Hk; lia|].
    intros i' j'. rewrite Hc, Hset. unfold uniform_value.
    destruct (decide (i' = i /\ (j + 1 <= j' < j + 1 + n)%nat /\ (i < nr)%nat /\ (j' < nc)%nat))
      as [Hin|Hout].
    + destruct (decide _) as [_|Hno]; [|exfalso; apply Hno; lia].
      replace (k + 1 + (j' - (j + 1)))%nat with (k + (j' - j))%nat by lia.
      destruct Hin as (-> & _). reflexivity.
    + destruct (decide (i' = i /\ j' = j /\ (i < nr)%nat /\ (j < nc)%nat))
        as [(-> & -> & Hi & Hj)|Hne].
      * destruct (decide _) as [_|Hno]; [|exfalso; apply Hno; lia].
        rewrite Nat.sub_diag, Nat.add_0_r. reflexivity.
      * destruct (decide _) as [Hyes|_]; [exfalso|reflexivity].
        destruct (decide (j' = j)) as [->|Hj]; [apply Hne|apply Hout]; lia.
Qed.

Lemma uniform_rows_spec RAND_MAX rand lower upper nr nc : forall n i k out,
  shape out nr nc ->
  (i + n <= nr)%nat ->
  shape (fst (uniform_rows RAND_MAX rand lower upper nc n i k out)) nr nc /\
  snd (uniform_rows RAND_MAX rand lower upper nc n i k out) = (k + n * nc)%nat /\
  forall i' j',
    MXX.coeff (fst (uniform_rows RAND_MAX rand lower upper nc n i k out)) i' j'
    = if decide ((i <= i' < i + n)%nat /\ (j' < nc)%nat)
      then uniform_value RAND_MAX (rand (k + (i' - i) * nc + j')%nat) lower upper i' j'
      else MXX.coeff out i' j'.
Proof.
  induction n as [|n IH]; intros i k out Hshape Hfit; cbn [uniform_rows].
  - split; [exact Hshape|]. split; [cbn; lia|].
    intros i' j'. destruct (decide _) as [H|H]; [lia|reflexivity].
  - destruct (uniform_row_spec RAND_MAX rand lower upper i nr nc nc 0 k out Hshape)
      as (Hs & Hk & Hc).
    destruct (uniform_row RAND_MAX rand lower upper i nc 0 k out) as [out' k'].
    cbn [fst snd] in Hs, Hk, Hc. subst k'.
    destruct (IH (i + 1)%nat (k + nc)%nat out' Hs) as (Hs' & Hk' & Hc'); [lia|].
    split; [exact Hs'|]. split; [rewrite Hk'; lia|].
    intros i' j'. rewrite Hc', Hc.
    destruct (decide ((i + 1 <= i' < i + 1 + n)%nat /\ (j' < nc)%nat)) as [Hin|Hout].
    + destruct (decide _) as [_|Hno]; [|exfalso; apply Hno; lia].
      f_equal. f_equal. nia.
    + destruct (decide (i' = i /\ (0 <= j' < 0 + nc)%nat /\ (i < nr)%nat /\ (j' < nc)%nat))
        as [(-> & Hj & _)|Hne].
      * destruct (decide _) as [_|Hno]; [|exfalso; apply Hno; lia].
        f_equal. f_equal. rewrite Nat.sub_diag. lia.
      * destruct (decide _) as [Hyes|_]; [exfalso|reflexivity].
        destruct (decide (i' = i)) as [->|Hi]; [apply Hne|apply Hout]; lia.
Qed.

(** X20.  For an [out] of [nr] rows and [nc] columns, [uniform] calls
    [rand()] once per coefficient, row after row, keeps the shape, and
    writes at [(i,j)] the value [(r / RAND_MAX) * (upper - lower) + lower]
    for the [r] of call number [i*nc + j].  When [RAND_MAX] is positive,
    the values of [rand()] are between 0 and [RAND_MAX], and the lower
    bounds are at most the upper bounds, every coefficient is between its
    two bounds. *)
Theorem uniform_within_bounds
    (RAND_MAX : Z) (rand : nat -> Z) (lower upper out : MatrixXX) (nr nc : nat) :
  shape out nr nc ->
  (0 < RAND_MAX)%Z ->
  (forall k, (0 <= rand k <= RAND_MAX)%Z) ->
  (forall i j, (i < nr)%nat -> (j < nc)%nat ->
     MXX.coeff lower i j <= MXX.coeff upper i j) ->
  let sample := fst (uniform RAND_MAX rand lower upper out) in
  shape sample nr nc /\
  snd (uniform RAND_MAX rand lower upper out) = (nr * nc)%nat /\
  forall i j, (i < nr)%nat -> (j < nc)%nat ->
    MXX.coeff sample i j
    = uniform_value RAND_MAX (rand (i * nc + j)%nat) lower upper i j /\
    MXX.coeff lower i j <= MXX.coeff sample i j <= MXX.coeff upper i j.
Proof.
  intros Hshape Hmax Hrand Hbounds sample. unfold sample, uniform. clear sample.
  destruct Hshape as [Hlen Hrows].
  destruct out as [|row0 out].
  - cbn in Hlen. subst nr. cbn. split; [split; [reflexivity|constructor]|].
    split; [reflexivity|]. intros i j Hi. lia.
  - assert (length row0 = nc) as Hnc by (inversion Hrows; assumption).
    cbn [nth]. rewrite Hnc, Hlen.
    destruct (uniform_rows_spec RAND_MAX rand lower upper nr nc nr 0 0 (row0 :: out)
                (conj Hlen Hrows)) as (Hs & Hk & Hc); [lia|].
    split; [exact Hs|]. split; [rewrite Hk; lia|].
    intros i j Hi Hj. rewrite Hc.
    destruct (decide _) as [_|Hno]; [|exfalso; apply Hno; lia].
    rewrite Nat.sub_0_r. cbn [Nat.add]. split; [reflexivity|].
    unfold uniform_value. specialize (Hbounds i j Hi Hj).
    specialize (Hrand (i * nc + j)%nat).
    assert (0 < IZR RAND_MAX) as Hpos by (apply IZR_lt; exact Hmax).
    assert (0 <= IZR (rand (i * nc + j)%nat) <= IZR RAND_MAX) as [Hlo Hhi]
      by (split; apply IZR_le; lia).
    assert (0 <= IZR (rand (i * nc + j)%nat) / IZR RAND_MAX <= 1) as [Ht0 Ht1].
    { split.
      - apply Rmult_le_pos; [exact Hlo|]. apply Rlt_le, Rinv_0_lt_compat. exact Hpos.
      - apply (Rmult_le_reg_r (IZR RAND_MAX)); [exact Hpos|].
        unfold Rdiv. rewrite Rmult_assoc, Rinv_l by lra. lra. }
    nra.
Qed.

Lemma uniform_within_bounds_witness :
  let lower := [[0; 0]] in
  let upper := [[1; 2]] in
  let sample := fst (uniform 32767 (fun _ => 0%Z) lower upper [[0; 0]]) in
  shape sample 1 2 /\
  snd (uniform 32767 (fun _ => 0%Z) lower upper [[0; 0]]) = (1 * 2)%nat /\
  forall i j, (i < 1)%nat -> (j < 2)%nat ->
    MXX.coeff sample i j
    = uniform_value 32767 0 lower upper i j /\
    MXX.coeff lower i j <= MXX.coeff sample i j <= MXX.coeff upper i j.
Proof.
  apply (uniform_within_bounds 32767 (fun _ => 0%Z) [[0; 0]] [[1; 2]] [[0; 0]] 1 2).
  - split; [reflexivity|repeat constructor].
  - lia.
  - intros k. lia.
  - intros i j Hi Hj.
    destruct i as [|i]; [|lia].
    destruct j as [|[|j]]; [| |lia]; unfold MXX.coeff; cbn [nth]; lra.
Defined.

(** ** The half-space representation, row by row *)

Section Projection.

Variable b_A : dd_Matrix.

Lemma copy_row_spec i nr nc : forall n j H,
  shape H nr nc ->
  (1 <= j)%nat ->
  shape (copy_row b_A i n j H) nr nc /\
  forall i' j',
    MXX.coeff (copy_row b_A i n j H) i' j'
    = if decide (i' = i /\ (j - 1 <= j' < j - 1 + n)%nat /\ (i < nr)%nat /\ (j' < nc)%nat)
      then - MXX.coeff (matrix b_A) i (j' + 1)
      else MXX.coeff H i' j'.
Proof.
  induction n as [|n IH]; intros j H Hshape Hj; cbn [copy_row].
  - split; [exact Hshape|].
    intros i' j'. destruct (decide _) as [Hin|_]; [lia|reflexivity].
  - destruct (IH (j + 1)%nat
                (MXX.set H i (j - 1) (- MXX.coeff (matrix b_A) i j))
                (shape_set _ _ _ _ _ _ Hshape)) as (Hs & Hc); [lia|].
    split; [exact Hs|].
    intros i' j'. rewrite Hc, (coeff_set H nr nc) by exact Hshape.
    destruct (decide (i' = i /\ (j + 1 - 1 <= j' < j + 1 - 1 + n)%nat
                      /\ (i < nr)%nat /\ (j' < nc)%nat)) as [Hin|Hout].
    + destruct (decide _) as [_|Hno]; [reflexivity|exfalso; apply Hno; lia].
    + destruct (decide (i' = i /\ j' = (j - 1)%nat /\ (i < nr)%nat /\ (j - 1 < nc)%nat))
        as [(-> & -> & Hi & Hjn)|Hne].
      * destruct (decide _) as [_|Hno]; [|exfalso; apply Hno; lia].
        replace (j - 1 + 1)%nat with j by lia. reflexivity.
      * destruct (decide _) as [Hyes|_]; [exfalso|reflexivity].
        destruct (decide (j' = (j - 1)%nat)) as [->|Hj']; [apply Hne|apply Hout]; lia.
Qed.

Lemma coeff_insert (h : list R) i x i' :
  VX.coeff (<[i := x]> h) i'
  = if decide (i' = i /\ (i < length h)%nat) then x else VX.coeff h i'.
Proof.
  unfold VX.coeff. rewrite !nth_lookup.
  destruct (decide (i' = i)) as [->|Hne].
  - destruct (decide (i < length h)%nat) as [Hlt|Hge].
    + rewrite list_lookup_insert_eq by exact Hlt.
      destruct (decide _) as [_|Hno]; [reflexivity|exfalso; apply Hno; lia].
    + rewrite list_insert_ge by lia.
      destruct (decide _) as [Hyes|_]; [lia|reflexivity].
  - rewrite list_lookup_insert_ne by congruence.
    destruct (decide _) as [Hyes|_]; [exfalso; lia|reflexivity].
Qed.

Lemma copy_rows_spec nr nc : forall n i H h,
  shape H nr nc ->
  length h = nr ->
  shape (fst (copy_rows b_A n i H h)) nr nc /\
  length (snd (copy_rows b_A n i H h)) = nr /\
  (forall i' j',
     MXX.coeff (fst (copy_rows b_A n i H h)) i' j'
     = if decide ((i <= i' < i + n)%nat /\ (i' < nr)%nat
                  /\ (j' < colsize b_A - 1)%nat /\ (j' < nc)%nat)
       then - MXX.coeff (matrix b_A) i' (j' + 1)
       else MXX.coeff H i' j') /\
  (forall i',
     VX.coeff (snd (copy_rows b_A n i H h)) i'
     = if decide ((i <= i' < i + n)%nat /\ (i' < nr)%nat)
       then MXX.coeff (matrix b_A) i' 0
       else VX.coeff h i').
Proof.
  induction n as [|n IH]; intros i H h Hshape Hlen; cbn [copy_rows fst snd].
  - split; [exact Hshape|]. split; [exact Hlen|]. split.
    + intros i' j'. destruct (decide _) as [Hin|_]; [lia|reflexivity].
    + intros i'. destruct (decide _) as [Hin|_]; [lia|reflexivity].
  - destruct (copy_row_spec i nr nc (colsize b_A - 1) 1 H Hshape) as (Hs & Hc); [lia|].
    destruct (IH (i + 1)%nat (copy_row b_A i (colsize b_A - 1) 1 H)
                (<[i := MXX.coeff (matrix b_A) i 0]> h) Hs)
      as (Hs' & Hl' & Hc' & Hh'); [rewrite length_insert; exact Hlen|].
    split; [exact Hs'|]. split; [exact Hl'|]. split.
    + intros i' j'. rewrite Hc', Hc.
      destruct (decide ((i + 1 <= i' < i + 1 + n)%nat /\ (i' < nr)%nat
                        /\ (j' < colsize b_A - 1)%nat /\ (j' < nc)%nat)) as [Hin|Hout].
      * destruct (decide _) as [_|Hno]; [reflexivity|exfalso; apply Hno; lia].
      * destruct (decide (i' = i /\ (1 - 1 <= j' < 1 - 1 + (colsize b_A - 1))%nat
                          /\ (i < nr)%nat /\ (j' < nc)%nat)) as [(-> & Hj & Hi & Hjn)|Hne].
        -- destruct (decide _) as [_|Hno]; [reflexivity|exfalso; apply Hno; lia].
        -- destruct (decide _) as [Hyes|_]; [exfalso|reflexivity].
           destruct (decide (i' = i)) as [->|Hi]; [apply Hne|apply Hout]; lia.
    + intros i'. rewrite Hh', coeff_insert, Hlen.
      destruct (decide ((i + 1 <= i' < i + 1 + n)%nat /\ (i' < nr)%nat)) as [Hin|Hout].
      * destruct (decide _) as [_|Hno]; [reflexivity|exfalso; apply Hno; lia].
      * destruct (decide (i' = i /\ (i < nr)%nat)) as [(-> & Hi)|Hne].
        -- destruct (decide _) as [_|Hno]; [reflexivity|exfalso; apply Hno; lia].
        -- destruct (decide _) as [Hyes|_]; [exfalso|reflexivity].
           destruct (decide (i' = i)) as [->|Hi]; [apply Hne|apply Hout]; lia.
Qed.

End Projection.

Lemma complement_rows_shape RowMajor nr nc rowsize : forall eq_rows i H h nr' nc',
  shape H nr' nc' ->
  shape (fst (complement_rows RowMajor nr nc rowsize eq_rows i H h)) nr' nc' /\
  length (snd (complement_rows RowMajor nr nc rowsize eq_rows i H h)) = length h.
Proof.
  induction eq_rows as [|cit rest IH]; intros i H h nr' nc' Hshape;
    cbn [complement_rows fst snd].
  - split; [exact Hshape|reflexivity].
  - match goal with
    | |- context [complement_rows _ _ _ _ rest _ ?H' ?h'] =>
        destruct (IH (i + 1)%nat H' h' nr' nc') as (Hs & Hl)
    end.
    + unfold MXX.set_linear. apply shape_set. exact Hshape.
    + split; [exact Hs|]. rewrite Hl. apply length_insert.
Qed.

Lemma resize_H_shape old nr nc mem : shape (resize_H old nr nc mem) nr nc.
Proof.
  unfold resize_H, shape.
  destruct (_ && _)%bool eqn:Hkeep.
  - apply andb_true_iff in Hkeep as [Hlen Hrows].
    apply Nat.eqb_eq in Hlen. split; [exact Hlen|].
    apply Forall_forall. intros r Hr.
    rewrite forallb_forall in Hrows. apply Nat.eqb_eq. apply Hrows.
    apply list_elem_of_In. exact Hr.
  - split; [rewrite length_map; apply length_seq|].
    apply Forall_forall. intros r Hr. apply list_elem_of_In, in_map_iff in Hr.
    destruct Hr as (i & <- & _). rewrite length_map. apply length_seq.
Qed.

Lemma resize_h_length old n mem : length (resize_h old n mem) = n.
Proof.
  unfold resize_h. destruct (length old =? n)%nat eqn:E.
  - apply Nat.eqb_eq in E. exact E.
  - rewrite length_map. apply length_seq.
Qed.

Lemma projection_shape
    {LPS P : Type} {cdd_interface : CddLib P} (RowMajor : bool)
    (st : @StaticEquilibrium LPS) (v : Matrix6X) (mem : Uninit) :
  let r := computePolytopeProjection RowMajor st v mem in
  let answer := dd_DDMatrix2Poly (cone_span_eigen_to_cdd (M6X.transpose v) 6) in
  let b_A := dd_CopyInequalities (fst answer) in
  let nr := (rowsize b_A + length (equality_rows b_A))%nat in
  snd answer = dd_NoError ->
  shape (m_H (self r)) nr (colsize b_A - 1) /\
  length (m_h (self r)) = nr.
Proof.
  intros r answer b_A nr Herr. unfold r, nr, b_A, answer in *. clear r nr b_A answer.
  split.
  - unfold computePolytopeProjection.
    destruct (dd_DDMatrix2Poly _) as [H_ error]. cbn [fst snd] in *. subst error.
    match goal with
    | |- context [copy_rows ?b ?n ?i ?H ?h] =>
        destruct (copy_rows_spec b _ _ n i H h (resize_H_shape _ _ _ _)
                    (resize_h_length _ _ _)) as (Hs & _);
        destruct (copy_rows b n i H h) as [H1 h1]
    end.
    cbn [fst] in Hs.
    match goal with
    | |- context [complement_rows ?rm ?a ?b ?c ?l ?i H1 h1] =>
        destruct (complement_rows_shape rm a b c l i H1 h1 _ _ Hs) as (Hs' & _);
        destruct (complement_rows rm a b c l i H1 h1) as [H2 h2]
    end.
    exact Hs'.
  - unfold computePolytopeProjection.
    destruct (dd_DDMatrix2Poly _) as [H_ error]. cbn [fst snd] in *. subst error.
    match goal with
    | |- context [copy_rows ?b ?n ?i ?H ?h] =>
        destruct (copy_rows_spec b _ _ n i H h (resize_H_shape _ _ _ _)
                    (resize_h_length _ _ _)) as (Hs & Hl & _);
        destruct (copy_rows b n i H h) as [H1 h1]
    end.
    cbn [fst snd] in Hs, Hl.
    match goal with
    | |- context [complement_rows ?rm ?a ?b ?c ?l ?i H1 h1] =>
        destruct (complement_rows_shape rm a b c l i H1 h1 _ _ Hs) as (_ & Hl');
        destruct (complement_rows rm a b c l i H1 h1) as [H2 h2]
    end.
    cbn [snd] in Hl'. cbn. rewrite Hl'. exact Hl.
Qed.

(** X21.  When cddlib reports no error, [computePolytopeProjection]
    returns [true] with an [m_H] of as many rows as cddlib's matrix has,
    plus one per row of its linearity set, and one column less than
    cddlib's matrix, and an [m_h] of that many coefficients; no other
    member of the engine is written. *)
Theorem computePolytopeProjection_shape
    {LPS P : Type} {cdd_interface : CddLib P} (RowMajor : bool)
    (st : @StaticEquilibrium LPS) (v : Matrix6X) (mem : Uninit) :
  let r := computePolytopeProjection RowMajor st v mem in
  let answer := dd_DDMatrix2Poly (cone_span_eigen_to_cdd (M6X.transpose v) 6) in
  let b_A := dd_CopyInequalities (fst answer) in
  let nr := (rowsize b_A + length (equality_rows b_A))%nat in
  snd answer = dd_NoError ->
  ret r = true /\
  shape (m_H (self r)) nr (colsize b_A - 1) /\
  length (m_h (self r)) = nr /\
  same_but_H_h st (self r).
Proof.
  intros r answer b_A nr Herr.
  split; [apply computePolytopeProjection_ret; exact Herr|].
  destruct (projection_shape RowMajor st v mem Herr) as [HH Hh].
  split; [exact HH|]. split; [exact Hh|].
  apply computePolytopeProjection_same.
Qed.

Lemma computePolytopeProjection_shape_witness :
  let r := computePolytopeProjection
             (cdd_interface := Scenario.projecting Scenario.two_rows) false
             (Scenario.robot LP_STATUS_OPTIMAL 0 SOLVER_LP_QPOASES) [] Scenario.zeroed in
  ret r = true /\
  shape (m_H (self r)) 3 6 /\
  length (m_h (self r)) = 3%nat /\
  same_but_H_h (Scenario.robot LP_STATUS_OPTIMAL 0 SOLVER_LP_QPOASES) (self r).
Proof.
  apply (computePolytopeProjection_shape
           (cdd_interface := Scenario.projecting Scenario.two_rows) false
           (Scenario.robot LP_STATUS_OPTIMAL 0 SOLVER_LP_QPOASES) [] Scenario.zeroed).
  reflexivity.
Defined.

(** X22.  When cddlib reports no error and an empty linearity set, the
    half-space representation that [computePolytopeProjection] stores is
    cddlib's matrix with the sign of the coefficients changed: [m_h(i)] is
    the first coefficient of row [i] and [m_H(i,j)] the negation of its
    coefficient [j+1], so that cddlib's [b + A x >= 0] reads
    [m_H x <= m_h]. *)
Theorem computePolytopeProjection_without_equalities
    {LPS P : Type} {cdd_interface : CddLib P} (RowMajor : bool)
    (st : @StaticEquilibrium LPS) (v : Matrix6X) (mem : Uninit) (i j : nat) :
  let r := computePolytopeProjection RowMajor st v mem in
  let answer := dd_DDMatrix2Poly (cone_span_eigen_to_cdd (M6X.transpose v) 6) in
  let b_A := dd_CopyInequalities (fst answer) in
  snd answer = dd_NoError ->
  equality_rows b_A = [] ->
  (i < rowsize b_A)%nat ->
  (j < colsize b_A - 1)%nat ->
  shape (m_H (self r)) (rowsize b_A) (colsize b_A - 1) /\
  length (m_h (self r)) = rowsize b_A /\
  MXX.coeff (m_H (self r)) i j = - MXX.coeff (matrix b_A) i (j + 1) /\
  VX.coeff (m_h (self r)) i = MXX.coeff (matrix b_A) i 0.
Proof.
  intros r answer b_A Herr Heq Hi Hj. unfold r, b_A, answer in *. clear r b_A answer.
  unfold computePolytopeProjection.
  destruct (dd_DDMatrix2Poly _) as [H_ error]. cbn [fst snd] in *. subst error.
  rewrite Heq. cbn [length complement_rows]. rewrite Nat.add_0_r.
  match goal with
  | |- context [copy_rows ?b ?n ?k ?H ?h] =>
      destruct (copy_rows_spec b _ _ n k H h (resize_H_shape _ _ _ _)
                  (resize_h_length _ _ _)) as (Hs & Hl & Hc & Hh);
      destruct (copy_rows b n k H h) as [H1 h1]
  end.
  cbn [fst snd] in Hs, Hl, Hc, Hh. cbn [self m_H m_h with_H_h].
  split; [exact Hs|]. split; [exact Hl|]. rewrite Hc, Hh. split.
  - destruct (decide _) as [_|Hno]; [reflexivity|exfalso; apply Hno; lia].
  - destruct (decide _) as [_|Hno]; [reflexivity|exfalso; apply Hno; lia].
Qed.

Lemma computePolytopeProjection_without_equalities_witness :
  let r := computePolytopeProjection
             (cdd_interface := Scenario.projecting Scenario.two_inequalities) true
             (Scenario.robot LP_STATUS_OPTIMAL 0 SOLVER_LP_QPOASES) [] Scenario.zeroed in
  shape (m_H (self r)) 2 6 /\
  length (m_h (self r)) = 2%nat /\
  MXX.coeff (m_H (self r)) 1 2 = - MXX.coeff (matrix Scenario.two_inequalities) 1 3 /\
  VX.coeff (m_h (self r)) 1 = MXX.coeff (matrix Scenario.two_inequalities) 1 0.
Proof.
  apply (computePolytopeProjection_without_equalities
           (cdd_interface := Scenario.projecting Scenario.two_inequalities) true
           (Scenario.robot LP_STATUS_OPTIMAL 0 SOLVER_LP_QPOASES) [] Scenario.zeroed 1 2).
  - reflexivity.
  - reflexivity.
  - cbn. lia.
  - cbn. lia.
Defined.

(** X23.  [computePolytopeProjection] calls cddlib once, before anything
    else, with the generators as rays of a cone: a matrix in generator
    representation with one row per column of the generator matrix, seven
    columns, an empty linearity set, and in each row a 0 followed by the
    six coordinates of the wrench. *)
Theorem computePolytopeProjection_cone
    {LPS P : Type} {cdd_interface : CddLib P} (RowMajor : bool)
    (st : @StaticEquilibrium LPS) (v : Matrix6X) (mem : Uninit) :
  exists V rest,
    events (computePolytopeProjection RowMajor st v mem)
    = CALL_dd_DDMatrix2Poly V :: rest /\
    cddlib_calls rest = 0%nat /\
    representation V = dd_Generator /\
    set_elems (linset V) = [] /\
    rowsize V = length v /\ colsize V = 7%nat /\
    shape (matrix V) (length v) 7 /\
    forall i w, v !! i = Some w ->
      matrix V !! i
      = Some [0; v0 (head3 w); v1 (head3 w); v2 (head3 w);
                 v0 (tail3 w); v1 (tail3 w); v2 (tail3 w)].
Proof.
  rewrite computePolytopeProjection_events.
  do 2 eexists. split; [reflexivity|].
  split; [destruct (ret _); reflexivity|].
  unfold cone_span_eigen_to_cdd, M6X.transpose, shape.
  cbn [representation linset set_elems rowsize colsize matrix].
  rewrite !length_map.
  repeat split; try reflexivity.
  - apply Forall_forall. intros r Hr.
    apply list_elem_of_In, in_map_iff in Hr. destruct Hr as (x & <- & Hx).
    apply in_map_iff in Hx. destruct Hx as (w & <- & _). reflexivity.
  - intros i w Hw. rewrite !list_lookup_fmap, Hw. reflexivity.
Qed.

(** ** The membership test as half-spaces of the gravity wrench *)

Lemma half_spaces_at_wrench (H : list (list R)) (D : Matrix63) (d : Vector6) (com : Vector3) :
  Forall (fun r => length r = 6%nat) H ->
  VX.add (MX3.mulv (MXX.mul63 H D) com) (MXX.mul6 H d)
  = MXX.mulv H (V6.to_list (V6.add (M63.mulv D com) d)).
Proof.
  unfold MXX.mul6, MXX.mulv, MXX.mul63, MX3.mulv, VX.add.
  induction 1 as [|r H Hr _ IH]; cbn [map zip_with]; [reflexivity|].
  f_equal; [|exact IH].
  destruct r as [|a [|b [|c [|e [|f [|g [|x r]]]]]]]; try discriminate Hr.
  destruct D as [[[t00 t01 t02] [t10 t11 t12] [t20 t21 t22]]
                 [[b00 b01 b02] [b10 b11 b12] [b20 b21 b22]]].
  destruct d as [[d0 d1 d2] [d3 d4 d5]]. destruct com as [x y z].
  unfold VX.dot, V3.dot, M63.rows, M63.mulv, M3.mulv, V6.add, V3.add, V6.to_list, V3.dot.
  cbn [topRows3 bottomRows3 row0 row1 row2 v0 v1 v2 head3 tail3 map zip_with foldr].
  ring.
Qed.

(** X24.  After a successful [setNewContacts] with the polytope projection
    for which cddlib's matrix has seven columns, and with at least one
    generator, [checkRobustEquilibrium] with [e_max = 0] answers [true]
    exactly when every row of [m_H], applied to the gravity wrench
    [m_D * com + m_d] of the CoM, is at most 0: the test is the membership
    of that wrench in the stored half-spaces, with [m_h] taken as zero. *)
Theorem checkRobustEquilibrium_tests_gravity_wrench
    {LPS P : Type} {cdd_interface : CddLib P} (RowMajor : bool)
    (st : @StaticEquilibrium LPS) (contactPoints contactNormals : MatrixX3)
    (mu : R) (mem : Uninit) (com : Vector3) (equilibrium : bool) :
  let r := setNewContacts RowMajor st contactPoints contactNormals mu
             STATIC_EQUILIBRIUM_ALGORITHM_PP mem in
  let st' := self r in
  let b_A := dd_CopyInequalities
               (fst (dd_DDMatrix2Poly
                       (cone_span_eigen_to_cdd (M6X.transpose (m_G_centr st')) 6))) in
  ret r = true ->
  m_G_centr st' <> [] ->
  colsize b_A = 7%nat ->
  (out (checkRobustEquilibrium st' com equilibrium 0) = true
   <-> Forall (fun x => x <= 0)
         (MXX.mulv (m_H st') (V6.to_list (gravity_wrench st' com)))).
Proof.
  intros r st' b_A Hret Hne Hcols. unfold b_A, st', r in *. clear b_A st' r.
  assert (implemented STATIC_EQUILIBRIUM_ALGORITHM_PP) as Hpp by (split; discriminate).
  pose proof (setNewContacts_algorithm RowMajor st contactPoints contactNormals
                mu _ mem Hpp) as Halg.
  destruct (setNewContacts_PP_cache RowMajor st contactPoints contactNormals mu mem Hret)
    as [HHD HHd].
  rewrite (checkRobustEquilibrium_PP _ com equilibrium Hne Halg).
  cbn [out]. rewrite no_positive_row_Forall, HHD, HHd.
  unfold gravity_wrench. rewrite half_spaces_at_wrench; [reflexivity|].
  destruct (setNewContacts_success RowMajor _ _ _ _ _ _ Hret) as (_ & Gc & G & Hloop).
  rewrite (setNewContacts_G_centr RowMajor _ _ _ _ _ _ _ _ _ Hpp Hloop) in Hcols.
  rewrite (setNewContacts_accepted RowMajor _ _ _ _ _ _ _ _ Hpp Hloop) in Hret |- *.
  cbn zeta in Hret |- *.
  match goal with
  | |- context [computePolytopeProjection RowMajor ?s ?v ?m] =>
      pose proof (computePolytopeProjection_ret RowMajor s v m) as Hproj;
      pose proof (projection_shape RowMajor s v m) as Hshape;
      destruct (ret (computePolytopeProjection RowMajor s v m)); [|discriminate Hret]
  end.
  cbn zeta in Hshape. destruct Hshape as [[_ Hrows] _]; [apply Hproj; reflexivity|].
  cbn [self m_H with_HD_Hd]. rewrite Hcols in Hrows. exact Hrows.
Qed.

Lemma checkRobustEquilibrium_tests_gravity_wrench_witness :
  let st' := Scenario.standing Scenario.two_rows false LP_STATUS_OPTIMAL 0
               SOLVER_LP_QPOASES STATIC_EQUILIBRIUM_ALGORITHM_PP in
  let com := vec3 0 0 0.5 in
  (out (checkRobustEquilibrium st' com false 0) = true
   <-> Forall (fun x => x <= 0)
         (MXX.mulv (m_H st') (V6.to_list (gravity_wrench st' com)))).
Proof.
  apply (checkRobustEquilibrium_tests_gravity_wrench
           (cdd_interface := Scenario.projecting Scenario.two_rows) false
           (Scenario.robot LP_STATUS_OPTIMAL 0 SOLVER_LP_QPOASES)
           Scenario.origin Scenario.upward 0.5 Scenario.zeroed
           (vec3 0 0 0.5) false).
  - apply standing_projection_succeeds.
  - apply (standing_nonempty Scenario.two_rows false LP_STATUS_OPTIMAL 0
             SOLVER_LP_QPOASES STATIC_EQUILIBRIUM_ALGORITHM_PP).
    split; discriminate.
  - reflexivity.
Defined.

(** ** What the dual problems ask *)

Lemma insert_last {A : Type} (m : nat) (x y : A) :
  <[m := x]> (replicate (m + 1) y) = replicate m y ++ [x].
Proof. induction m as [|m IH]; cbn; [reflexivity|]. f_equal. exact IH. Qed.

Lemma dot_to_list_add a b v :
  VX.dot (V6.to_list (V6.add a b)) v
  = VX.dot (V6.to_list a) v + VX.dot (V6.to_list b) v.
Proof.
  unfold VX.dot, V6.to_list, V6.add, V3.add. cbn [head3 tail3 v0 v1 v2].
  destruct v as [|x1 [|x2 [|x3 [|x4 [|x5 [|x6 v]]]]]];
    cbn [zip_with foldr]; ring.
Qed.

Lemma dot_to_list_Zero v : VX.dot (V6.to_list V6.Zero) v = 0.
Proof.
  unfold VX.dot, V6.to_list, V6.Zero, V3.Zero. cbn [head3 tail3 v0 v1 v2].
  destruct v as [|x1 [|x2 [|x3 [|x4 [|x5 [|x6 v]]]]]];
    cbn [zip_with foldr]; ring.
Qed.

Lemma dot_mul_ones (G : list Vector6) v :
  VX.dot (V6.to_list (M6X.mul_ones G)) v
  = foldr Rplus 0 (map (fun g => VX.dot (V6.to_list g) v) G).
Proof.
  unfold M6X.mul_ones. induction G as [|g G IH]; cbn [foldr map].
  - apply dot_to_list_Zero.
  - rewrite dot_to_list_add, IH. reflexivity.
Qed.

Lemma generators_nonnegative (G : list Vector6) v lo :
  Forall2 Rle (replicate (length G) lo) (MXX.mulv (M6X.transpose G) v) ->
  Forall (fun g => lo <= VX.dot (V6.to_list g) v) G.
Proof.
  unfold MXX.mulv, M6X.transpose.
  induction G as [|g G IH]; cbn [length replicate map]; intros Hall.
  - constructor.
  - inversion Hall; subst. constructor; [assumption|apply IH; assumption].
Qed.

Lemma dual_constraints (G : list Vector6) (last_row : list R) (rhs big : R) v :
  Forall2 Rle (<[length G := rhs]> (VX.Zero (length G + 1)))
    (MXX.mulv (M6X.transpose G ++ [last_row]) v) ->
  Forall2 Rle (MXX.mulv (M6X.transpose G ++ [last_row]) v)
    (<[length G := rhs]> (VX.scale big (VX.Ones (length G + 1)))) ->
  Forall (fun g => 0 <= VX.dot (V6.to_list g) v) G /\ VX.dot last_row v = rhs.
Proof.
  unfold VX.Zero, VX.Ones. rewrite scale_replicate, !insert_last.
  unfold MXX.mulv. rewrite map_app. cbn [map].
  intros Hlow Hup.
  apply Forall2_app_inv in Hlow as [Hlow Hlast];
    [|rewrite length_replicate, length_map; unfold M6X.transpose; rewrite length_map;
      reflexivity].
  apply Forall2_app_inv in Hup as [_ Hlast'];
    [|rewrite length_replicate, length_map; unfold M6X.transpose; rewrite length_map;
      reflexivity].
  split.
  - apply generators_nonnegative. exact Hlow.
  - inversion Hlast; subst. inversion Hlast'; subst. lra.
Qed.

(** X25.  The constraints of the two dual problems are those that the
    source announces.  A point [v] feasible for the dual problem of
    [computeEquilibriumRobustness] has a nonnegative product with every
    generator, and these products sum to 1; a point feasible for the dual
    problem of [findExtremumOverLine] has a nonnegative product with every
    generator, and the product -1 with [m_D * a]. *)
Theorem dual_problems_feasible_points
    {LPS : Type} (st : @StaticEquilibrium LPS) (com a a0 : Vector3) (b0 : R)
    (v : VectorX) :
  (LP_feasible (robustness_DLP st com) v ->
   Forall (fun g => 0 <= VX.dot (V6.to_list g) v) (m_G_centr st) /\
   foldr Rplus 0 (map (fun g => VX.dot (V6.to_list g) v) (m_G_centr st)) = 1) /\
  (LP_feasible (line_DLP st a a0 b0) v ->
   Forall (fun g => 0 <= VX.dot (V6.to_list g) v) (m_G_centr st) /\
   VX.dot (V6.to_list (M63.mulv (m_D st) a)) v = -1).
Proof.
  unfold LP_feasible, robustness_DLP, line_DLP.
  cbn [lp_lb lp_ub lp_A lp_Alb lp_Aub]. split.
  - intros (_ & _ & Hlow & Hup).
    destruct (dual_constraints _ _ _ _ _ Hlow Hup) as [Hgen Hsum].
    split; [exact Hgen|]. rewrite <- dot_mul_ones. exact Hsum.
  - intros (_ & _ & Hlow & Hup).
    apply (dual_constraints _ _ _ _ _ Hlow Hup).
Qed.

Lemma dual_problems_feasible_points_witness :
  let st := with_G_centr (Scenario.robot LP_STATUS_OPTIMAL 0 SOLVER_LP_QPOASES)
              [vec6 (vec3 0 0 1) V3.Zero] in
  let v := [0; 0; 1; 0; - (1) / 9.81; 0] in
  (Forall (fun g => 0 <= VX.dot (V6.to_list g) v) (m_G_centr st) /\
   foldr Rplus 0 (map (fun g => VX.dot (V6.to_list g) v) (m_G_centr st)) = 1) /\
  (Forall (fun g => 0 <= VX.dot (V6.to_list g) v) (m_G_centr st) /\
   VX.dot (V6.to_list (M63.mulv (m_D st) (vec3 1 0 0))) v = -1).
Proof.
  cbn zeta.
  pose proof (dual_problems_feasible_points
                (with_G_centr (Scenario.robot LP_STATUS_OPTIMAL 0 SOLVER_LP_QPOASES)
                   [vec6 (vec3 0 0 1) V3.Zero])
                (vec3 0 0 0.5) (vec3 1 0 0) (vec3 0 0 0.5) 0
                [0; 0; 1; 0; - (1) / 9.81; 0])
    as [Hrobustness Hline].
  split; [apply Hrobustness|apply Hline];
    unfold LP_feasible, robustness_DLP, line_DLP, VX.Ones, VX.Zero;
    rewrite !scale_replicate;
    cbn [lp_lb lp_ub lp_A lp_Alb lp_Aub m_G_centr with_G_centr length Nat.add
         replicate];
    unfold Scenario.robot, StaticEquilibrium_new;
    cbn [fst m_D with_G_centr];
    unfold MXX.mulv, M6X.transpose, M6X.mul_ones, VX.dot, V6.to_list, V6.add, V3.add,
      V6.Zero, M63.mulv, M3.mulv, M3.Zero, V3.dot, V3.scale, V3.Zero, crossMatrix;
    cbn [map app foldr zip_with head3 tail3 v0 v1 v2 insert list_insert
         topRows3 bottomRows3 row0 row1 row2];
    repeat split;
    repeat match goal with |- Forall2 _ _ _ => constructor end; lra.
Defined.

(** ** The generator matrix is rebuilt wholesale *)

(** X26.  With an accepted algorithm and normals that pass the norm test,
    the generator matrix that [setNewContacts] leaves depends only on the
    contacts, the friction coefficient and the number of generators per
    contact: two engines with the same number of generators per contact
    end with the same matrix, whatever they held before, whatever the
    storage held and whichever accepted algorithm is asked for. *)
Theorem generator_matrix_rebuilt
    {LPS P : Type} {cdd_interface : CddLib P} (RowMajor : bool)
    (st1 st2 : @StaticEquilibrium LPS) (contactPoints contactNormals : MatrixX3)
    (mu : R) (alg1 alg2 : StaticEquilibriumAlgorithm) (mem1 mem2 : Uninit) :
  implemented alg1 ->
  implemented alg2 ->
  (forall k, (k < length contactPoints)%nat -> unit_normal (row contactNormals k)) ->
  m_generatorsPerContact st1 = m_generatorsPerContact st2 ->
  m_G_centr (self (setNewContacts RowMajor st1 contactPoints contactNormals mu alg1 mem1))
  = m_G_centr (self (setNewContacts RowMajor st2 contactPoints contactNormals mu alg2 mem2)).
Proof.
  intros Halg1 Halg2 Hunit Hg.
  destruct (loop_exit st1 contactPoints contactNormals mu mem1) as [[ok1 G1] L1] eqn:Hloop1.
  destruct (loop_exit st2 contactPoints contactNormals mu mem2) as [[ok2 G2] L2] eqn:Hloop2.
  rewrite (setNewContacts_G_centr RowMajor _ _ _ _ _ _ _ _ _ Halg1 Hloop1).
  rewrite (setNewContacts_G_centr RowMajor _ _ _ _ _ _ _ _ _ Halg2 Hloop2).
  destruct (loop_exit_spec _ _ _ _ _ _ _ _ Hloop1) as (Hlen1 & Hok1 & Hcols1).
  destruct (loop_exit_spec _ _ _ _ _ _ _ _ Hloop2) as (Hlen2 & Hok2 & Hcols2).
  apply Hok1 in Hunit as Hret1. apply Hok2 in Hunit as Hret2.
  destruct (Hcols1 Hret1) as [Hblocks1 _]. destruct (Hcols2 Hret2) as [Hblocks2 _].
  rewrite <- Hg in Hlen2, Hblocks2.
  set (g := m_generatorsPerContact st1) in *.
  apply list_eq. intros k.
  destruct (decide (k < length contactPoints * g)%nat) as [Hk|Hk].
  - assert (g <> 0%nat) as Hpos by (intros Hz; rewrite Hz in Hk; lia).
    assert (k = g * (k / g) + k mod g)%nat as Hdiv by (apply Nat.div_mod_eq).
    assert (k / g < length contactPoints)%nat as Hi
      by (apply Nat.Div0.div_lt_upper_bound; lia).
    assert (k mod g < g)%nat as Hj by (apply Nat.mod_upper_bound; exact Hpos).
    rewrite Hdiv, (Hblocks1 _ _ Hi Hj), (Hblocks2 _ _ Hi Hj). reflexivity.
  - rewrite !lookup_ge_None_2 by lia. reflexivity.
Qed.

Lemma generator_matrix_rebuilt_witness :
  m_G_centr (self (setNewContacts (cdd_interface := Scenario.projecting Scenario.no_rows)
                     true (Scenario.robot LP_STATUS_OPTIMAL 0 SOLVER_LP_QPOASES)
                     Scenario.origin Scenario.upward 0.5
                     STATIC_EQUILIBRIUM_ALGORITHM_LP Scenario.zeroed))
  = m_G_centr (self (setNewContacts (cdd_interface := Scenario.projecting Scenario.no_rows)
                       true
                       (Scenario.standing Scenario.no_rows true LP_STATUS_OPTIMAL 0
                          SOLVER_LP_QPOASES STATIC_EQUILIBRIUM_ALGORITHM_PP)
                       Scenario.origin Scenario.upward 0.5
                       STATIC_EQUILIBRIUM_ALGORITHM_DLP Scenario.stale)).
Proof.
  apply (generator_matrix_rebuilt
           (cdd_interface := Scenario.projecting Scenario.no_rows) true).
  - split; discriminate.
  - split; discriminate.
  - apply upward_all_unit.
  - unfold Scenario.standing.
    destruct (setNewContacts_constants
                (cdd_interface := Scenario.projecting Scenario.no_rows) true
                (Scenario.robot LP_STATUS_OPTIMAL 0 SOLVER_LP_QPOASES)
                Scenario.origin Scenario.upward 0.5
                STATIC_EQUILIBRIUM_ALGORITHM_PP Scenario.zeroed)
      as (_ & _ & _ & ->).
    reflexivity.
Defined.

(** ** What the first primal problem asks *)

Lemma sum_app (l k : list R) :
  foldr Rplus 0 (l ++ k) = foldr Rplus 0 l + foldr Rplus 0 k.
Proof. induction l as [|x l IH]; cbn [app foldr]; [ring|]. rewrite IH. ring. Qed.

Lemma dot_app (r r' b b' : list R) :
  length r = length b ->
  VX.dot (r ++ r') (b ++ b') = VX.dot r b + VX.dot r' b'.
Proof.
  intros Hlen. unfold VX.dot. rewrite zip_with_app by exact Hlen. apply sum_app.
Qed.

Lemma dot_app_last (r b : list R) (z y : R) :
  length r = length b ->
  VX.dot (r ++ [z]) (b ++ [y]) = VX.dot r b + z * y.
Proof.
  intros Hlen. rewrite dot_app by exact Hlen.
  unfold VX.dot at 2. cbn [zip_with foldr]. ring.
Qed.

Lemma dot_zeros (b : list R) n : VX.dot (replicate n 0) b = 0.
Proof.
  unfold VX.dot. revert b. induction n as [|n IH]; intros [|x b]; cbn; try reflexivity.
  rewrite IH. ring.
Qed.

Lemma dot_unit (b : list R) : forall i,
  (i < length b)%nat ->
  VX.dot (<[i := 1]> (replicate (length b) 0)) b = nth i b 0.
Proof.
  induction b as [|x b IH]; intros i Hi; [cbn in Hi; lia|].
  destruct i as [|i]; cbn [length nth].
  - change (<[0%nat := 1]> (replicate (S (length b)) 0))
      with (1 :: replicate (length b) 0).
    unfold VX.dot. cbn [zip_with foldr]. fold (VX.dot (replicate (length b) 0) b).
    rewrite dot_zeros. ring.
  - change (<[S i := 1]> (replicate (S (length b)) 0))
      with (0 :: <[i := 1]> (replicate (length b) 0)).
    unfold VX.dot. cbn [zip_with foldr].
    fold (VX.dot (<[i := 1]> (replicate (length b) 0)) b).
    rewrite IH by (cbn in Hi; lia). ring.
Qed.

Lemma Rle_antisym_list (l k : list R) : Forall2 Rle l k -> Forall2 Rle k l -> l = k.
Proof.
  induction 1 as [|x y l k Hxy _ IH]; intros Hback; [reflexivity|].
  inversion Hback; subst. f_equal; [lra|apply IH; assumption].
Qed.

Lemma hcat_rows_column {A : Type} (g : A -> list R) (y : R) (l : list A) :
  MXX.hcat (map g l) (MXX.col (replicate (length l) y)) = map (fun i => g i ++ [y]) l.
Proof.
  unfold MXX.hcat, MXX.col. induction l as [|x l IH]; cbn; [reflexivity|].
  f_equal. exact IH.
Qed.

(** X27.  The constraints of the first primal problem of
    [computeEquilibriumRobustness] are those that the source announces.  A
    feasible point [(b, b0)], with one coefficient of [b] per generator,
    satisfies [G b = m_D * com + m_d], row by row, and every coefficient of
    [b] is at least [b0]. *)
Theorem primal_problem_feasible_points
    {LPS : Type} (st : @StaticEquilibrium LPS) (com : Vector3)
    (b : VectorX) (b0 : R) :
  length b = length (m_G_centr st) ->
  LP_feasible (robustness_LP st com) (b ++ [b0]) ->
  map (fun row => VX.dot row b) (M6X.rows (m_G_centr st))
  = V6.to_list (gravity_wrench st com) /\
  Forall (fun bi => b0 <= bi) b.
Proof.
  intros Hlen (_ & _ & Hlow & Hup).
  unfold robustness_LP in Hlow, Hup. cbn [lp_A lp_Alb lp_Aub] in Hlow, Hup.
  set (G := m_G_centr st) in *. set (w := gravity_wrench st com) in *.
  unfold VX.set_head, VX.Zero, VX.Ones in Hlow, Hup.
  rewrite scale_replicate, neg_replicate in *.
  rewrite length_to_list, drop_replicate in Hlow, Hup.
  replace (6 + length G - 6)%nat with (length G) in Hlow, Hup by lia.
  unfold MXX.mulv in Hlow, Hup. rewrite map_app in Hlow, Hup.
  assert (length (map (fun r => VX.dot r (b ++ [b0]))
                    (MXX.hcat (M6X.rows G) (MXX.col (replicate 6 0)))) = 6%nat)
    as Htop by reflexivity.
  apply Forall2_app_inv in Hlow as [Hlow6 Hlow_m]; [|rewrite Htop; reflexivity].
  apply Forall2_app_inv in Hup as [Hup6 _]; [|rewrite Htop; reflexivity].
  split.
  - pose proof (Rle_antisym_list _ _ Hlow6 Hup6) as Heq. rewrite Heq.
    unfold M6X.rows, MXX.hcat, MXX.col.
    cbn [replicate map zip_with].
    rewrite !dot_app_last by (rewrite length_map; symmetry; exact Hlen).
    repeat f_equal; ring.
  - rewrite <- (length_seq (length G) 0) in Hlow_m at 3.
    unfold MXX.Identity in Hlow_m.
    rewrite (hcat_rows_column (fun i => <[i := 1]> (replicate (length G) 0)) (- (1))
               (seq 0 (length G))) in Hlow_m.
    rewrite map_map in Hlow_m.
    apply Forall_lookup. intros i bi Hbi.
    apply lookup_lt_Some in Hbi as Hi.
    assert (replicate (length G) 0 !! i = Some 0) as Hzero
      by (apply lookup_replicate_2; lia).
    assert (map (fun x => VX.dot (<[x := 1]> (replicate (length G) 0) ++ [- (1)])
                            (b ++ [b0])) (seq 0 (length G)) !! i
            = Some (VX.dot (<[i := 1]> (replicate (length G) 0) ++ [- (1)]) (b ++ [b0])))
      as Hrow.
    { rewrite list_lookup_fmap, lookup_seq_lt by lia. reflexivity. }
    pose proof (Forall2_lookup_lr _ _ _ _ _ _ Hlow_m Hzero Hrow) as Hle.
    rewrite dot_app_last in Hle
      by (rewrite length_insert, length_replicate; symmetry; exact Hlen).
    rewrite <- Hlen, dot_unit in Hle by exact Hi.
    rewrite (nth_lookup_Some _ _ _ _ Hbi) in Hle. lra.
Qed.

Lemma primal_problem_feasible_points_witness :
  let st := with_G_centr (Scenario.robot LP_STATUS_OPTIMAL 0 SOLVER_LP_QPOASES)
              [vec6 (vec3 0 0 1) V3.Zero] in
  let com := vec3 0 0 0 in
  map (fun row => VX.dot row [-9.81]) (M6X.rows (m_G_centr st))
  = V6.to_list (gravity_wrench st com) /\
  Forall (fun bi => -10 <= bi) [-9.81].
Proof.
  cbn zeta.
  apply (primal_problem_feasible_points
           (with_G_centr (Scenario.robot LP_STATUS_OPTIMAL 0 SOLVER_LP_QPOASES)
              [vec6 (vec3 0 0 1) V3.Zero])
           (vec3 0 0 0) [-9.81] (-10)); [reflexivity|].
  unfold LP_feasible, robustness_LP, VX.Ones, VX.Zero, VX.set_head.
  rewrite !scale_replicate, !neg_replicate, !scale_replicate.
  cbn [lp_lb lp_ub lp_A lp_Alb lp_Aub m_G_centr with_G_centr length Nat.add
       replicate].
  unfold gravity_wrench, Scenario.robot, StaticEquilibrium_new.
  cbn [fst m_D m_d with_G_centr].
  unfold MXX.mulv, MXX.hcat, MXX.col, MXX.Identity, M6X.rows, VX.dot, VX.Zero,
    V6.to_list, V6.add, V3.add, M63.mulv, M3.mulv, M3.Zero, V3.dot, V3.scale, V3.Zero,
    crossMatrix.
  cbn [map app foldr zip_with head3 tail3 v0 v1 v2 insert list_insert seq length drop
       replicate topRows3 bottomRows3 row0 row1 row2].
  repeat split;
    repeat match goal with |- Forall2 _ _ _ => constructor end; lra.
Defined.

(** ** The primal problems in the shifted coefficients *)

Ltac coefficientwise tac :=
  repeat match goal with |- _ :: _ = _ :: _ => f_equal end; tac.

Lemma dot_shift (f : Vector6 -> R) (G : list Vector6) (b0 : R) :
  (forall x y, f (V6.add x y) = f x + f y) ->
  f V6.Zero = 0 ->
  forall b : list R,
  length b = length G ->
  VX.dot (map f G) (map (fun bi => bi + b0) b)
  = VX.dot (map f G) b + f (M6X.mul_ones G) * b0.
Proof.
  intros Hadd Hzero. unfold VX.dot, M6X.mul_ones.
  induction G as [|g G IH]; intros [|x b] Hlen; try discriminate Hlen.
  - cbn [map zip_with foldr]. rewrite Hzero. ring.
  - cbn [map zip_with foldr]. rewrite Hadd, IH by (injection Hlen; auto). ring.
Qed.

Lemma Rle_replicate_below (y : R) (b : list R) :
  Forall2 Rle (replicate (length b) y) b -> Forall (fun bi => y <= bi) b.
Proof.
  induction b as [|x b IH]; cbn [length replicate]; intros Hall.
  - constructor.
  - inversion Hall; subst. constructor; [assumption|apply IH; assumption].
Qed.

Lemma shifted_rows (G : list Vector6) (last : Vector6) (w : Vector6)
    (b : list R) (y : R) :
  length b = length G ->
  Forall2 Rle (V6.to_list w)
    (MXX.mulv (MXX.hcat (M6X.rows G) (MXX.col (V6.to_list last))) (b ++ [y])) ->
  Forall2 Rle
    (MXX.mulv (MXX.hcat (M6X.rows G) (MXX.col (V6.to_list last))) (b ++ [y]))
    (V6.to_list w) ->
  map (fun row => VX.dot row b) (M6X.rows G)
  = V6.to_list (V6.sub w (V6.scale y last)).
Proof.
  intros Hlen Hlow Hup.
  pose proof (Rle_antisym_list _ _ Hlow Hup) as Heq.
  unfold MXX.mulv, M6X.rows, MXX.hcat, MXX.col, V6.to_list in Heq.
  cbn [map zip_with] in Heq.
  rewrite !dot_app_last in Heq by (rewrite length_map; symmetry; exact Hlen).
  injection Heq as H0 H1 H2 H3 H4 H5.
  unfold M6X.rows, V6.to_list, V6.sub, V6.scale, V3.add, V3.neg, V3.scale.
  cbn [map head3 tail3 v0 v1 v2].
  coefficientwise ltac:(lra).
Qed.

(** X28.  The primal problems that work in the shifted coefficients are
    those that the source announces.  A feasible point [(b, b0)] of the
    second primal problem of [computeEquilibriumRobustness], with one
    coefficient of [b] per generator, has nonnegative coefficients and
    satisfies [G (b + 1 b0) = m_D * com + m_d]; a feasible point [(b, p)]
    of the primal problem of [findExtremumOverLine] has nonnegative
    coefficients and satisfies [G (b + 1 b0) = m_D * (a0 + a p) + m_d]. *)
Theorem shifted_primal_problems_feasible_points
    {LPS : Type} (st : @StaticEquilibrium LPS) (com a a0 : Vector3)
    (b : VectorX) (b0 p : R) :
  length b = length (m_G_centr st) ->
  (LP_feasible (robustness_LP2 st com) (b ++ [b0]) ->
   map (fun row => VX.dot row (map (fun bi => bi + b0) b)) (M6X.rows (m_G_centr st))
   = V6.to_list (gravity_wrench st com) /\
   Forall (fun bi => 0 <= bi) b) /\
  (LP_feasible (line_LP st a a0 b0) (b ++ [p]) ->
   map (fun row => VX.dot row (map (fun bi => bi + b0) b)) (M6X.rows (m_G_centr st))
   = V6.to_list (gravity_wrench st (V3.add a0 (V3.scale p a))) /\
   Forall (fun bi => 0 <= bi) b).
Proof.
  intros Hlen.
  assert (forall w : Vector6,
            map (fun row => VX.dot row b) (M6X.rows (m_G_centr st)) = V6.to_list w ->
            map (fun row => VX.dot row (map (fun bi => bi + b0) b))
              (M6X.rows (m_G_centr st))
            = V6.to_list (V6.add w (V6.scale b0 (M6X.mul_ones (m_G_centr st)))))
    as Hshift.
  { intros w Hw. unfold M6X.rows in Hw |- *. cbn [map] in Hw |- *.
    rewrite !dot_shift by (first [exact Hlen | reflexivity | intros; reflexivity]).
    unfold V6.to_list in Hw. injection Hw as -> -> -> -> -> ->.
    unfold V6.to_list, V6.add, V6.scale, V3.add, V3.scale.
    cbn [head3 tail3 v0 v1 v2]. coefficientwise ltac:(ring). }
  assert (forall y z : R,
            Forall2 Rle (<[length (m_G_centr st) := y]>
                           (replicate (length (m_G_centr st) + 1) z)) (b ++ [p]) ->
            Forall (fun bi => z <= bi) b) as Hbelow.
  { intros y z Hall. rewrite insert_last, <- Hlen in Hall.
    apply Forall2_app_inv in Hall as [Hall _]; [|apply length_replicate].
    apply Rle_replicate_below. exact Hall. }
  split.
  - intros (Hlb & _ & Hlow & Hup).
    unfold robustness_LP2 in Hlb, Hlow, Hup.
    cbn [lp_lb lp_A lp_Alb lp_Aub] in Hlb, Hlow, Hup. split.
    + rewrite (Hshift _ (shifted_rows _ _ _ _ _ Hlen Hlow Hup)).
      unfold V6.to_list, V6.add, V6.sub, V6.scale, V3.add, V3.neg, V3.scale.
      cbn [head3 tail3 v0 v1 v2]. coefficientwise ltac:(ring).
    + unfold VX.Zero in Hlb. rewrite insert_last, <- Hlen in Hlb.
      apply Forall2_app_inv in Hlb as [Hlb _]; [|apply length_replicate].
      apply Rle_replicate_below. exact Hlb.
  - intros (Hlb & _ & Hlow & Hup).
    unfold line_LP in Hlb, Hlow, Hup.
    cbn [lp_lb lp_A lp_Alb lp_Aub] in Hlb, Hlow, Hup. split.
    + rewrite (Hshift _ (shifted_rows _ _ _ _ _ Hlen Hlow Hup)).
      unfold line_wrench, gravity_wrench, M63.mulv, M63.neg, M3.mulv, M3.neg, V3.dot,
        V6.to_list, V6.add, V6.sub, V6.scale, V3.add, V3.neg, V3.scale.
      cbn [head3 tail3 v0 v1 v2 topRows3 bottomRows3 row0 row1 row2].
      coefficientwise ltac:(ring).
    + unfold VX.Zero in Hlb. rewrite neg_replicate in Hlb.
      apply Hbelow in Hlb. eapply Forall_impl; [exact Hlb|].
      intros x Hx. cbn beta in Hx. lra.
Qed.

Lemma shifted_primal_problems_feasible_points_witness :
  let st := with_G_centr (Scenario.robot LP_STATUS_OPTIMAL 0 SOLVER_LP_QPOASES)
              [vec6 (vec3 0 0 (-1)) V3.Zero] in
  let shifted := map (fun row => VX.dot row [8.81 + 1]) (M6X.rows (m_G_centr st)) in
  (shifted = V6.to_list (gravity_wrench st (vec3 0 0 0)) /\
   Forall (fun bi => 0 <= bi) [8.81]) /\
  (shifted
   = V6.to_list (gravity_wrench st (V3.add (vec3 0 0 0) (V3.scale 1 (vec3 0 0 1)))) /\
   Forall (fun bi => 0 <= bi) [8.81]).
Proof.
  cbn zeta.
  pose proof (shifted_primal_problems_feasible_points
                (with_G_centr (Scenario.robot LP_STATUS_OPTIMAL 0 SOLVER_LP_QPOASES)
                   [vec6 (vec3 0 0 (-1)) V3.Zero])
                (vec3 0 0 0) (vec3 0 0 1) (vec3 0 0 0) [8.81] 1 1 eq_refl)
    as [Hrobustness Hline].
  split; [apply Hrobustness|apply Hline];
    unfold LP_feasible, robustness_LP2, line_LP, line_wrench, VX.Ones, VX.Zero;
    rewrite ?neg_replicate, !scale_replicate;
    cbn [lp_lb lp_ub lp_A lp_Alb lp_Aub m_G_centr with_G_centr length Nat.add
         replicate];
    unfold gravity_wrench, Scenario.robot, StaticEquilibrium_new;
    cbn [fst m_D m_d with_G_centr];
    unfold MXX.mulv, MXX.hcat, MXX.col, M6X.rows, M6X.mul_ones, VX.dot, V6.to_list,
      V6.add, V6.sub, V6.scale, V6.Zero, V3.add, V3.neg, M63.mulv, M63.neg, M3.mulv,
      M3.neg, M3.Zero, V3.dot, V3.scale, V3.neg, V3.Zero, crossMatrix;
    cbn [map app foldr zip_with head3 tail3 v0 v1 v2 insert list_insert length
         replicate topRows3 bottomRows3 row0 row1 row2];
    repeat split;
    repeat match goal with |- Forall2 _ _ _ => constructor end; lra.
Defined.
